(** * FTA-Lite: retrieval-augmentation-evaluation pipeline

    A shallow embedding of the chunker ([lib/db/core/chunker.ts]), the
    similarity conversion of the vector-store back ends, the vector-store
    factory ([lib/db/index.ts]), the relational seeding routine
    ([lib/db/pg/index.ts]) and the test-run orchestrator
    ([app/api/run-task/route.ts]), with the properties the specification
    states about them. *)

From Stdlib Require Import List ZArith NArith Lia Bool String Ascii Floats.
From stdpp Require Import prelude strings gmap pretty.
Import ListNotations.

(** * Part I: the program *)

(** ** JavaScript strings

    A JavaScript string is a sequence of UTF-16 code units; [length] counts
    code units, and the regular expressions of the chunker (which carry no
    [u] flag) work on code units as well. *)

Module JsString.

Abbreviation jsstring := (list N).

Definition LF : N := 10.
Definition CR : N := 13.

(** Code units of an ASCII literal. *)
Fixpoint u16 (s : string) : jsstring :=
  match s with
  | EmptyString => []
  | String a s' => N_of_ascii a :: u16 s'
  end.

(** [WhiteSpace] and [LineTerminator] of ECMAScript: what [trim] strips and
    what the class [\s] matches. *)
Definition isSpace (c : N) : bool :=
  ((9 <=? c) && (c <=? 13) || (c =? 32) || (c =? 160) || (c =? 5760)
   || (8192 <=? c) && (c <=? 8202) || (c =? 8232) || (c =? 8233)
   || (c =? 8239) || (c =? 8287) || (c =? 12288) || (c =? 65279))%N.

Fixpoint dropWhile (p : N -> bool) (s : jsstring) : jsstring :=
  match s with
  | [] => []
  | c :: tl => if p c then dropWhile p tl else s
  end.

Fixpoint takeWhile (p : N -> bool) (s : jsstring) : jsstring :=
  match s with
  | [] => []
  | c :: tl => if p c then c :: takeWhile p tl else []
  end.

Definition trimStart (s : jsstring) : jsstring := dropWhile isSpace s.
Definition trimEnd (s : jsstring) : jsstring := rev (dropWhile isSpace (rev s)).

(** [String.prototype.trim]. *)
Definition trim (s : jsstring) : jsstring := trimEnd (trimStart s).

Definition isEmpty (s : jsstring) : bool :=
  match s with [] => true | _ => false end.

(** [s.substring(p, q)] for [p <= q]. *)
Definition substring (s : jsstring) (p q : nat) : jsstring :=
  firstn (q - p) (skipn p s).

(** *** Global regular-expression matching

    A pattern is given by its matcher at the head of a string: [m s] is the
    length of the match that starts at the first code unit of [s], if there
    is one.  The patterns used here never match the empty string.
    [findMatches] is the left-to-right scan of [String.prototype.match] with
    the [g] flag (and of [split]): after a match the scan resumes behind
    it; [skip] counts the code units still covered by the last match and
    [pos] is the index of the head of [s] in the whole text. *)
Fixpoint findMatches (m : jsstring -> option nat) (s : jsstring)
    (skip pos : nat) : list (nat * nat) :=
  match s with
  | [] => []
  | _ :: tl =>
      match skip with
      | S k => findMatches m tl k (S pos)
      | O =>
          match m s with
          | Some (S n) => (pos, pos + S n) :: findMatches m tl n (S pos)
          | _ => findMatches m tl 0 (S pos)
          end
      end
  end.

(** [(s.match(re) || []).length] for a global pattern. *)
Definition matchCount (m : jsstring -> option nat) (s : jsstring) : nat :=
  length (findMatches m s 0 0).

(** The pieces between the matches [ms], from index [p] on. *)
Fixpoint cutAt (s : jsstring) (ms : list (nat * nat)) (p : nat)
    : list jsstring :=
  match ms with
  | [] => [substring s p (length s)]
  | (a, b) :: ms' => substring s p a :: cutAt s ms' b
  end.

(** [s.split(re)] for a pattern without capture groups. *)
Definition split (m : jsstring -> option nat) (s : jsstring) : list jsstring :=
  cutAt s (findMatches m s 0 0) 0.

End JsString.

(** ** The chunker ([lib/db/core/chunker.ts]) *)

Module Chunker.
Import JsString.

Definition QA_CHUNK_SIZE : nat := 1500.
Definition QA_CHUNK_OVERLAP : nat := 0.
Definition STRUCTURED_CHUNK_SIZE : nat := 2000.
Definition STRUCTURED_CHUNK_OVERLAP : nat := 400.
Definition DEFAULT_CHUNK_SIZE : nat := 1200.
Definition DEFAULT_CHUNK_OVERLAP : nat := 200.

(** [content.replace(/\r\n/g, '\n')]. *)
Fixpoint normalizeLineEndings (s : jsstring) : jsstring :=
  match s with
  | [] => []
  | c :: tl =>
      match tl with
      | d :: tl' =>
          if ((c =? CR) && (d =? LF))%N then LF :: normalizeLineEndings tl'
          else c :: normalizeLineEndings tl
      | [] => [c]
      end
  end.

(** [qaPattern = /(Q:|A:|问：|答：)/g]: the code units of the four markers
    are [Q] 81, [A] 65, [:] 58, U+95EE, U+7B54 and the full-width colon
    U+FF1A. *)
Definition qaPattern (s : jsstring) : option nat :=
  match s with
  | a :: b :: _ =>
      if ((a =? 81) && (b =? 58) || (a =? 65) && (b =? 58)
          || (a =? 38382) && (b =? 65306) || (a =? 31572) && (b =? 65306))%N
      then Some 2 else None
  | _ => None
  end.

(** Index of the last occurrence of [c] in [s], counting from [i]. *)
Fixpoint lastIndexFrom (c : N) (s : jsstring) (i : nat) (acc : option nat)
    : option nat :=
  match s with
  | [] => acc
  | x :: tl => lastIndexFrom c tl (S i) (if (x =? c)%N then Some i else acc)
  end.

(** [doubleNewlinePattern = /\n\s*\n/g].  The greedy [\s*] first takes the
    whole run of white space behind the first line feed and then gives
    code units back until the one that follows is a line feed: the match
    ends at the last line feed of that run. *)
Definition doubleNewlinePattern (s : jsstring) : option nat :=
  match s with
  | c :: tl =>
      if (c =? LF)%N then
        match lastIndexFrom LF (takeWhile isSpace tl) 0 None with
        | Some k => Some (k + 2)
        | None => None
        end
      else None
  | [] => None
  end.

Definition qaMatches (normalizedContent : jsstring) : nat :=
  matchCount qaPattern normalizedContent.

Definition paragraphMatches (normalizedContent : jsstring) : nat :=
  matchCount doubleNewlinePattern normalizedContent.

Section WithSplitter.

(** [new RecursiveCharacterTextSplitter({chunkSize, chunkOverlap}).splitText]
    of the langchain library, which is not part of the repository. *)
Variable splitText : nat -> nat -> jsstring -> list jsstring.

(** The loop over the pieces of a blank-line split, shared in shape by the
    first two strategies: trim, drop what is empty, re-split what is longer
    than [size]. *)
Definition splitParagraphs (size overlap : nat) (chunks : list jsstring)
    : list jsstring :=
  flat_map
    (fun chunk =>
       let trimmedChunk := trim chunk in
       if isEmpty trimmedChunk then []
       else if size <? length trimmedChunk then
         List.filter (fun sc => negb (isEmpty sc))
                (map trim (splitText size overlap trimmedChunk))
       else [trimmedChunk])
    chunks.

Definition longEnough (chunk : jsstring) : bool := 10 <? length (trim chunk).

Definition qaStrategy (normalizedContent : jsstring) : list jsstring :=
  List.filter longEnough
    (splitParagraphs QA_CHUNK_SIZE 100
       (split doubleNewlinePattern normalizedContent)).

Definition paragraphStrategy (normalizedContent : jsstring) : list jsstring :=
  List.filter longEnough
    (splitParagraphs STRUCTURED_CHUNK_SIZE STRUCTURED_CHUNK_OVERLAP
       (split doubleNewlinePattern normalizedContent)).

Definition defaultStrategy (normalizedContent : jsstring) : list jsstring :=
  List.filter (fun chunk => negb (isEmpty chunk) && (10 <? length chunk))
    (map trim
       (splitText DEFAULT_CHUNK_SIZE DEFAULT_CHUNK_OVERLAP normalizedContent)).

Definition universalChunker (content : jsstring) : list jsstring :=
  let normalizedContent := normalizeLineEndings content in
  if (5 <? qaMatches normalizedContent)
     && (5 <? paragraphMatches normalizedContent)
  then qaStrategy normalizedContent
  else if 3 <=? paragraphMatches normalizedContent
  then paragraphStrategy normalizedContent
  else defaultStrategy normalizedContent.

End WithSplitter.

(** Which of the three branches of [universalChunker] a text takes. *)
Inductive Strategy := QaSplit | ParagraphSplit | RecursiveDefault.

Definition strategyOf (content : jsstring) : Strategy :=
  let normalizedContent := normalizeLineEndings content in
  if (5 <? qaMatches normalizedContent)
     && (5 <? paragraphMatches normalizedContent)
  then QaSplit
  else if 3 <=? paragraphMatches normalizedContent then ParagraphSplit
  else RecursiveDefault.

(** The specification speaks of "blank-line-separated paragraphs": the
    pieces between blank lines that hold some text. *)
Definition paragraphCount (normalizedContent : jsstring) : nat :=
  length (List.filter (fun p => negb (isEmpty (trim p)))
                 (split doubleNewlinePattern normalizedContent)).

(** The text with every line feed written as carriage return, line feed. *)
Fixpoint toCRLF (s : jsstring) : jsstring :=
  match s with
  | [] => []
  | c :: tl => if (c =? LF)%N then CR :: LF :: toCRLF tl else c :: toCRLF tl
  end.

(** Does a carriage return stand directly before a line feed? *)
Fixpoint hasCRLF (s : jsstring) : bool :=
  match s with
  | [] => false
  | c :: tl =>
      match tl with
      | d :: _ => ((c =? CR) && (d =? LF))%N || hasCRLF tl
      | [] => false
      end
  end.

(** A stand-in splitter for examples: fixed windows of [size] code units
    that advance by [size - overlap]. *)
Fixpoint windows (fuel size step : nat) (s : jsstring) : list jsstring :=
  match fuel with
  | O => []
  | S f =>
      match s with
      | [] => []
      | _ => firstn size s :: windows f size step (skipn (S (pred step)) s)
      end
  end.

Definition windowSplitter (size overlap : nat) (s : jsstring) : list jsstring :=
  windows (length s) size (size - overlap) s.

(** The selection rule as the specification words it, on paragraphs
    rather than on separators. *)
Definition claimedStrategy (content : jsstring) : Strategy :=
  let normalizedContent := normalizeLineEndings content in
  if (5 <? qaMatches normalizedContent)
     && (5 <? paragraphCount normalizedContent)
  then QaSplit
  else if 3 <=? paragraphCount normalizedContent then ParagraphSplit
  else RecursiveDefault.

(** Three paragraphs of twelve letters, two blank lines between them. *)
Definition threeParagraphs : jsstring :=
  u16 "aaaaaaaaaaaa

bbbbbbbbbbbb

cccccccccccc".

End Chunker.

(** ** Results of fallible calls

    A call either returns a value or throws an [Error] with a message. *)

Inductive Result (A : Type) :=
  | Returned (a : A)
  | Threw (message : string).
Arguments Returned {A} a.
Arguments Threw {A} message.

(** ** Similarity conversion of the two local back ends

    [lib/db/chroma/index.ts] and [lib/db/pg/index.ts].  JavaScript numbers
    and PostgreSQL [float8] are IEEE 754 binary64, as Rocq's primitive
    floats are. *)

Module Similarity.

Record Document := {
  id : string;
  content : string;
  metadata : list (string * string);
  similarity : option float
}.

(** The arrays a Chroma collection query returns: one inner list per query
    embedding; an inner entry may be [null]. *)
Record ChromaQueryResult := {
  ids : list (list string);
  distances : list (list (option float));
  documents : list (list (option string));
  metadatas : list (list (option (list (string * string))))
}.

(** [results.xs[0]?.[i]]. *)
Definition firstRowAt {A} (xs : list (list (option A))) (i : nat) : option A :=
  match xs !! 0 with
  | Some row => match row !! i with Some x => x | None => None end
  | None => None
  end.

(** [const cosineDistance = results.distances[0]?.[i] ?? 2;
     const cosineSimilarity = 1 - cosineDistance;] *)
Definition chromaSimilarity (distance : option float) : float :=
  let cosineDistance := default 2%float distance in
  (1 - cosineDistance)%float.

(** The conversion loop of [ChromaDB.queryDocuments]. *)
Definition chromaDocuments (results : ChromaQueryResult) : list Document :=
  match ids results !! 0 with
  | Some ids0 =>
      imap (fun i docId =>
              {| id := docId;
                 content := default ""%string (firstRowAt (documents results) i);
                 metadata := default [] (firstRowAt (metadatas results) i);
                 similarity :=
                   Some (chromaSimilarity (firstRowAt (distances results) i)) |})
           ids0
  | None => []
  end.

(** A row of [knowledge_chunks] together with the value of
    [embedding <=> $1::vector], the cosine distance pgvector computes. *)
Record ChunkDistance := {
  chunk_id : Z;
  chunk_text : string;
  file_id : Z;
  distance : float
}.

(** The select column [1 - (embedding <=> $1::vector) AS similarity]. *)
Definition pgSimilarity (distance : float) : float := (1 - distance)%float.

(** The select list of [PostgresDB.queryDocuments] on one row. *)
Definition pgDocument (printId : Z -> string) (row : ChunkDistance) : Document :=
  {| id := printId (chunk_id row);
     content := chunk_text row;
     metadata := [("file_id"%string, printId (file_id row))];
     similarity := Some (pgSimilarity (distance row)) |}.

End Similarity.

(** ** The vector-store factory ([lib/db/index.ts]) *)

Module DbFactory.

Inductive Backend := PostgresDB | ChromaDB | GoogleFileSearch.

(** A store instance: JavaScript object identity is the allocation number
    [instanceId]; [constructorArg] is what the constructor received. *)
Record DataAccess := {
  instanceId : nat;
  backendOf : Backend;
  constructorArg : option string
}.

(** The process: its environment variables, whether a constructor call
    throws (a missing API key, say) and whether [init()] of the instance
    with a given identity throws. *)
Record Process := {
  DATABASE_TYPE : option string;
  EMBEDDING_MODEL_TYPE : option string;
  constructorError : Backend -> option string -> option string;
  initError : nat -> option string
}.

(** The module state: the instance pool [dbInstancePool], the number of
    objects allocated so far, and the identities [init()] was called on. *)
Record State := {
  dbInstancePool : gmap string DataAccess;
  allocated : nat;
  initCalls : list nat
}.

Definition emptyState : State :=
  {| dbInstancePool := ∅; allocated := 0; initCalls := [] |}.

(** [a || b] on optional strings: [undefined] and the empty string are
    falsy. *)
Definition orElse (a b : option string) : option string :=
  match a with
  | Some s => if String.eqb s "" then b else a
  | None => b
  end.

Definition truthy (a : option string) : option string := orElse a None.

Definition backendOfName (name : string) : option Backend :=
  if String.eqb name "POSTGRES" then Some PostgresDB
  else if String.eqb name "CHROMA" then Some ChromaDB
  else if String.eqb name "GOOGLE" then Some GoogleFileSearch
  else None.

Definition cacheKeyOf (effectiveDbType effectiveEmbeddingModel : string) : string :=
  effectiveDbType +:+ "-" +:+ effectiveEmbeddingModel.

(** [getDbInstance], from its call to its return, when no other
    resolution runs at its awaits; [alone] below is the same resolution
    await by await. *)
Definition getDbInstance (P : Process) (dbType embeddingModel : option string)
    (st : State) : Result DataAccess * State :=
  match truthy (orElse dbType (DATABASE_TYPE P)),
        truthy (orElse embeddingModel (EMBEDDING_MODEL_TYPE P)) with
  | Some effectiveDbType, Some effectiveEmbeddingModel =>
      let cacheKey := cacheKeyOf effectiveDbType effectiveEmbeddingModel in
      match dbInstancePool st !! cacheKey with
      | Some cached => (Returned cached, st)
      | None =>
          match backendOfName effectiveDbType with
          | None =>
              (Threw ("Unsupported DATABASE_TYPE: " +:+ effectiveDbType
                      +:+ ". Check your .env config."), st)
          | Some b =>
              match constructorError P b embeddingModel with
              | Some e => (Threw e, st)
              | None =>
                  let newInstance :=
                    {| instanceId := allocated st; backendOf := b;
                       constructorArg := embeddingModel |} in
                  let st1 :=
                    {| dbInstancePool := dbInstancePool st;
                       allocated := S (allocated st);
                       initCalls := initCalls st ++ [allocated st] |} in
                  match initError P (allocated st) with
                  | Some e => (Threw e, st1)
                  | None =>
                      (Returned newInstance,
                       {| dbInstancePool :=
                            <[cacheKey := newInstance]> (dbInstancePool st1);
                          allocated := allocated st1;
                          initCalls := initCalls st1 |})
                  end
              end
          end
      end
  | _, _ => (Threw "Database type or embedding model is not configured.", st)
  end.

(** The cache key a resolution uses, when it has one. *)
Definition keyOf (P : Process) (dbType embeddingModel : option string)
    : option string :=
  match truthy (orElse dbType (DATABASE_TYPE P)),
        truthy (orElse embeddingModel (EMBEDDING_MODEL_TYPE P)) with
  | Some t, Some m => Some (cacheKeyOf t m)
  | _, _ => None
  end.

(** States the factory can be in: the empty pool, and whatever a call
    leaves behind. *)
Inductive reachable (P : Process) : State -> Prop :=
  | reachable_empty : reachable P emptyState
  | reachable_call st dbType embeddingModel :
      reachable P st ->
      reachable P (getDbInstance P dbType embeddingModel st).2.

(** [later P st st']: [st'] is [st] after some further resolutions. *)
Inductive later (P : Process) (st : State) : State -> Prop :=
  | later_now : later P st st
  | later_call st' dbType embeddingModel :
      later P st st' ->
      later P st (getDbInstance P dbType embeddingModel st').2.

(** What holds of the pool in every state the factory can be in: the
    identities in it are allocated and pairwise distinct, and [init()] was
    called on each, once. *)
Record Inv (st : State) : Prop := {
  inv_fresh : forall k i,
    dbInstancePool st !! k = Some i -> instanceId i < allocated st;
  inv_distinct : forall k1 k2 i1 i2,
    dbInstancePool st !! k1 = Some i1 -> dbInstancePool st !! k2 = Some i2 ->
    instanceId i1 = instanceId i2 -> k1 = k2;
  inv_init_bound : forall n, In n (initCalls st) -> n < allocated st;
  inv_init_once : NoDup (initCalls st);
  inv_init_pool : forall k i,
    dbInstancePool st !! k = Some i -> In (instanceId i) (initCalls st)
}.

(** *** A resolution, await by await

    [getDbInstance] is an async function.  Between [dbInstancePool.has]
    (line 34) and [dbInstancePool.set] (line 70) it awaits the dynamic
    import of the back end (lines 46, 51, 59) and [init()] (line 67), and
    at either await other resolutions may run.  A resolution in flight
    waits for the import, with its key and the class it has chosen, or
    for [init()], with the instance it has constructed, or it has
    settled. *)
Inductive Resolution :=
  | Importing (cacheKey : string) (b : Backend)
      (embeddingModel : option string)
  | Initialising (cacheKey : string) (newInstance : DataAccess)
  | Settled (outcome : Result DataAccess).

(** From the call to the first await: the effective arguments, the key,
    the lookup in the pool and the [switch]. *)
Definition enter (P : Process) (dbType embeddingModel : option string)
    (st : State) : Resolution :=
  match truthy (orElse dbType (DATABASE_TYPE P)),
        truthy (orElse embeddingModel (EMBEDDING_MODEL_TYPE P)) with
  | Some effectiveDbType, Some effectiveEmbeddingModel =>
      let cacheKey := cacheKeyOf effectiveDbType effectiveEmbeddingModel in
      match dbInstancePool st !! cacheKey with
      | Some cached => Settled (Returned cached)
      | None =>
          match backendOfName effectiveDbType with
          | None =>
              Settled (Threw ("Unsupported DATABASE_TYPE: "
                              +:+ effectiveDbType
                              +:+ ". Check your .env config."))
          | Some b => Importing cacheKey b embeddingModel
          end
      end
  | _, _ => Settled (Threw "Database type or embedding model is not configured.")
  end.

(** From one await to the next.  After the import: the constructor and
    the call of [init()].  After [init()]: [dbInstancePool.set] and the
    return. *)
Definition resume (P : Process) (r : Resolution) (st : State)
    : Resolution * State :=
  match r with
  | Importing cacheKey b embeddingModel =>
      match constructorError P b embeddingModel with
      | Some e => (Settled (Threw e), st)
      | None =>
          (Initialising cacheKey
             {| instanceId := allocated st; backendOf := b;
                constructorArg := embeddingModel |},
           {| dbInstancePool := dbInstancePool st;
              allocated := S (allocated st);
              initCalls := initCalls st ++ [allocated st] |})
      end
  | Initialising cacheKey newInstance =>
      match initError P (instanceId newInstance) with
      | Some e => (Settled (Threw e), st)
      | None =>
          (Settled (Returned newInstance),
           {| dbInstancePool :=
                <[cacheKey := newInstance]> (dbInstancePool st);
              allocated := allocated st;
              initCalls := initCalls st |})
      end
  | Settled outcome => (r, st)
  end.

(** A resolution that runs alone: nothing else between its awaits. *)
Definition alone (P : Process) (dbType embeddingModel : option string)
    (st : State) : Resolution * State :=
  let imported := resume P (enter P dbType embeddingModel st) st in
  resume P imported.1 imported.2.

(** Two resolutions in flight, resumed as the event loop picks them:
    [true] resumes the one, [false] the other. *)
Fixpoint interleave (P : Process) (schedule : list bool)
    (one other : Resolution) (st : State)
    : Resolution * Resolution * State :=
  match schedule with
  | [] => (one, other, st)
  | true :: rest =>
      let resumed := resume P one st in
      interleave P rest resumed.1 other resumed.2
  | false :: rest =>
      let resumed := resume P other st in
      interleave P rest one resumed.1 resumed.2
  end.

(** The instance a resolution has constructed, once it has; the key it
    works for, while it is in flight. *)
Definition madeBy (r : Resolution) : option DataAccess :=
  match r with
  | Initialising _ newInstance => Some newInstance
  | Settled (Returned instance) => Some instance
  | _ => None
  end.

Definition keyIn (r : Resolution) : option string :=
  match r with
  | Importing cacheKey _ _ | Initialising cacheKey _ => Some cacheKey
  | Settled _ => None
  end.

(** What holds of two resolutions for the key [k] that have both missed
    the pool, however they are resumed: what either has constructed is
    allocated and [init()] was called on it, the two instances are two
    objects, and once one of them has returned the pool holds under [k]
    the instance of one that has. *)
Record Overlap (k : string) (one other : Resolution) (st : State) : Prop := {
  ov_key : forall r k',
    r = one \/ r = other -> keyIn r = Some k' -> k' = k;
  ov_init : forall r i,
    r = one \/ r = other -> madeBy r = Some i ->
    instanceId i < allocated st /\ In (instanceId i) (initCalls st);
  ov_distinct : forall i j,
    madeBy one = Some i -> madeBy other = Some j ->
    instanceId i <> instanceId j;
  ov_pool : forall i,
    one = Settled (Returned i) \/ other = Settled (Returned i) ->
    exists j,
      dbInstancePool st !! k = Some j
      /\ (one = Settled (Returned j) \/ other = Settled (Returned j))
}.

(** A process for examples: no environment variables, nothing throws. *)
Definition quietProcess : Process :=
  {| DATABASE_TYPE := None; EMBEDDING_MODEL_TYPE := None;
     constructorError := fun _ _ => None; initError := fun _ => None |}.

(** Two resolutions in a fresh process: the first creates an instance for
    one embedding model, the second for another. *)
Definition firstInstance : DataAccess :=
  {| instanceId := 0; backendOf := ChromaDB;
     constructorArg := Some "bge-m3"%string |}.

Definition afterFirst : State :=
  (getDbInstance quietProcess (Some "CHROMA"%string) (Some "bge-m3"%string)
     emptyState).2.

Definition afterSecond : State :=
  (getDbInstance quietProcess (Some "CHROMA"%string)
     (Some "nomic-embed-text"%string) afterFirst).2.

(** Two resolutions for [CHROMA] and [bge-m3] in a fresh process, the
    second called while the first waits for its import, and the two then
    resumed in turn. *)
Definition entered : Resolution :=
  enter quietProcess (Some "CHROMA"%string) (Some "bge-m3"%string) emptyState.

Definition overlapped : Resolution * Resolution * State :=
  interleave quietProcess [true; false; true; false] entered entered
    emptyState.

Definition secondInstance : DataAccess :=
  {| instanceId := 1; backendOf := ChromaDB;
     constructorArg := Some "bge-m3"%string |}.

End DbFactory.

(** ** Seeding the relational back end ([PostgresDB.seed]) *)

Module PgSeed.
Import JsString.

Record KnowledgeFile := {
  file_id : Z;
  file_name : string;
  file_content : jsstring
}.

Record KnowledgeChunk := {
  chunk_id : Z;
  chunk_file_id : Z;
  chunk_text : jsstring;
  embedding : list float
}.

(** The two tables, their [SERIAL] sequences and the dimension of the
    [VECTOR(n)] column. *)
Record Database := {
  knowledge_files : list KnowledgeFile;
  knowledge_chunks : list KnowledgeChunk;
  files_id_seq : Z;
  chunks_id_seq : Z;
  dimensions : nat
}.

(** What lies outside the class: the connection pool, the file system,
    the [path] module, the embedding service and the langchain splitter. *)
Record Host := {
  connectError : option string;
  readdir : string -> Result (list string);
  readFile : string -> Result jsstring;
  extname : string -> string;
  join : string -> string -> string;
  getEmbedding : jsstring -> Result (list float);
  splitText : nat -> nat -> jsstring -> list jsstring
}.

(** [TRUNCATE TABLE knowledge_files CASCADE]: the table and, through the
    foreign key of [knowledge_chunks], the chunks; the sequences go on. *)
Definition truncateKnowledgeFiles (db : Database) : Database :=
  {| knowledge_files := [];
     knowledge_chunks := [];
     files_id_seq := files_id_seq db;
     chunks_id_seq := chunks_id_seq db;
     dimensions := dimensions db |}.

(** [INSERT INTO knowledge_files (file_name, content) ... RETURNING id];
    [file_name] is [UNIQUE]. *)
Definition insertFile (fileName : string) (content : jsstring) (db : Database)
    : Result Z * Database :=
  let fileId := files_id_seq db in
  let advanced :=
    {| knowledge_files := knowledge_files db;
       knowledge_chunks := knowledge_chunks db;
       files_id_seq := (fileId + 1)%Z;
       chunks_id_seq := chunks_id_seq db;
       dimensions := dimensions db |} in
  if existsb (fun f => String.eqb (file_name f) fileName) (knowledge_files db)
  then (Threw "duplicate key value violates unique constraint", advanced)
  else
    (Returned fileId,
     {| knowledge_files :=
          knowledge_files db
          ++ [{| file_id := fileId; file_name := fileName;
                 file_content := content |}];
        knowledge_chunks := knowledge_chunks db;
        files_id_seq := (fileId + 1)%Z;
        chunks_id_seq := chunks_id_seq db;
        dimensions := dimensions db |}).

(** [INSERT INTO knowledge_chunks (file_id, chunk_text, embedding)]; the
    vector must have the dimension of the column. *)
Definition insertChunk (fileId : Z) (chunk : jsstring) (vector : list float)
    (db : Database) : Result unit * Database :=
  let chunkId := chunks_id_seq db in
  if negb (length vector =? dimensions db)
  then
    (Threw "expected another number of dimensions",
     {| knowledge_files := knowledge_files db;
        knowledge_chunks := knowledge_chunks db;
        files_id_seq := files_id_seq db;
        chunks_id_seq := (chunkId + 1)%Z;
        dimensions := dimensions db |})
  else
    (Returned tt,
     {| knowledge_files := knowledge_files db;
        knowledge_chunks :=
          knowledge_chunks db
          ++ [{| chunk_id := chunkId; chunk_file_id := fileId;
                 chunk_text := chunk; embedding := vector |}];
        files_id_seq := files_id_seq db;
        chunks_id_seq := (chunkId + 1)%Z;
        dimensions := dimensions db |}).

Section WithHost.

Variable H : Host.

(** Which file names the loop does not skip. *)
Variable eligible : string -> bool.

(** [for (const chunk of chunks)]. *)
Fixpoint insertChunks (fileId : Z) (chunks : list jsstring) (db : Database)
    : Result unit * Database :=
  match chunks with
  | [] => (Returned tt, db)
  | chunk :: rest =>
      match getEmbedding H chunk with
      | Threw e => (Threw e, db)
      | Returned vector =>
          match insertChunk fileId chunk vector db with
          | (Threw e, db') => (Threw e, db')
          | (Returned _, db') => insertChunks fileId rest db'
          end
      end
  end.

(** [for (const fileName of files)]. *)
Fixpoint seedFiles (directoryPath : string) (files : list string)
    (db : Database) : Result unit * Database :=
  match files with
  | [] => (Returned tt, db)
  | fileName :: rest =>
      if negb (eligible fileName) then seedFiles directoryPath rest db
      else
        match readFile H (join H directoryPath fileName) with
        | Threw e => (Threw e, db)
        | Returned content =>
            match insertFile fileName content db with
            | (Threw e, db1) => (Threw e, db1)
            | (Returned fileId, db1) =>
                let chunks := Chunker.universalChunker (splitText H) content in
                match insertChunks fileId chunks db1 with
                | (Threw e, db2) => (Threw e, db2)
                | (Returned _, db2) => seedFiles directoryPath rest db2
                end
            end
        end
  end.

Definition seedWith (directoryPath : string) (db : Database)
    : Result unit * Database :=
  match connectError H with
  | Some e => (Threw e, db)
  | None =>
      let db0 := truncateKnowledgeFiles db in
      match readdir H directoryPath with
      | Threw e => (Threw e, db0)
      | Returned files => seedFiles directoryPath files db0
      end
  end.

End WithHost.

(** The current [seed]: [.md] and [.txt] files. *)
Definition seed (H : Host) : string -> Database -> Result unit * Database :=
  seedWith H
    (fun fileName =>
       negb (negb (String.eqb (extname H fileName) ".md")
             && negb (String.eqb (extname H fileName) ".txt"))).

(** The earlier [seed] of [src/lib/db/pg/index.ts]: [.txt] files only. *)
Definition seedTxt (H : Host) : string -> Database -> Result unit * Database :=
  seedWith H
    (fun fileName => negb (negb (String.eqb (extname H fileName) ".txt"))).

(** A chunk is derived from a file of the directory. *)
Definition derivedFrom (H : Host) (directoryPath : string)
    (files : list string) (f : KnowledgeFile) (c : KnowledgeChunk) : Prop :=
  chunk_file_id c = file_id f
  /\ In (file_name f) files
  /\ (extname H (file_name f) = ".md"%string
      \/ extname H (file_name f) = ".txt"%string)
  /\ readFile H (join H directoryPath (file_name f)) = Returned (file_content f)
  /\ In (chunk_text c)
        (Chunker.universalChunker (splitText H) (file_content f)).

(** Every chunk of the store belongs to a stored file of the directory it
    was cut from. *)
Definition allDerived (H : Host) (directoryPath : string)
    (files : list string) (db : Database) : Prop :=
  forall c, In c (knowledge_chunks db) ->
  exists f, In f (knowledge_files db) /\ derivedFrom H directoryPath files f c.

(** The rows of [db] carry identifiers the sequences issued from [c0] and
    [f0] on. *)
Definition issuedSince (c0 f0 : Z) (db : Database) : Prop :=
  (forall c, In c (knowledge_chunks db) ->
     (c0 <= chunk_id c < chunks_id_seq db)%Z)
  /\ (forall f, In f (knowledge_files db) ->
        (f0 <= file_id f < files_id_seq db)%Z)
  /\ (c0 <= chunks_id_seq db)%Z /\ (f0 <= files_id_seq db)%Z.

(** A seeding routine replaces the content of the store: it does on any
    store what it does on the emptied one, every row it leaves was
    inserted by the call, and, when it completes, every chunk was cut from
    a [.md] or [.txt] file of the directory. *)
Definition fullReplace (H : Host)
    (seedFn : string -> Database -> Result unit * Database) : Prop :=
  forall directoryPath db,
    seedFn directoryPath db = seedFn directoryPath (truncateKnowledgeFiles db)
    /\ issuedSince (chunks_id_seq db) (files_id_seq db)
                   (seedFn directoryPath db).2
    /\ ((seedFn directoryPath db).1 = Returned tt ->
        exists files,
          readdir H directoryPath = Returned files
          /\ allDerived H directoryPath files (seedFn directoryPath db).2).

(** A host for examples: a directory of three files, an extension taken
    from the last four or three characters, vectors of dimension 2. *)
Definition exampleExtname (fileName : string) : string :=
  let n := String.length fileName in
  if String.eqb (String.substring (n - 4) 4 fileName) ".txt" then ".txt"
  else if String.eqb (String.substring (n - 3) 3 fileName) ".md" then ".md"
  else "".

Definition exampleText : jsstring :=
  u16 "The first paragraph of the note.

The second paragraph of the note.".

Definition exampleHost : Host :=
  {| connectError := None;
     readdir := fun _ => Returned ["a.md"; "b.txt"; "c.pdf"]%string;
     readFile := fun _ => Returned exampleText;
     extname := exampleExtname;
     join := fun d f => (d +:+ "/" +:+ f)%string;
     getEmbedding := fun _ => Returned [1%float; 0%float];
     splitText := Chunker.windowSplitter |}.

Definition staleDatabase : Database :=
  {| knowledge_files :=
       [{| file_id := 1; file_name := "old.txt"; file_content := u16 "old" |}];
     knowledge_chunks :=
       [{| chunk_id := 1; chunk_file_id := 1; chunk_text := u16 "old";
           embedding := [0%float; 1%float] |}];
     files_id_seq := 2; chunks_id_seq := 2; dimensions := 2 |}.

End PgSeed.

(** ** The test-run orchestrator ([app/api/run-task/route.ts]) *)

Module Orchestrator.

Open Scope string_scope.

(** *** Data *)

Record TestCase := {
  tc_id : Z;
  tc_tag : string;
  tc_source : string;
  tc_question : string;
  tc_answer : string;
  tc_score : Z
}.

(** The parts of [config] that [runTask] reads ([project], [models],
    [testConfig], [testCases]); the sampling parameters only travel on to
    the model call and are left out, as is the system prompt. *)
Record Config := {
  projectName : string;
  databaseType : option string;
  embeddingModel : option string;
  rerankerModel : option string;
  workModel : string;
  scoreModel : string;
  loopCount : nat;
  testCases : list TestCase
}.

Record ChatMessage := { role : string; msg_content : string }.

Record TokenUsage := {
  total_tokens : Z;
  prompt_tokens : Z;
  completion_tokens : Z
}.

Record DurationUsage := {
  total_duration : Z;
  load_duration : Z;
  prompt_eval_duration : Z;
  eval_duration : Z
}.

(** What [handleChat] resolves to with [stream: false]. *)
Record NonStreamingResult := {
  nsr_content : string;
  usage : TokenUsage;
  duration : option DurationUsage
}.

Record SafeCallResult := {
  success : bool;
  content : option string;
  tokenUsage : option TokenUsage;
  durationUsage : option DurationUsage;
  error : option string
}.

Record RerankInput := { ri_index : nat; ri_content : string }.
Record RerankResult := { rr_index : nat; rr_content : string; rr_score : float }.

Record ResultEntry := {
  entry_id : Z;
  entry_tag : string;
  entry_source : string;
  entry_question : string;
  standardAnswer : string;
  modelAnswer : string;
  maxScore : Z;
  entry_score : Z;
  workTokenUsage : Z;
  workDurationUsage : Z;
  scoreTokenUsage : Z;
  scoreDurationUsage : Z;
  dbQueryDuration : Z;
  rerankDuration : Z;
  databaseName : option string;
  embeddingModelName : option string;
  rerankModelName : option string;
  entry_error : option string
}.

(** *** The progress stream

    The frames of the server-sent event stream, by their [type].  The text
    of a [log] and of an [update] frame is a template over a few values;
    the frame keeps the values. *)

Inductive LogMessage :=
  | ResultDirCreated (runTimestamp : string)
  | LoadingProject (name : string)
  | Retrieving (questionId : Z)
  | RerankDone (rerankDuration : Z)
  | RetrievalFailed (dbErrorMessage : string)
  | AnswerFailed (questionId : Z)
  | ScoringFailed (questionId : Z).

Inductive ActiveTask :=
  | Answering (questionId : Z)
  | Evaluating (questionId : Z).

Inductive Event :=
  | EvLog (message : LogMessage)
  | EvUpdate (activeTask : ActiveTask) (currentTask totalTasks : nat)
  | EvAnswer (questionId : Z) (questionText modelAnswer : string)
  | EvScore (score maxScore : Z)
  | EvTokenUsage (tokenUsage : Z)
  | EvError (message : string)
  | EvDone (message : string).

Definition isErrorEvent (e : Event) : bool :=
  match e with EvError _ => true | _ => false end.

(** *** Effects

    Everything [POST] does to the outside, in the order it does it: the
    calls it makes.  [Enqueue e] is the call of [controller.enqueue] with
    the frame [e], [CloseStream] the call of [controller.close()]. *)
Inductive Action :=
  | Enqueue (e : Event)
  | CloseStream
  | MkdirBase
  | MkdirLoop (loop : nat)
  | EnsureLogFile (loop : nat)
  | AppendToLogFile (loop : nat) (text : string)
  | WriteResults (loop : nat) (qaResults : list ResultEntry)
  | SetTimeout (ms : nat)
  | GetDbInstance (dbType : string) (model : option string)
  | QueryDocuments (query : string) (topK : nat)
  | RerankRequest (query : string) (documents : list RerankInput) (model : string)
  | HandleChat (model : string) (messages : list ChatMessage).

(** The run so far: [ticks] counts the [await]s on the outside world that
    have completed, [history] lists the effects. *)
Record World := { ticks : nat; history : list Action }.

Definition initialWorld : World := {| ticks := 0; history := [] |}.

(** The outside world.  Control returns to the event loop only at an
    [await], so the client's abort signal is seen from some tick on
    ([abortAt]); what a call returns depends on when it is made. *)
Record Host := {
  abortAt : option nat;
  DATABASE_TYPE : option string;
  getTimestamp : string;
  performanceNow : nat -> Z;
  diskError : nat -> option string;
  getDbInstance : nat -> string -> option string -> option string;
  queryDocuments : nat -> string -> nat -> Result (list Similarity.Document);
  rerankService :
    nat -> string -> list RerankInput -> string -> Result (list RerankResult);
  handleChat :
    nat -> string -> list ChatMessage -> Result (option NonStreamingResult)
}.

(** Computations that act on the world and may throw. *)
Definition M (A : Type) : Type := World -> Result A * World.

#[global] Instance M_ret : MRet M := fun A a w => (Returned a, w).

#[global] Instance M_bind : MBind M := fun A B f m w =>
  match m w with
  | (Returned a, w') => f a w'
  | (Threw e, w') => (Threw e, w')
  end.

Definition throw {A} (message : string) : M A := fun w => (Threw message, w).

(** [try { m } catch (e) { handler e }]. *)
Definition tryCatch {A} (m : M A) (handler : string -> M A) : M A := fun w =>
  match m w with
  | (Threw e, w') => handler e w'
  | r => r
  end.

Definition act (a : Action) : M unit := fun w =>
  (Returned tt, {| ticks := ticks w; history := history w ++ [a] |}).

(** An [await] on the outside world has completed. *)
Definition tick : M unit := fun w =>
  (Returned tt, {| ticks := S (ticks w); history := history w |}).

(** [for (const x of xs)] with the variables the body updates. *)
Fixpoint forEach {A S} (body : A -> S -> M S) (xs : list A) (s : S) : M S :=
  match xs with
  | [] => mret s
  | x :: rest => s' ← body x s; forEach body rest s'
  end.

Definition CANCELLED : string := "任务已被用户取消".
Definition PLACEHOLDER_ANSWER : string := "N/A (调用失败)".

(** [a || b] and [!a] on optional strings. *)
Definition orElse (a b : option string) : option string :=
  match a with
  | Some s => if String.eqb s "" then b else a
  | None => b
  end.

Definition truthy (a : option string) : option string := orElse a None.

(** [Math.round(x / 1e6)] on an integer number of nanoseconds. *)
Definition roundMillis (x : Z) : Z := ((x + 500000) / 1000000)%Z.

(** [parseInt(content.trim().match(/\d+/)?.[0] || '0', 10)]. *)
Definition isDigit (c : ascii) : bool :=
  ((48 <=? nat_of_ascii c) && (nat_of_ascii c <=? 57))%nat.

Fixpoint leadingDigits (s : string) : list ascii :=
  match s with
  | String c rest => if isDigit c then c :: leadingDigits rest else []
  | EmptyString => []
  end.

Fixpoint firstDigits (s : string) : list ascii :=
  match s with
  | String c rest => if isDigit c then c :: leadingDigits rest else firstDigits rest
  | EmptyString => []
  end.

Definition parseScore (content : string) : Z :=
  fold_left (fun acc c => (acc * 10 + (Z.of_nat (nat_of_ascii c) - 48))%Z)
            (firstDigits content) 0%Z.

Section WithHost.

Variable H : Host.

Definition aborted (w : World) : bool :=
  match abortAt H with
  | Some t => (t <=? ticks w)%nat
  | None => false
  end.

(** [() => isAborted || request.signal.aborted]. *)
Definition isCancelled : M bool := fun w => (Returned (aborted w), w).

(** [sendEvent(controller, data)]: the call of [controller.enqueue],
    inside a [try] whose [catch] only logs.  Whether the stream takes the
    frame or the call throws, [sendEvent] returns and the run goes on
    alike, so the history records the call; [onStream] below tells which
    frames the stream has taken. *)
Definition sendEvent (data : Event) : M unit := act (Enqueue data).

(** The [onProgress] callback [POST] hands to [runTask]. *)
Definition onProgress (data : Event) : M unit :=
  c ← isCancelled;
  if c : bool then throw CANCELLED else sendEvent data.

Definition throwIfCancelled : M unit :=
  c ← isCancelled;
  if c : bool then throw CANCELLED else mret tt.

Definition now : M Z := fun w => (Returned (performanceNow H (ticks w)), w).

(** An [await] on a file-system call. *)
Definition disk (a : Action) : M unit := fun w =>
  match diskError H (ticks w) with
  | Some e => (Threw e, {| ticks := S (ticks w); history := history w |})
  | None => (Returned tt, {| ticks := S (ticks w); history := history w ++ [a] |})
  end.

(** [await new Promise(resolve => setTimeout(resolve, ms))]. *)
Definition sleep (ms : nat) : M unit := act (SetTimeout ms);; tick.

Definition chat (model : string) (messages : list ChatMessage)
    : M (Result (option NonStreamingResult)) := fun w =>
  (Returned (handleChat H (ticks w) model messages),
   {| ticks := S (ticks w);
      history := history w ++ [HandleChat model messages] |}).

(** [safeModelCall]: the loop [for (let i = 0; i <= retries; i++)], with
    [remaining] iterations to go. *)
Fixpoint safeModelCallFrom (remaining i retries : nat) (selectedModel : string)
    (messages : list ChatMessage) : M SafeCallResult :=
  match remaining with
  | O =>
      mret {| success := false; content := None; tokenUsage := None;
              durationUsage := None;
              error := Some "Exited retry loop unexpectedly" |}
  | S remaining' =>
      (if (0 <? i)%nat then sleep 2000 else mret tt);;
      result ← chat selectedModel messages;
      match result with
      | Returned (Some r) =>
          mret {| success := true; content := Some (nsr_content r);
                  tokenUsage := Some (usage r); durationUsage := duration r;
                  error := None |}
      | Returned None =>
          if (i =? retries)%nat then
            mret {| success := false; content := None; tokenUsage := None;
                    durationUsage := None;
                    error :=
                      Some "Model call succeeded but returned unexpected format." |}
          else safeModelCallFrom remaining' (S i) retries selectedModel messages
      | Threw e =>
          if (i =? retries)%nat then
            mret {| success := false; content := None; tokenUsage := None;
                    durationUsage := None;
                    error :=
                      Some (if String.eqb e "" then
                              "A critical error occurred during model call"
                            else e) |}
          else safeModelCallFrom remaining' (S i) retries selectedModel messages
      end
  end.

Definition safeModelCall (selectedModel : string) (messages : list ChatMessage)
    : M SafeCallResult :=
  let retries := 2 in
  safeModelCallFrom (S retries) 0 retries selectedModel messages.

(** *** Retrieval and augmentation *)

(** The variables the retrieval block of [runTask] assigns. *)
Record Retrieval := {
  augmentedPrompt : string;
  r_dbQueryDuration : Z;
  r_rerankDuration : Z;
  r_databaseName : option string;
  r_embeddingModelName : option string;
  r_rerankModelName : option string
}.

(** A chunk of the context: [{...originalChunk, similarity}], where
    [originalChunk] is [undefined] for an index out of range. *)
Record ContextChunk := {
  originalChunk : option Similarity.Document;
  cc_similarity : float
}.

Definition chunkContent (c : ContextChunk) : string :=
  match originalChunk c with
  | Some d => Similarity.content d
  | None => "undefined"
  end.

Definition SIMILARITY_THRESHOLD : float := 0x1.999999999999ap-1%float. (* 0.8 *)

Definition documentsToRerank (relevantChunks : list Similarity.Document)
    : list RerankInput :=
  imap (fun index chunk =>
          {| ri_index := index; ri_content := Similarity.content chunk |})
       relevantChunks.

Definition finalChunks (relevantChunks : list Similarity.Document)
    (rerankedResults : list RerankResult) : list ContextChunk :=
  map (fun result =>
         {| originalChunk := relevantChunks !! rr_index result;
            cc_similarity := rr_score result |})
      (take 3 rerankedResults).

Definition thresholdFilter (chunks : list ContextChunk) : list ContextChunk :=
  List.filter (fun chunk => (SIMILARITY_THRESHOLD <=? cc_similarity chunk)%float)
         chunks.

Definition rawFallback (relevantChunks : list Similarity.Document)
    : list ContextChunk :=
  map (fun chunk =>
         {| originalChunk := Some chunk;
            cc_similarity := default 0%float (Similarity.similarity chunk) |})
      (take 3 relevantChunks).

Definition finalContextChunks (relevantChunks : list Similarity.Document)
    (rerankedResults : list RerankResult) : list ContextChunk :=
  let filtered := thresholdFilter (finalChunks relevantChunks rerankedResults) in
  if (length filtered =? 0)%nat && (0 <? length relevantChunks)%nat
  then rawFallback relevantChunks
  else filtered.

Definition contextOf (chunks : list ContextChunk) : string :=
  String.concat "
" (map (fun chunk => "- " +:+ chunkContent chunk) chunks).

Definition promptWithContext (context question : string) : string :=
  "
          ---
          【知识库知识】
          " +:+ context +:+ "
          ---

          【用户问题】
          " +:+ question +:+ "
          ".

Definition buildPrompt (chunks : list ContextChunk) (question : string) : string :=
  if (0 <? length chunks)%nat then promptWithContext (contextOf chunks) question
  else question.

Section WithConfig.

Variable config : Config.

(** [rerankDocuments] of [lib/reranker/reranker-service.ts]: nothing is
    sent for an empty list. *)
Definition rerankDocuments (query : string) (documents : list RerankInput)
    (modelName : string) : M (Result (list RerankResult)) :=
  match documents with
  | [] => mret (Returned [])
  | _ => fun w =>
      (Returned (rerankService H (ticks w) query documents modelName),
       {| ticks := S (ticks w);
          history := history w ++ [RerankRequest query documents modelName] |})
  end.

Definition connect (dbType : string) (model : option string)
    : M (option string) := fun w =>
  (Returned (getDbInstance H (ticks w) dbType model),
   {| ticks := S (ticks w);
      history := history w ++ [GetDbInstance dbType model] |}).

Definition query (question : string) (topK : nat)
    : M (Result (list Similarity.Document)) := fun w =>
  (Returned (queryDocuments H (ticks w) question topK),
   {| ticks := S (ticks w);
      history := history w ++ [QueryDocuments question topK] |}).

(** The handler [catch (dbError)] of the retrieval block, entered with the
    variables as they stand. *)
Definition retrievalFailed (testCase : TestCase) (dbQuery rerank : Z)
    (dbName embedName rerankName : option string) (dbError : string)
    : M Retrieval :=
  onProgress (EvLog (RetrievalFailed dbError));;
  mret {| augmentedPrompt := tc_question testCase;
          r_dbQueryDuration := dbQuery; r_rerankDuration := rerank;
          r_databaseName := dbName; r_embeddingModelName := embedName;
          r_rerankModelName := rerankName |}.

(** The block [try { ... } catch (dbError) { ... }] of [runTask]. *)
Definition retrieve (testCase : TestCase) : M Retrieval :=
  dbQueryStartTime ← now;
  match truthy (orElse (databaseType config) (DATABASE_TYPE H)) with
  | None =>
      retrievalFailed testCase 0 0 None None None
        "Database type must be configured in project settings or DATABASE_TYPE environment variable."
  | Some dbType =>
      let embedName := embeddingModel config in
      refused ← connect dbType embedName;
      match refused with
      | Some e => retrievalFailed testCase 0 0 (Some dbType) embedName None e
      | None =>
      let topK := 10 in
      found ← query (tc_question testCase) topK;
      match found with
      | Threw e => retrievalFailed testCase 0 0 (Some dbType) embedName None e
      | Returned relevantChunks =>
      dbQueryEndTime ← now;
      let dbQuery := (dbQueryEndTime - dbQueryStartTime)%Z in
      rerankStartTime ← now;
      let rerankerModel :=
        default "BAAI/bge-reranker-v2-m3" (truthy (rerankerModel config)) in
      reranked ←
        rerankDocuments (tc_question testCase)
          (documentsToRerank relevantChunks) rerankerModel;
      match reranked with
      | Threw e =>
          retrievalFailed testCase dbQuery 0 (Some dbType) embedName
            (Some rerankerModel) e
      | Returned rerankedResults =>
      rerankEndTime ← now;
      let rerank := (rerankEndTime - rerankStartTime)%Z in
      tryCatch
        (onProgress (EvLog (RerankDone rerank));;
         mret {| augmentedPrompt :=
                   buildPrompt
                     (finalContextChunks relevantChunks rerankedResults)
                     (tc_question testCase);
                 r_dbQueryDuration := dbQuery; r_rerankDuration := rerank;
                 r_databaseName := Some dbType;
                 r_embeddingModelName := embedName;
                 r_rerankModelName := Some rerankerModel |})
        (retrievalFailed testCase dbQuery rerank (Some dbType) embedName
           (Some rerankerModel))
      end end end
  end.

(** *** One test case *)

(** The variables of [runTask] that outlive a test case. *)
Record Locals := {
  currentTask : nat;
  totalTokenUsage : Z;
  qaResults : list ResultEntry
}.

Definition questionLog (testCase : TestCase) : string :=
  "
=== 问题 #" +:+ pretty (tc_id testCase) +:+ " ===
" +:+ tc_question testCase +:+ "

".

Definition answerLog (answer : string) : string :=
  "--- 最终答复 ---
" +:+ answer +:+ "

".

Definition scoreMessage (testCase : TestCase) (answer : string) : string :=
  "
        ---
        **问题:**
        " +:+ tc_question testCase +:+ "

        ---
        **标准答案 (参考事实来源):**
        " +:+ tc_answer testCase +:+ "

        ---
        **模型的回答 (待评估对象):**
        " +:+ answer +:+ "
        ".

Definition userMessage (text : string) : list ChatMessage :=
  [{| role := "user"; msg_content := text |}].

(** [if (result.tokenUsage) { totalTokenUsage += ...; onProgress(...) }]. *)
Definition addTokenUsage (result : SafeCallResult) (total : Z) : M Z :=
  match tokenUsage result with
  | Some u =>
      let total' := (total + total_tokens u)%Z in
      onProgress (EvTokenUsage total');; mret total'
  | None => mret total
  end.

Definition tokensOf (result : SafeCallResult) : Z :=
  match tokenUsage result with Some u => total_tokens u | None => 0%Z end.

Definition millisOf (result : SafeCallResult) : Z :=
  match durationUsage result with
  | Some d => roundMillis (total_duration d)
  | None => 0%Z
  end.

(** What the scoring step leaves in the variables [score],
    [totalTokenUsage], [scoreTokenUsage] and [scoreDurationUsage]. *)
Record Scored := {
  s_score : Z;
  s_total : Z;
  s_tokens : Z;
  s_millis : Z
}.

(** The scoring step, taken when the work model answered. *)
Definition scoreAnswer (testCase : TestCase) (answer : string)
    (task totalTasks : nat) (total : Z) : M Scored :=
  onProgress (EvUpdate (Evaluating (tc_id testCase)) task totalTasks);;
  throwIfCancelled;;
  scoreResult ← safeModelCall (scoreModel config)
                  (userMessage (scoreMessage testCase answer));
  total' ← addTokenUsage scoreResult total;
  score ←
    (if success scoreResult
     then mret (parseScore (default "" (content scoreResult)))
     else onProgress (EvLog (ScoringFailed (tc_id testCase)));; mret 0%Z);
  mret {| s_score := score; s_total := total';
          s_tokens := tokensOf scoreResult;
          s_millis := millisOf scoreResult |}.

(** The first half of the body of [for (const testCase of
    config.testCases)]: retrieval and the call of the work model. *)
Definition answerQuestion (loop totalTasks : nat) (testCase : TestCase)
    (s : Locals) : M (Retrieval * SafeCallResult) :=
  let task1 := S (currentTask s) in
  onProgress (EvUpdate (Answering (tc_id testCase)) task1 totalTasks);;
  onProgress (EvLog (Retrieving (tc_id testCase)));;
  r ← retrieve testCase;
  throwIfCancelled;;
  disk (AppendToLogFile loop (questionLog testCase));;
  workResult ← safeModelCall (workModel config)
                 (userMessage (augmentedPrompt r));
  mret (r, workResult).

(** [modelAnswer] after the work call; when the call succeeded its
    [content] is set. *)
Definition answerOf (workResult : SafeCallResult) : string :=
  if success workResult then default "" (content workResult)
  else PLACEHOLDER_ANSWER.

(** The second half: accounting, scoring and the result entry, which comes
    with the new [totalTokenUsage]. *)
Definition recordAnswer (loop totalTasks : nat) (testCase : TestCase)
    (s : Locals) (r : Retrieval) (workResult : SafeCallResult)
    : M (ResultEntry * Z) :=
  total1 ← addTokenUsage workResult (totalTokenUsage s);
  (if success workResult then mret tt
   else onProgress (EvLog (AnswerFailed (tc_id testCase))));;
  let answer := answerOf workResult in
  disk (AppendToLogFile loop (answerLog answer));;
  onProgress (EvAnswer (tc_id testCase) (tc_question testCase) answer);;
  let task2 := S (S (currentTask s)) in
  scored ←
    (if success workResult
     then scoreAnswer testCase answer task2 totalTasks total1
     else mret {| s_score := 0; s_total := total1; s_tokens := 0;
                  s_millis := 0 |});
  onProgress (EvScore (s_score scored) (tc_score testCase));;
  mret ({| entry_id := tc_id testCase;
           entry_tag := tc_tag testCase;
           entry_source := tc_source testCase;
           entry_question := tc_question testCase;
           standardAnswer := tc_answer testCase;
           modelAnswer := answer;
           maxScore := tc_score testCase;
           entry_score := s_score scored;
           workTokenUsage := tokensOf workResult;
           workDurationUsage := millisOf workResult;
           scoreTokenUsage := s_tokens scored;
           scoreDurationUsage := s_millis scored;
           dbQueryDuration := r_dbQueryDuration r;
           rerankDuration := r_rerankDuration r;
           databaseName := r_databaseName r;
           embeddingModelName := r_embeddingModelName r;
           rerankModelName := r_rerankModelName r;
           entry_error := error workResult |},
        s_total scored).

(** The body of [for (const testCase of config.testCases)]: the two halves,
    then [qaResults.push], the write of [results.json] and the pause. *)
Definition runTestCase (loop totalTasks : nat) (testCase : TestCase)
    (s : Locals) : M Locals :=
  answered ← answerQuestion loop totalTasks testCase s;
  recorded ← recordAnswer loop totalTasks testCase s answered.1 answered.2;
  let qaResults' := (qaResults s ++ [recorded.1])%list in
  disk (WriteResults loop qaResults');;
  sleep 1500;;
  mret {| currentTask := S (S (currentTask s));
          totalTokenUsage := recorded.2;
          qaResults := qaResults' |}.

(** *** The run *)

(** The body of [for (let loop = 1; loop <= loopCount; loop++)], on the
    pair of [currentTask] and [totalTokenUsage]. *)
Definition runLoop (totalTasks loop : nat) (counters : nat * Z) : M (nat * Z) :=
  throwIfCancelled;;
  disk (MkdirLoop loop);;
  disk (EnsureLogFile loop);;
  s ← forEach (runTestCase loop totalTasks) (testCases config)
        {| currentTask := counters.1; totalTokenUsage := counters.2;
           qaResults := [] |};
  mret (currentTask s, totalTokenUsage s).

Definition runTask : M unit :=
  let totalTasks := (length (testCases config) * 2) * loopCount config in
  onProgress (EvLog (LoadingProject (projectName config)));;
  forEach (runLoop totalTasks) (seq 1 (loopCount config)) (0, 0%Z);;
  mret tt.

(** The [try] block of the [start] callback of the stream [POST]
    returns. *)
Definition tryBlock : M unit :=
  disk MkdirBase;;
  sendEvent (EvLog (ResultDirCreated (getTimestamp H)));;
  runTask;;
  c ← isCancelled;
  if c : bool then mret tt else sendEvent (EvDone "所有任务已成功完成。").

(** Its [catch] block. *)
Definition catchBlock (message : string) : M unit :=
  if String.eqb message CANCELLED
  then sendEvent (EvError "任务已被用户取消。")
  else sendEvent (EvError (if String.eqb message "" then "发生未知错误"
                           else message)).

(** The [start] callback: [try], [catch] and, in [finally], the call of
    [controller.close()].  What [POST] returns is what [start] returns
    when that call succeeds; on a stream its consumer has cancelled the
    call throws and [start] rejects, with the same history. *)
Definition POST : M unit :=
  tryCatch tryBlock catchBlock;;
  act CloseStream.

(** The run from its start up to the point where the first [k] test cases
    of loop [loop] are done: [POST] and [runTask] up to there. *)
Definition reachCase (loop k : nat) : M Locals :=
  let totalTasks := (length (testCases config) * 2) * loopCount config in
  disk MkdirBase;;
  sendEvent (EvLog (ResultDirCreated (getTimestamp H)));;
  onProgress (EvLog (LoadingProject (projectName config)));;
  counters ← forEach (runLoop totalTasks) (seq 1 (loop - 1)) (0, 0%Z);
  throwIfCancelled;;
  disk (MkdirLoop loop);;
  disk (EnsureLogFile loop);;
  forEach (runTestCase loop totalTasks) (take k (testCases config))
    {| currentTask := counters.1; totalTokenUsage := counters.2;
       qaResults := [] |}.

End WithConfig.

End WithHost.

(** *** Reading a history *)

(** The frames the run has sent, oldest first: what [sendEvent] has
    handed to [controller.enqueue]. *)
Definition streamOf (h : list Action) : list Event :=
  omap (fun a => match a with Enqueue e => Some e | _ => None end) h.

(** The frames the stream has taken.  [controller.enqueue] throws on a
    stream its consumer has cancelled; [sendEvent] catches that (lines
    85-89), so the frame is dropped and the run goes on as it would have.
    With a consumer that cancels after [n] actions of the run, the stream
    has taken the frames sent by then; with a consumer that reads to the
    end ([None]), all of them.  On a cancelled stream the call of
    [controller.close()] throws as well, out of the [finally] block, with
    nothing left to run after it. *)
Definition onStream (cancelledAfter : option nat) (h : list Action)
    : list Event :=
  match cancelledAfter with
  | Some n => streamOf (take n h)
  | None => streamOf h
  end.

(** The content of [<loop>/results.json]: what the last write left. *)
Definition resultsFile (h : list Action) (loop : nat)
    : option (list ResultEntry) :=
  last (omap (fun a => match a with
                       | WriteResults l es =>
                           if (l =? loop)%nat then Some es else None
                       | _ => None
                       end) h).


(** How many test cases the current loop has announced ("answering
    question ..."). *)
Definition startedCases (h : list Action) : nat :=
  fold_left (fun n a => match a with
                        | MkdirLoop _ => 0
                        | Enqueue (EvUpdate (Answering _) _ _) => S n
                        | _ => n
                        end) h 0.


(** *** Notions for the statements and their proofs *)

Open Scope list_scope.

(** [adds P c]: running [c] appends to the history, and only actions that
    satisfy [P]; time does not go back. *)
Definition adds (P : Action -> Prop) {A} (c : M A) : Prop :=
  forall w, exists seg,
    history (c w).2 = history w ++ seg /\ ticks w <= ticks (c w).2
    /\ Forall P seg.


(** The actions that occur inside a test case, between the frame that
    announces it and the write of the results file. *)
Definition inner (a : Action) : Prop :=
  match a with
  | Enqueue (EvLog _) | Enqueue (EvUpdate (Evaluating _) _ _)
  | Enqueue (EvAnswer _ _ _) | Enqueue (EvScore _ _)
  | Enqueue (EvTokenUsage _) => True
  | AppendToLogFile _ _ | SetTimeout _ | GetDbInstance _ _
  | QueryDocuments _ _ | RerankRequest _ _ _ | HandleChat _ _ => True
  | _ => False
  end.

(** The actions that change neither the loop, nor a results file, nor the
    number of test cases announced. *)
Definition silent (a : Action) : Prop :=
  match a with
  | MkdirLoop _ | WriteResults _ _ | Enqueue (EvUpdate (Answering _) _ _) => False
  | _ => True
  end.

(** Actions of a run that is under way: no closing frame, and writes only
    to the results files of loops below [bound]. *)
Definition ordinary (bound : nat) (a : Action) : Prop :=
  match a with
  | Enqueue (EvDone _) | Enqueue (EvError _) | CloseStream => False
  | WriteResults l _ => l < bound
  | _ => True
  end.

(** The three ways a test case can go: it finds the run cancelled before
    it announces itself; it announces itself and throws before its entry
    is written; it announces itself, writes the results file with its
    entry at the end, and pauses. *)
Inductive CaseRun (H : Host) (loop total : nat) (tc : TestCase) (s : Locals)
    (w : World) : Result Locals * World -> Prop :=
  | case_cancelled :
      aborted H w = true ->
      CaseRun H loop total tc s w (Threw CANCELLED, w)
  | case_threw e w' seg :
      aborted H w = false ->
      history w' = history w
        ++ Enqueue (EvUpdate (Answering (tc_id tc)) (S (currentTask s)) total)
        :: seg ->
      Forall inner seg -> ticks w <= ticks w' ->
      CaseRun H loop total tc s w (Threw e, w')
  | case_written w' seg entry total' :
      aborted H w = false ->
      history w' = history w
        ++ Enqueue (EvUpdate (Answering (tc_id tc)) (S (currentTask s)) total)
        :: seg
        ++ [WriteResults loop (qaResults s ++ [entry]); SetTimeout 1500] ->
      Forall inner seg -> ticks w <= ticks w' ->
      entry_id entry = tc_id tc ->
      CaseRun H loop total tc s w
        (Returned {| currentTask := S (S (currentTask s));
                     totalTokenUsage := total';
                     qaResults := qaResults s ++ [entry] |}, w').

(** A monitor for the results file: it follows the history and keeps the
    loop the run is in, the content of its results file, and whether a
    test case has been announced whose entry is not yet written. *)
Record Mon := {
  m_loop : option nat;
  m_file : list ResultEntry;
  m_inflight : bool
}.


Inductive mstep (cases : list TestCase) : Mon -> Action -> Mon -> Prop :=
  | mstep_loop m l :
      m_inflight m = false ->
      (forall l0, m_loop m = Some l0 -> l0 < l) ->
      mstep cases m (MkdirLoop l)
            {| m_loop := Some l; m_file := []; m_inflight := false |}
  | mstep_start m l tc a b :
      m_loop m = Some l -> m_inflight m = false ->
      cases !! length (m_file m) = Some tc ->
      mstep cases m (Enqueue (EvUpdate (Answering (tc_id tc)) a b))
            {| m_loop := Some l; m_file := m_file m; m_inflight := true |}
  | mstep_write m l tc e :
      m_loop m = Some l -> m_inflight m = true ->
      cases !! length (m_file m) = Some tc -> entry_id e = tc_id tc ->
      mstep cases m (WriteResults l (m_file m ++ [e]))
            {| m_loop := Some l; m_file := m_file m ++ [e];
               m_inflight := false |}
  | mstep_silent m a : silent a -> mstep cases m a m.

(** [runs cases m seg m']: the monitor accepts the actions [seg] from
    [m]. *)
Inductive runs (cases : list TestCase) : Mon -> list Action -> Mon -> Prop :=
  | runs_nil m : runs cases m [] m
  | runs_cons m a m1 seg m2 :
      mstep cases m a m1 -> runs cases m1 seg m2 ->
      runs cases m (a :: seg) m2.


(** [tracked cases c m post]: from the monitor state [m], the monitor
    accepts whatever [c] adds to the history, and ends in a state that
    satisfies [post] together with the result of [c]. *)
Definition tracked (cases : list TestCase) {A} (c : M A) (m : Mon)
    (post : Mon -> Result A -> Prop) : Prop :=
  forall w, exists seg m',
    history (c w).2 = history w ++ seg /\ runs cases m seg m'
    /\ post m' (c w).1.


(** Before loop [loop] starts: no case in flight, and any earlier loop has
    a smaller number. *)
Definition before (loop : nat) (m : Mon) : Prop :=
  m_inflight m = false /\ forall l0, m_loop m = Some l0 -> l0 < loop.


(** The two kinds of value [safeModelCall] returns. *)
Definition succeeded (r : NonStreamingResult) : SafeCallResult :=
  {| success := true; content := Some (nsr_content r);
     tokenUsage := Some (usage r); durationUsage := duration r;
     error := None |}.

Definition failedWith (e : string) : SafeCallResult :=
  {| success := false; content := None; tokenUsage := None;
     durationUsage := None; error := Some e |}.

Definition lastFailure (o : Result (option NonStreamingResult)) : string :=
  match o with
  | Threw e =>
      if String.eqb e "" then "A critical error occurred during model call"%string
      else e
  | _ => "Model call succeeded but returned unexpected format."%string
  end.

(** The history of a call with [k] retries. *)
Fixpoint attempts (call : Action) (k : nat) : list Action :=
  match k with
  | O => [call]
  | S k' => attempts call k' ++ [SetTimeout 2000; call]
  end.

(** The frame the [catch] block sends for a cancelled run. *)
Definition CANCELLED_FRAME : Event := EvError "任务已被用户取消。".

(** *** Scenarios *)

Definition caseNumber (n : Z) : TestCase :=
  {| tc_id := n; tc_tag := "tag"; tc_source := "manual";
     tc_question := ("question " +:+ pretty n)%string;
     tc_answer := "reference"; tc_score := 10 |}.

(** A run of one loop over five test cases. *)
Definition fiveCases : Config :=
  {| projectName := "demo"; databaseType := Some "CHROMA"%string;
     embeddingModel := Some "bge-m3"%string; rerankerModel := None;
     workModel := "ollama:work"; scoreModel := "ollama:judge";
     loopCount := 1; testCases := map caseNumber [1; 2; 3; 4; 5]%Z |}.

Definition rawDocument (text : string) : Similarity.Document :=
  {| Similarity.id := text; Similarity.content := text;
     Similarity.metadata := []; Similarity.similarity := Some 0.5%float |}.

Definition reply (text : string) : Result (option NonStreamingResult) :=
  Returned (Some {| nsr_content := text;
                    usage := {| total_tokens := 5; prompt_tokens := 2;
                                completion_tokens := 3 |};
                    duration := None |}).

(** Everything works; the client aborts at tick [abort], if at all. *)
Definition healthyHost (abort : option nat) : Host :=
  {| abortAt := abort; DATABASE_TYPE := None;
     getTimestamp := "250101_000000";
     performanceNow := fun t => Z.of_nat t;
     diskError := fun _ => None;
     getDbInstance := fun _ _ _ => None;
     queryDocuments := fun _ _ _ =>
       Returned [rawDocument "first"; rawDocument "second"];
     rerankService := fun _ _ documents _ =>
       Returned (map (fun d => {| rr_index := ri_index d;
                                  rr_content := ri_content d;
                                  rr_score := 1%float |}) documents);
     handleChat := fun _ _ _ => reply "7" |}.


Definition oneCase : Config :=
  {| projectName := "demo"; databaseType := Some "CHROMA"%string;
     embeddingModel := Some "bge-m3"%string; rerankerModel := None;
     workModel := "ollama:work"; scoreModel := "ollama:judge";
     loopCount := 1; testCases := [caseNumber 1] |}.

(** The five-case run whose client aborts while the second test case
    pauses after its write (tick 21): where the run stands when it comes
    to the third test case. *)
Definition twoDone : Result Locals * World :=
  reachCase (healthyHost (Some 21)) fiveCases 1 2 initialWorld.

Definition noLocals : Locals :=
  {| currentTask := 0; totalTokenUsage := 0; qaResults := [] |}.

Definition twoDoneLocals : Locals :=
  match twoDone.1 with
  | Returned s => s
  | Threw _ => noLocals
  end.

(** The histories of three whole runs: the one cancelled at tick 21, one
    nobody cancels, and the single test case whose scoring model is
    down. *)
Definition cancelledRun : list Action :=
  history (POST (healthyHost (Some 21)) fiveCases initialWorld).2.



End Orchestrator.

(** ** The chat service ([lib/llm/model-service.ts])

    Model identifiers are strings of the form [provider:model].  A string
    is a Rocq string here, the bytes of its UTF-8 form: the colon is one
    byte that occurs in no other character, and [parseModelSelection]
    compares the index of the first colon with 0 and with the last index
    only, so bytes and UTF-16 code units give the same cut. *)

Module ModelService.
Open Scope string_scope.

(** The double quote, which [provider:model] is quoted with in the
    message of the [TypeError]. *)
Definition QUOTE : string := String (ascii_of_nat 34) EmptyString.

(** [s.indexOf(':')]; [None] stands for [-1]. *)
Fixpoint indexOfColon (s : string) : option nat :=
  match s with
  | EmptyString => None
  | String c rest =>
      if Ascii.eqb c ":"%char then Some 0
      else option_map S (indexOfColon rest)
  end.

Record ModelSelection := { provider : string; model : string }.

Definition EMPTY_SELECTION : string :=
  "Invalid selectedModel format. Value cannot be empty.".

Definition badSelection (selectedValue : string) : string :=
  "Invalid selectedModel format. Expected " +:+ QUOTE +:+ "provider:model"
  +:+ QUOTE +:+ ", but received " +:+ QUOTE +:+ selectedValue +:+ QUOTE
  +:+ ".".

Definition parseModelSelection (selectedValue : string)
    : Result ModelSelection :=
  if String.eqb selectedValue "" then Threw EMPTY_SELECTION
  else
    match indexOfColon selectedValue with
    | None => Threw (badSelection selectedValue)
    | Some firstColonIndex =>
        if (firstColonIndex =? 0)%nat
           || (firstColonIndex =? String.length selectedValue - 1)%nat
        then Threw (badSelection selectedValue)
        else
          Returned
            {| provider := String.substring 0 firstColonIndex selectedValue;
               model :=
                 String.substring (S firstColonIndex)
                   (String.length selectedValue - S firstColonIndex)
                   selectedValue |}
    end.

(** What [handleChat] gets from the provider it builds: the outcome of
    [getProviderConfig], of the constructor of [VercelAIProvider] and of
    [generateNonStreaming], whose [content] and [usage] may be missing. *)
Record ProviderResponse := {
  pr_content : option string;
  pr_usage : option Orchestrator.TokenUsage;
  pr_duration : option Orchestrator.DurationUsage
}.

(** [handleChat] with [options.stream === false], the way [safeModelCall]
    calls it.  [generate provider model] stands for the three steps
    above. *)
Definition handleChat
    (generate : string -> string -> Result ProviderResponse)
    (selectedModel : string) : Result Orchestrator.NonStreamingResult :=
  match parseModelSelection selectedModel with
  | Threw e => Threw e
  | Returned selection =>
      match generate (provider selection) (model selection) with
      | Threw e => Threw e
      | Returned result =>
          Returned
            {| Orchestrator.nsr_content :=
                 match pr_content result with
                 | Some c => c
                 | None => ""
                 end;
               Orchestrator.usage :=
                 match pr_usage result with
                 | Some u => u
                 | None =>
                     {| Orchestrator.prompt_tokens := 0;
                        Orchestrator.completion_tokens := 0;
                        Orchestrator.total_tokens := 0 |}
                 end;
               Orchestrator.duration := pr_duration result |}
      end
  end.

(** [handleChat] as a run of [runTask] calls it: [generate t messages] is
    what the provider does with a call made at tick [t]. *)
Definition chatOf
    (generate :
       nat -> list Orchestrator.ChatMessage -> string -> string
       -> Result ProviderResponse)
    (t : nat) (selectedModel : string)
    (messages : list Orchestrator.ChatMessage)
    : Result (option Orchestrator.NonStreamingResult) :=
  match handleChat (generate t messages) selectedModel with
  | Returned r => Returned (Some r)
  | Threw e => Threw e
  end.

(** A provider that answers every call, behind the [handleChat] above. *)
Definition sevens (t : nat) (messages : list Orchestrator.ChatMessage)
    (provider model : string) : Result ProviderResponse :=
  Returned {| pr_content := Some "7"; pr_usage := None;
              pr_duration := None |}.

Definition answering : Orchestrator.Host :=
  {| Orchestrator.abortAt := None; Orchestrator.DATABASE_TYPE := None;
     Orchestrator.getTimestamp := "250101_000000";
     Orchestrator.performanceNow := fun t => Z.of_nat t;
     Orchestrator.diskError := fun _ => None;
     Orchestrator.getDbInstance := fun _ _ _ => None;
     Orchestrator.queryDocuments := fun _ _ _ => Returned [];
     Orchestrator.rerankService := fun _ _ _ _ => Returned [];
     Orchestrator.handleChat :=
       chatOf sevens |}.

End ModelService.

(** ** The earlier vector-store factory ([src/lib/db/index.ts])

    A singleton: one module variable [dbInstance], assigned as soon as the
    object is constructed, before [init()] is awaited.  The type comes
    from the environment alone and the constructors take no argument. *)

Module DbFactoryV1.
Import DbFactory.

Record State := {
  dbInstance : option DataAccess;
  allocated : nat;
  initCalls : list nat
}.

Definition emptyState : State :=
  {| dbInstance := None; allocated := 0; initCalls := [] |}.

(** The [switch (dbType)]; [undefined] is printed as such in the
    message. *)
Definition backendOfType (dbType : option string) : Result Backend :=
  let name := default "undefined"%string dbType in
  if match dbType with
     | Some t => String.eqb t "POSTGRES"
     | None => false
     end
  then Returned PostgresDB
  else if match dbType with
          | Some t => String.eqb t "CHROMA"
          | None => false
          end
  then Returned ChromaDB
  else Threw ("Unsupported DATABASE_TYPE: " +:+ name
              +:+ ". Check your .env config.").

Definition getDbInstance (P : Process) (st : State)
    : Result DataAccess * State :=
  match dbInstance st with
  | Some cached => (Returned cached, st)
  | None =>
      match backendOfType (DATABASE_TYPE P) with
      | Threw e => (Threw e, st)
      | Returned b =>
          match constructorError P b None with
          | Some e => (Threw e, st)
          | None =>
              let newInstance :=
                {| instanceId := allocated st; backendOf := b;
                   constructorArg := None |} in
              let st1 :=
                {| dbInstance := Some newInstance;
                   allocated := S (allocated st);
                   initCalls := initCalls st ++ [allocated st] |} in
              match initError P (allocated st) with
              | Some e => (Threw e, st1)
              | None => (Returned newInstance, st1)
              end
          end
      end
  end.

End DbFactoryV1.

(** ** More on the vector-store factory *)

Module DbFactoryMore.
Import DbFactory.


(** A process whose first [init()] throws and whose later ones return. *)
Definition flakyProcess : Process :=
  {| DATABASE_TYPE := Some "CHROMA"%string;
     EMBEDDING_MODEL_TYPE := Some "bge-m3"%string;
     constructorError := fun _ _ => None;
     initError := fun n => if (n =? 0)%nat then Some "connection refused"%string
                           else None |}.

(** The pool after one resolution, for [CHROMA] and a model whose name
    holds a hyphen. *)
Definition hyphenState : State :=
  (getDbInstance quietProcess (Some "CHROMA"%string) (Some "all-minilm"%string)
     emptyState).2.

(** Does the string hold a hyphen? *)
Fixpoint hasHyphen (s : string) : bool :=
  match s with
  | EmptyString => false
  | String c rest => Ascii.eqb c "-" || hasHyphen rest
  end.

End DbFactoryMore.

(** ** Fixed-length chunking ([chunkText] of [src/lib/db/pg/index.ts])

    The splitter the relational back end used before [universalChunker]:
    windows of [chunkSize] code units that advance by
    [chunkSize - overlap]. *)

Module ChunkText.
Import JsString.

(** [s.slice(start, end)] on integers: a negative index counts from the
    end. *)
Definition slice (s : jsstring) (start finish : Z) : jsstring :=
  let len := Z.of_nat (length s) in
  let from := if (start <? 0)%Z then Z.max (len + start) 0
              else Z.min start len in
  let to := if (finish <? 0)%Z then Z.max (len + finish) 0
            else Z.min finish len in
  firstn (Z.to_nat (to - from)) (skipn (Z.to_nat from) s).

(** The loop [while (i < text.length)], from the value [i] on, for at
    most [fuel] iterations; [None] when the loop has not ended by then. *)
Fixpoint chunkTextFrom (fuel : nat) (text : jsstring)
    (chunkSize overlap i : Z) : option (list jsstring) :=
  match fuel with
  | O => None
  | S fuel' =>
      let len := Z.of_nat (length text) in
      if (i <? len)%Z then
        let finish := Z.min (i + chunkSize) len in
        let chunk := slice text i finish in
        if (finish =? len)%Z then Some [chunk]
        else
          option_map (cons chunk)
            (chunkTextFrom fuel' text chunkSize overlap
               (i + (chunkSize - overlap)))
      else Some []
  end.

Definition chunkText (fuel : nat) (text : jsstring) (chunkSize overlap : Z)
    : option (list jsstring) :=
  chunkTextFrom fuel text chunkSize overlap 0.

(** The default parameters. *)
Definition CHUNK_SIZE : Z := 2000.
Definition OVERLAP : Z := 400.

(** The text the chunks were cut from: the first chunk, then every other
    chunk without its first [overlap] code units. *)
Definition rejoin (overlap : nat) (chunks : list jsstring) : jsstring :=
  match chunks with
  | [] => []
  | c0 :: tl => c0 ++ flat_map (drop overlap) tl
  end.

(** A text of twelve code units for examples. *)
Definition twelveLetters : jsstring := u16 "abcdefghijkl".

End ChunkText.

(** ** Seeding the Chroma back end ([ChromaDB.seed] of
    [src/lib/db/chroma/index.ts]) *)

Module ChromaSeed.
Import JsString.

(** An entry of the collection: what [collection.add] was given for it.
    The vector is computed by the collection's embedding function and
    plays no part here. *)
Record Entry := {
  entry_id : string;
  document : jsstring;
  fileName : string;
  chunkNumber : nat
}.

(** The object: whether [this.collection] is set, what the collection
    holds, and how many identifiers [uuidv4] has issued. *)
Record State := {
  collectionSet : bool;
  collection : list Entry;
  issued : nat
}.

(** What lies outside the class: the file system, [path], the splitter of
    the chunker, [uuidv4], and whether [collection.add] throws on a batch
    (when the embedding service fails, say). *)
Record Host := {
  readdir : string -> Result (list string);
  readFile : string -> Result jsstring;
  extname : string -> string;
  join : string -> string -> string;
  splitText : nat -> nat -> jsstring -> list jsstring;
  uuidv4 : nat -> string;
  addError : list jsstring -> option string
}.

Section WithHost.

Variable H : Host.

(** [chunks.map((_, index) => ({fileName, chunkNumber: index + 1}))],
    [chunks.map(() => uuidv4())] and the batch given to
    [collection.add]. *)
Definition batchOf (name : string) (chunks : list jsstring) (first : nat)
    : list Entry :=
  imap (fun index chunk =>
          {| entry_id := uuidv4 H (first + index); document := chunk;
             fileName := name; chunkNumber := index + 1 |})
       chunks.

(** [for (const fileName of files)]. *)
Fixpoint seedFiles (directoryPath : string) (files : list string)
    (st : State) : Result unit * State :=
  match files with
  | [] => (Returned tt, st)
  | name :: rest =>
      if negb (String.eqb (extname H name) ".txt")
      then seedFiles directoryPath rest st
      else
        match readFile H (join H directoryPath name) with
        | Threw e => (Threw e, st)
        | Returned content =>
            let chunks := Chunker.universalChunker (splitText H) content in
            if (length chunks =? 0)%nat then seedFiles directoryPath rest st
            else
              let issued' := issued st + length chunks in
              match addError H chunks with
              | Some e =>
                  (Threw e,
                   {| collectionSet := collectionSet st;
                      collection := collection st; issued := issued' |})
              | None =>
                  seedFiles directoryPath rest
                    {| collectionSet := collectionSet st;
                       collection :=
                         collection st ++ batchOf name chunks (issued st);
                       issued := issued' |}
              end
        end
  end.

Definition seed (directoryPath : string) (st : State) : Result unit * State :=
  if negb (collectionSet st)
  then (Threw "ChromaDB collection is not initialized. Run migrate first.",
        st)
  else
    match readdir H directoryPath with
    | Threw e => (Threw e, st)
    | Returned files => seedFiles directoryPath files st
    end.

(** What a complete seeding of the directory adds, identifiers apart: for
    each [.txt] file, in the order of the directory, its chunks with
    their numbers. *)
Definition payloadOf (e : Entry) : jsstring * string * nat :=
  (document e, fileName e, chunkNumber e).

Fixpoint expected (directoryPath : string) (files : list string)
    : list (jsstring * string * nat) :=
  match files with
  | [] => []
  | name :: rest =>
      (if String.eqb (extname H name) ".txt" then
         match readFile H (join H directoryPath name) with
         | Returned content =>
             imap (fun index chunk => (chunk, name, index + 1))
                  (Chunker.universalChunker (splitText H) content)
         | Threw _ => []
         end
       else [])
      ++ expected directoryPath rest
  end.

End WithHost.

End ChromaSeed.

(** ** More on the orchestrator: notions for further properties *)

Module OrchestratorMore.
Import Orchestrator.
Open Scope list_scope.

(** A property of actions that holds of everything a test case does
    apart from its two [update] frames and the write of the results
    file. *)
Record Allows (P : Action -> Prop) : Prop := {
  allows_log : forall m, P (Enqueue (EvLog m));
  allows_answer : forall i q a, P (Enqueue (EvAnswer i q a));
  allows_score : forall s m, P (Enqueue (EvScore s m));
  allows_tokens : forall t, P (Enqueue (EvTokenUsage t));
  allows_append : forall l t, P (AppendToLogFile l t);
  allows_timeout : forall ms, P (SetTimeout ms);
  allows_connect : forall t m, P (GetDbInstance t m);
  allows_query : forall q k, P (QueryDocuments q k);
  allows_rerank : forall q d m, P (RerankRequest q d m);
  allows_chat : forall m ms, P (HandleChat m ms)
}.

(** [addsTo P Q c]: running [c] appends to the history only actions that
    satisfy [P], and what it returns satisfies [Q]. *)
Definition addsTo (P : Action -> Prop) {A} (Q : A -> Prop) (c : M A) : Prop :=
  forall w, exists seg,
    history (c w).2 = history w ++ seg /\ ticks w <= ticks (c w).2
    /\ Forall P seg
    /\ forall a, (c w).1 = Returned a -> Q a.

(** An [update] frame whose task number lies between 1 and [bound] and
    whose total is [total]; any other action. *)
Definition within (total bound : nat) (a : Action) : Prop :=
  match a with
  | Enqueue (EvUpdate _ currentTask totalTasks) =>
      1 <= currentTask <= bound /\ totalTasks = total
  | _ => True
  end.

(** The progress an [update] frame reports, [currentTask / totalTasks],
    is at most 1, that is 100%. *)
Definition progressWithin (total : nat) (e : Event) : Prop :=
  match e with
  | EvUpdate _ currentTask totalTasks =>
      1 <= currentTask <= totalTasks /\ totalTasks = total
  | _ => True
  end.

(** What a run does before it ends: it sends no [done] frame and no
    [error] frame, and does not call [controller.close()]. *)
Definition quiet (a : Action) : Prop :=
  match a with
  | Enqueue (EvDone _) | Enqueue (EvError _) | CloseStream => False
  | _ => True
  end.

(** The frames that end a stream: [done] and [error]. *)
Definition closing (e : Event) : bool :=
  match e with
  | EvDone _ | EvError _ => true
  | _ => false
  end.

(** How the [try] block of [POST] ends: by a throw after quiet actions;
    by a return after quiet actions, which needs the abort signal; or by
    a return with the [done] frame as its last action. *)
Definition endsQuietOrDone (H : Host) (c : M unit) : Prop :=
  forall w, exists seg,
    history (c w).2 = history w ++ seg
    /\ match (c w).1 with
       | Threw _ => Forall quiet seg
       | Returned _ =>
           (Forall quiet seg /\ abortAt H <> None)
           \/ exists body,
                seg = body ++ [Enqueue (EvDone "所有任务已成功完成。")]
                /\ Forall quiet body
       end.

(** An action that leaves the results file of [loop] as it is. *)
Definition keeps (loop : nat) (a : Action) : Prop :=
  match a with
  | WriteResults l _ => l <> loop
  | _ => True
  end.

(** The frame that ends a run nobody cancelled. *)
Definition DONE : Action := Enqueue (EvDone "所有任务已成功完成。").

(** Does the text hold a decimal digit; does it start with one? *)
Fixpoint hasDigit (s : string) : bool :=
  match s with
  | EmptyString => false
  | String c rest => isDigit c || hasDigit rest
  end.

Definition startsWithDigit (s : string) : bool :=
  match s with
  | EmptyString => false
  | String c _ => isDigit c
  end.

(** One step of [parseInt] over the digits [parseScore] has found. *)
Definition digitValue (acc : Z) (c : ascii) : Z :=
  (acc * 10 + (Z.of_nat (nat_of_ascii c) - 48))%Z.

(** A host whose vector store answers every query with no document. *)
Definition emptyStoreHost : Host :=
  {| abortAt := None; DATABASE_TYPE := None;
     getTimestamp := "250101_000000";
     performanceNow := fun t => Z.of_nat t;
     diskError := fun _ => None;
     getDbInstance := fun _ _ _ => None;
     queryDocuments := fun _ _ _ => Returned [];
     rerankService := fun _ _ _ _ => Threw "unreachable";
     handleChat := fun _ _ _ => reply "7" |}.

End OrchestratorMore.

(** ** The test-case file ([app/api/test-cases], [src/unnamed/part_011])

    [template/questions/test_cases.json] holds the test cases a run is
    configured with.  [POST] reads the array, applies one action and
    writes the array back. *)

Module TestCases.
Open Scope string_scope.

(** An item of the array; a field that is [undefined] is left out by
    [JSON.stringify]. *)
Record Question := {
  q_id : Z;
  q_tag : string;
  q_source : option string;
  q_question : option string;
  q_answer : option string;
  q_score : Z
}.

(** The body of the request. *)
Record Request := {
  action : option string;
  req_id : option Z;
  req_question : option string;
  req_answer : option string;
  req_score : option Z;
  req_tag : option string;
  req_source : option string
}.

(** [score || 10] and [tag || ""]. *)
Definition scoreOr10 (score : option Z) : Z :=
  match score with
  | Some s => if (s =? 0)%Z then 10%Z else s
  | None => 10%Z
  end.

Definition tagOrEmpty (tag : option string) : string :=
  match tag with Some t => t | None => "" end.

(** [Math.max(...ids)] of a list that is not empty. *)
Definition maxId (first : Z) (others : list Z) : Z :=
  fold_left Z.max others first.

(** [questions.length > 0 ? Math.max(...questions.map(c => c.id)) + 1 : 1]. *)
Definition newId (questions : list Question) : Z :=
  match map q_id questions with
  | [] => 1%Z
  | first :: others => (maxId first others + 1)%Z
  end.

(** The identifiers are JSON numbers; the model takes them as integers,
    which is what [+ 1] computes on the safe integers of a double. *)
Definition safeIds (questions : list Question) : Prop :=
  Forall (fun item => (- 2 ^ 53 < q_id item < 2 ^ 53)%Z) questions.

(** [item.id === id]; an [id] the request does not give equals none. *)
Definition hasId (id : option Z) (item : Question) : bool :=
  match id with
  | Some i => (q_id item =? i)%Z
  | None => false
  end.

(** The [switch (action)]: the array that is written back, or the answer
    400 for an action that is none of the three, with nothing written. *)
Definition applyAction (r : Request) (questions : list Question)
    : Result (list Question) :=
  let action := default "" (action r) in
  if String.eqb action "add" then
    Returned
      (questions
       ++ [{| q_id := newId questions; q_tag := tagOrEmpty (req_tag r);
              q_source := Some "用户自定义";
              q_question := req_question r; q_answer := req_answer r;
              q_score := scoreOr10 (req_score r) |}])%list
  else if String.eqb action "edit" then
    Returned
      (map (fun item =>
              if hasId (req_id r) item then
                {| q_id := q_id item; q_tag := tagOrEmpty (req_tag r);
                   q_source := req_source r;
                   q_question := req_question r;
                   q_answer := req_answer r;
                   q_score := scoreOr10 (req_score r) |}
              else item)
           questions)
  else if String.eqb action "delete" then
    Returned (List.filter (fun item => negb (hasId (req_id r) item)) questions)
  else Threw "Invalid action".

(** The three requests. *)
Definition addRequest (question answer : string) : Request :=
  {| action := Some "add"; req_id := None; req_question := Some question;
     req_answer := Some answer; req_score := None; req_tag := None;
     req_source := None |}.

Definition deleteRequest (id : Z) : Request :=
  {| action := Some "delete"; req_id := Some id; req_question := None;
     req_answer := None; req_score := None; req_tag := None;
     req_source := None |}.

(** Two test cases for examples. *)
Definition twoQuestions : list Question :=
  [{| q_id := 3; q_tag := "a"; q_source := None;
      q_question := Some "first"; q_answer := Some "one"; q_score := 10 |};
   {| q_id := 7; q_tag := "b"; q_source := None;
      q_question := Some "second"; q_answer := Some "two"; q_score := 5 |}].

End TestCases.

(** ** Taking a model answer as the standard answer
    ([app/api/update-standard-answer], [src/unnamed/part_010]) *)

Module UpdateStandardAnswer.
Import Orchestrator.

(** [result.score = maxScore] on an entry of [results.json]. *)
Definition withScore (maxScore : Z) (e : ResultEntry) : ResultEntry :=
  {| entry_id := entry_id e; entry_tag := entry_tag e;
     entry_source := entry_source e; entry_question := entry_question e;
     standardAnswer := standardAnswer e; modelAnswer := modelAnswer e;
     maxScore := Orchestrator.maxScore e; entry_score := maxScore;
     workTokenUsage := workTokenUsage e;
     workDurationUsage := workDurationUsage e;
     scoreTokenUsage := scoreTokenUsage e;
     scoreDurationUsage := scoreDurationUsage e;
     dbQueryDuration := dbQueryDuration e; rerankDuration := rerankDuration e;
     databaseName := databaseName e;
     embeddingModelName := embeddingModelName e;
     rerankModelName := rerankModelName e; entry_error := entry_error e |}.

(** The [forEach] of [updateResultFile]: the array after it, and the flag
    [updated]. *)
Definition updateScores (questionId maxScore : Z) (results : list ResultEntry)
    : list ResultEntry * bool :=
  (map (fun result =>
          if (entry_id result =? questionId)%Z then withScore maxScore result
          else result)
       results,
   existsb (fun result => (entry_id result =? questionId)%Z) results).

(** [updateResultFile] on the content of the file: what the file holds
    afterwards, and whether it was written. *)
Definition updateResultFile (questionId maxScore : Z)
    (results : list ResultEntry) : list ResultEntry * bool :=
  let updated := updateScores questionId maxScore results in
  if updated.2 then (updated.1, true) else (results, false).

End UpdateStandardAnswer.

(** ** The clients of the tool servers ([lib/llm/tools/tool-client-manager.ts])

    One [ToolClient] per server, kept in the module-level map
    [toolClientInstances].  The class [ToolClient] is not part of the
    sources at hand: its constructor is taken to keep the URL it is given,
    and [constructorError] says whether it throws. *)

Module ToolClientManager.
Open Scope string_scope.

(** [serverUrl.replace(/\/+$/, '')]: the slashes at the end go. *)
Fixpoint stripSlashes (s : string) : string :=
  match s with
  | EmptyString => EmptyString
  | String c rest =>
      let rest' := stripSlashes rest in
      if Ascii.eqb c "/" && String.eqb rest' "" then "" else String c rest'
  end.

Record ToolClient := { baseUrl : string; clientId : nat }.

Record State := {
  toolClientInstances : gmap string ToolClient;
  made : nat
}.

Definition emptyState : State := {| toolClientInstances := ∅; made := 0 |}.

Definition NO_URL : string :=
  "A server URL must be provided to get a ToolClient instance.".

Definition getToolClientInstance (constructorError : string -> option string)
    (serverUrl : string) (st : State) : Result ToolClient * State :=
  if String.eqb serverUrl "" then (Threw NO_URL, st)
  else
    let normalizeServerUrl := stripSlashes serverUrl in
    match toolClientInstances st !! normalizeServerUrl with
    | Some instance => (Returned instance, st)
    | None =>
        match constructorError normalizeServerUrl with
        | Some e => (Threw e, st)
        | None =>
            let newInstance :=
              {| baseUrl := normalizeServerUrl; clientId := made st |} in
            (Returned newInstance,
             {| toolClientInstances :=
                  <[normalizeServerUrl := newInstance]>
                    (toolClientInstances st);
                made := S (made st) |})
        end
    end.

(** A string of slashes only. *)
Fixpoint allSlashes (s : string) : bool :=
  match s with
  | EmptyString => true
  | String c rest => Ascii.eqb c "/" && allSlashes rest
  end.

End ToolClientManager.

(** ** Retrying ([lib/db/utils.ts], [src/unnamed/part_004]) *)

Module DbUtils.

(** What [retryAsync] does: a call of [fn], a pause of [delay]
    milliseconds. *)
Inductive Step := Call | Pause (delay : Z).

Definition callsIn (log : list Step) : nat :=
  length (List.filter (fun s => match s with Call => true | _ => false end) log).

Section WithFn.

Context {T : Type}.

(** What [fn] does depends on how many calls came before. *)
Variable fn : nat -> Result T.

(** [retryAsync(fn, retries, delay)], with [retries] an integer; [fuel]
    bounds the depth of the recursion, and [None] says it was not
    enough. *)
Fixpoint retryAsync (fuel : nat) (retries delay : Z) (log : list Step)
    : option (Result T * list Step) :=
  match fuel with
  | O => None
  | S fuel' =>
      match fn (callsIn log) with
      | Returned value => Some (Returned value, log ++ [Call])
      | Threw error =>
          if (0 <? retries)%Z then
            retryAsync fuel' (retries - 1) delay (log ++ [Call; Pause delay])
          else Some (Threw error, log ++ [Call])
      end
  end.

End WithFn.

(** [k] failed attempts, each followed by its pause. *)
Fixpoint failures (delay : Z) (k : nat) : list Step :=
  match k with
  | O => []
  | S k' => Call :: Pause delay :: failures delay k'
  end.

(** An operation that fails twice and then gives 42. *)
Definition thirdTime (calls : nat) : Result Z :=
  if (calls <? 2)%nat then Threw "busy"%string else Returned 42%Z.

End DbUtils.

(** ** The Google file-search back end and the route that fills it
    ([GoogleFileSearch] of [src/unnamed/part_002],
    [app/api/vectorize-knowledge/route.ts])

    The cloud holds file-search stores; a store has the name the service
    gave it and the display name it was created with.  The files of a
    store are not modelled: [seed] uploads into the store and catches
    every error of a rename or an upload, so that it throws only when no
    store is linked or the directory cannot be read. *)

Module GoogleStore.
Open Scope string_scope.

Record Store := { store_name : string; store_displayName : string }.

(** The cloud: its stores, how many stores the service has created, and
    the time, which moves with every request. *)
Record Cloud := {
  stores : list Store;
  createdCount : nat;
  now : nat
}.

(** What lies outside: whether a listing, a deletion, a creation made at
    some time fails, the name the service gives its [n]-th store, whether
    the knowledge directory can be read, and the environment. *)
Record Host := {
  GOOGLE_API_KEY : option string;
  listFails : nat -> bool;
  deleteError : nat -> option string;
  createError : nat -> option string;
  newName : nat -> string;
  readdirError : string -> option string
}.

(** The object: [targetDisplayName] and [storeName]. *)
Record GoogleFileSearch := {
  targetDisplayName : string;
  storeName : option string
}.

(** [s || null]. *)
Definition orNull (s : string) : option string :=
  if String.eqb s "" then None else Some s.

Definition tick (c : Cloud) : Cloud :=
  {| stores := stores c; createdCount := createdCount c; now := S (now c) |}.

Section WithHost.

Variable H : Host.

(** [new GoogleFileSearch(displayName)]. *)
Definition construct (displayName : option string) : Result GoogleFileSearch :=
  match Orchestrator.truthy (GOOGLE_API_KEY H) with
  | None => Threw "使用 Google File Search 必须配置 GOOGLE_API_KEY"
  | Some _ =>
      match Orchestrator.truthy displayName with
      | None => Threw "初始化失败: Google File Search Store Name 不能为空。"
      | Some name =>
          Returned {| targetDisplayName := name; storeName := None |}
      end
  end.

(** [findStoreByName]: the name of the first store listed with the
    display name, [null] when there is none, when that name is empty, and
    when the listing throws. *)
Definition findStoreByName (displayName : string) (c : Cloud)
    : option string * Cloud :=
  if listFails H (now c) then (None, tick c)
  else
    match List.find (fun store =>
                       String.eqb (store_displayName store) displayName)
                    (stores c) with
    | Some store => (orNull (store_name store), tick c)
    | None => (None, tick c)
    end.

(** [init]: links the object to the store found, if any. *)
Definition init (db : GoogleFileSearch) (c : Cloud)
    : GoogleFileSearch * Cloud :=
  let found := findStoreByName (targetDisplayName db) c in
  match found.1 with
  | Some existingId =>
      ({| targetDisplayName := targetDisplayName db;
          storeName := Some existingId |}, found.2)
  | None => (db, found.2)
  end.

(** [checkStoreExists]. *)
Definition checkStoreExists (db : GoogleFileSearch) (c : Cloud)
    : bool * Cloud :=
  let found := findStoreByName (targetDisplayName db) c in
  (match found.1 with Some _ => true | None => false end, found.2).

(** [fileSearchStores.delete({ name, config: { force: true } })]. *)
Definition deleteStore (name : string) (c : Cloud) : Result unit * Cloud :=
  match deleteError H (now c) with
  | Some e => (Threw e, tick c)
  | None =>
      (Returned tt,
       tick {| stores :=
                 List.filter (fun store =>
                                negb (String.eqb (store_name store) name))
                             (stores c);
               createdCount := createdCount c; now := now c |})
  end.

(** [fileSearchStores.create({ config: { displayName } })]. *)
Definition createStore (displayName : string) (c : Cloud)
    : Result Store * Cloud :=
  match createError H (now c) with
  | Some e => (Threw e, tick c)
  | None =>
      let newStore :=
        {| store_name := newName H (createdCount c);
           store_displayName := displayName |} in
      (Returned newStore,
       tick {| stores := stores c ++ [newStore];
               createdCount := S (createdCount c); now := now c |})
  end.

(** [migrate]: deletes the store found, if any, and creates a new one. *)
Definition migrate (db : GoogleFileSearch) (c : Cloud)
    : Result GoogleFileSearch * Cloud :=
  let found := findStoreByName (targetDisplayName db) c in
  let deleted :=
    match found.1 with
    | Some existingName => deleteStore existingName found.2
    | None => (Returned tt, found.2)
    end in
  match deleted.1 with
  | Threw e => (Threw e, deleted.2)
  | Returned _ =>
      let created := createStore (targetDisplayName db) deleted.2 in
      match created.1 with
      | Threw e => (Threw e, created.2)
      | Returned newStore =>
          (Returned {| targetDisplayName := targetDisplayName db;
                       storeName := orNull (store_name newStore) |},
           created.2)
      end
  end.

(** [seed], as far as the stores are concerned. *)
Definition seed (db : GoogleFileSearch) (directoryPath : string) (c : Cloud)
    : Result unit * Cloud :=
  match storeName db with
  | None => (Threw "Store not initialized. Call migrate() first.", c)
  | Some _ =>
      match readdirError H directoryPath with
      | Some e => (Threw e, tick c)
      | None => (Returned tt, tick c)
      end
  end.

(** *** The route, for the database type [GOOGLE] *)

Record Body := {
  projectName : option string;
  googleStoreName : option string;
  force : bool
}.

Inductive Response :=
  | BadRequest (error : string)
  | Conflict
  | Success
  | ServerError (error : string).

(** The state of the server: the instance [getDbInstance] has pooled for
    the key of this store name, if any, and the cloud. *)
Record Server := {
  pooled : option GoogleFileSearch;
  cloud : Cloud
}.

(** [getDbInstance('GOOGLE', googleStoreName)]. *)
Definition getDbInstance (modelParam : option string) (s : Server)
    : Result GoogleFileSearch * Server :=
  match pooled s with
  | Some db => (Returned db, s)
  | None =>
      match construct modelParam with
      | Threw e => (Threw e, s)
      | Returned newInstance =>
          let ready := init newInstance (cloud s) in
          (Returned ready.1, {| pooled := Some ready.1; cloud := ready.2 |})
      end
  end.

Definition failed (e : string) : Response :=
  ServerError ("向量化知识库失败: " +:+ e).

(** [join(process.cwd(), 'output', 'project', projectName, 'knowledge')],
    relative to the working directory. *)
Definition knowledgePath (project : string) : string :=
  "output/project/" +:+ project +:+ "/knowledge".

(** [POST] with [databaseType: 'GOOGLE'].  [migrate] and [seed] act on
    the pooled object, whose [storeName] [migrate] sets. *)
Definition POST (body : Body) (s : Server) : Response * Server :=
  match Orchestrator.truthy (projectName body) with
  | None => (BadRequest "缺少必要的参数", s)
  | Some project =>
      match Orchestrator.truthy (googleStoreName body) with
      | None => (BadRequest "缺少 Google Store Name 参数", s)
      | Some _ =>
          match getDbInstance (googleStoreName body) s with
          | (Threw e, s1) => (failed e, s1)
          | (Returned db, s1) =>
              let checked := checkStoreExists db (cloud s1) in
              if checked.1 && negb (force body)
              then (Conflict, {| pooled := pooled s1; cloud := checked.2 |})
              else
                match migrate db checked.2 with
                | (Threw e, c2) =>
                    (failed e, {| pooled := pooled s1; cloud := c2 |})
                | (Returned db2, c2) =>
                    match seed db2 (knowledgePath project) c2 with
                    | (Threw e, c3) =>
                        (failed e, {| pooled := Some db2; cloud := c3 |})
                    | (Returned _, c3) =>
                        (Success, {| pooled := Some db2; cloud := c3 |})
                    end
                end
          end
      end
  end.

End WithHost.

(** The first store listed with a display name. *)
Definition firstNamed (displayName : string) (c : Cloud) : option Store :=
  List.find (fun store => String.eqb (store_displayName store) displayName)
            (stores c).

(** A cloud with one store, a service that works, and a service whose
    listing fails at time 1 only. *)
Definition kbStore : Store :=
  {| store_name := "fileSearchStores/kb-1"; store_displayName := "kb" |}.

Definition oneStore : Cloud :=
  {| stores := [kbStore]; createdCount := 1; now := 0 |}.

Definition steady : Host :=
  {| GOOGLE_API_KEY := Some "key"; listFails := fun _ => false;
     deleteError := fun _ => None; createError := fun _ => None;
     newName := fun n => "fileSearchStores/kb-" +:+ pretty (S n);
     readdirError := fun _ => None |}.

Definition hiccup : Host :=
  {| GOOGLE_API_KEY := Some "key"; listFails := fun t => (t =? 1)%nat;
     deleteError := fun _ => None; createError := fun _ => None;
     newName := fun n => "fileSearchStores/kb-" +:+ pretty (S n);
     readdirError := fun _ => None |}.

Definition kbRequest (force : bool) : Body :=
  {| projectName := Some "demo"; googleStoreName := Some "kb";
     force := force |}.

End GoogleStore.

(** ** The name of a result directory ([getTimestamp] of
    [app/api/run-task/route.ts]) *)

Module Timestamp.
Open Scope string_scope.

(** What [new Date()] gives in local time: [getFullYear()],
    [getMonth()] (from 0), [getDate()], [getHours()], [getMinutes()] and
    [getSeconds()]. *)
Record Date := {
  fullYear : N;
  month : N;
  date : N;
  hours : N;
  minutes : N;
  seconds : N
}.

(** [num.toString().padStart(2, '0')]. *)
Definition pad (num : N) : string :=
  let s := pretty num in
  if (String.length s <? 2)%nat then "0" +:+ s else s.

(** [s.slice(-2)]. *)
Definition lastTwo (s : string) : string :=
  String.substring (String.length s - 2) 2 s.

Definition getTimestamp (now : Date) : string :=
  let year := lastTwo (pretty (fullYear now)) in
  let month := pad (month now + 1) in
  let day := pad (date now) in
  let hours := pad (hours now) in
  let minutes := pad (minutes now) in
  let seconds := pad (seconds now) in
  year +:+ month +:+ day +:+ "_" +:+ hours +:+ minutes +:+ seconds.

(** The dates of the years with four digits. *)
Definition valid (d : Date) : Prop :=
  (1000 <= fullYear d <= 9999 /\ month d < 12 /\ 1 <= date d <= 31
   /\ hours d < 24 /\ minutes d < 60 /\ seconds d < 60)%N.

(** The two decimal digits of a number below 100. *)
Definition two (n : N) : string :=
  String (ascii_of_N (48 + n / 10))
    (String (ascii_of_N (48 + n mod 10)) EmptyString).

(** The numbers from [first] on, [count] of them. *)
Definition numbersFrom (first : N) (count : nat) : list N :=
  map (fun i => (first + N.of_nat i)%N) (seq 0 count).

(** The same second, a century apart. *)
Definition newYear (year : N) : Date :=
  {| fullYear := year; month := 0; date := 1; hours := 0; minutes := 0;
     seconds := 0 |}.

End Timestamp.

(** ** The migration of the relational back end ([PostgresDB.migrate] of
    [src/unnamed/part_002]) *)

Module PgMigrate.

(** The statements [migrate] sends on its client, [registerType]
    included. *)
Inductive Statement :=
  | BEGIN
  | DROP_FILES
  | DROP_CHUNKS
  | CREATE_EXTENSION
  | REGISTER_TYPE
  | CREATE_FILES
  | CREATE_CHUNKS (dimensions : Z)
  | CREATE_INDEX
  | COMMIT
  | ROLLBACK.

(** What the pool and the client see. *)
Inductive Op :=
  | Connect
  | Query (s : Statement)
  | Release.

(** The database: whether the pool gives a client, and the error a
    statement ends with, if any. *)
Record Host := {
  connectError : option string;
  queryError : Statement -> option string
}.

Section WithHost.

Variable H : Host.

(** Statements in sequence, up to the first that throws. *)
Fixpoint runAll (statements : list Statement) : Result unit * list Op :=
  match statements with
  | [] => (Returned tt, [])
  | s :: rest =>
      match queryError H s with
      | Some e => (Threw e, [Query s])
      | None =>
          let later := runAll rest in
          (later.1, Query s :: later.2)
      end
  end.

(** The body of the [try] block. *)
Definition body (embeddingDimensions : Z) : list Statement :=
  [BEGIN; DROP_FILES; DROP_CHUNKS; CREATE_EXTENSION; REGISTER_TYPE;
   CREATE_FILES; CREATE_CHUNKS embeddingDimensions]
  ++ (if (embeddingDimensions <=? 2000)%Z then [CREATE_INDEX] else [])
  ++ [COMMIT].

Definition migrate (embeddingDimensions : Z) : Result unit * list Op :=
  match connectError H with
  | Some e => (Threw e, [Connect])
  | None =>
      let tried := runAll (body embeddingDimensions) in
      match tried.1 with
      | Returned _ => (Returned tt, Connect :: tried.2 ++ [Release])
      | Threw error =>
          (match queryError H ROLLBACK with
           | Some e => Threw e
           | None => Threw error
           end,
           Connect :: tried.2 ++ [Query ROLLBACK; Release])
      end
  end.

End WithHost.

(** How many times the client was released. *)
Definition releases (ops : list Op) : nat :=
  length (List.filter (fun o => match o with Release => true | _ => false end)
                      ops).

(** A database that refuses the index. *)
Definition noIndex : Host :=
  {| connectError := None;
     queryError := fun s =>
       match s with
       | CREATE_INDEX => Some "column cannot have more than 2000 dimensions"%string
       | _ => None
       end |}.

End PgMigrate.

(** * Part II: properties *)

Module ChunkerFacts.
Import JsString Chunker.

Lemma dropWhile_length p s : length (dropWhile p s) <= length s.
Proof. induction s as [|c tl IH]; simpl; [lia|]. destruct (p c); simpl; lia. Qed.

Lemma dropWhile_fixed p s :
  dropWhile p s = s <-> match s with [] => True | c :: _ => p c = false end.
Proof.
  destruct s as [|c tl]; simpl; [tauto|].
  destruct (p c) eqn:E; split; intros Hx; try done.
  pose proof (dropWhile_length p tl) as Hl. rewrite Hx in Hl. simpl in Hl. lia.
Qed.

Lemma dropWhile_idem p s : dropWhile p (dropWhile p s) = dropWhile p s.
Proof.
  induction s as [|c tl IH]; simpl; [done|].
  destruct (p c) eqn:E; [done|]. simpl. by rewrite E.
Qed.

Lemma take_drop_while p s : s = takeWhile p s ++ dropWhile p s.
Proof.
  induction s as [|c tl IH]; simpl; [done|].
  destruct (p c); simpl; [by f_equal|done].
Qed.

(** A prefix of a string that starts with no white space starts with none. *)
Lemma dropWhile_fixed_prefix p a b c :
  a = b ++ c -> dropWhile p a = a -> dropWhile p b = b.
Proof.
  intros -> Hfix. apply dropWhile_fixed. destruct b as [|x b']; [done|].
  apply dropWhile_fixed in Hfix. done.
Qed.

Lemma trimEnd_prefix s : exists c, s = trimEnd s ++ c.
Proof.
  unfold trimEnd. exists (rev (takeWhile isSpace (rev s))).
  rewrite <- rev_app_distr, <- take_drop_while. by rewrite rev_involutive.
Qed.

Lemma trim_idempotent s : trim (trim s) = trim s.
Proof.
  unfold trim, trimStart.
  destruct (trimEnd_prefix (dropWhile isSpace s)) as [c Hc].
  rewrite (dropWhile_fixed_prefix isSpace _ _ _ Hc (dropWhile_idem _ _)).
  unfold trimEnd. rewrite rev_involutive, dropWhile_idem. done.
Qed.

Lemma toCRLF_head s : head (toCRLF s) <> Some LF.
Proof.
  destruct s as [|c tl]; simpl; [done|].
  destruct (c =? LF)%N eqn:E; simpl; [done|].
  intros [= ->]. done.
Qed.

Lemma toCRLF_nil s : toCRLF s = [] -> s = [].
Proof. destruct s as [|c tl]; simpl; [done|]. by destruct (c =? LF)%N. Qed.

(** Normalising the CRLF form of a text gives the text back. *)
Lemma normalize_toCRLF s : normalizeLineEndings (toCRLF s) = s.
Proof.
  induction s as [|c tl IH]; [done|].
  cbn [toCRLF]. destruct (c =? LF)%N eqn:E.
  - apply N.eqb_eq in E as ->. cbn. by rewrite IH.
  - cbn [normalizeLineEndings].
    pose proof (toCRLF_head tl) as Hh. pose proof (toCRLF_nil tl) as Hn.
    fold (normalizeLineEndings (toCRLF tl)).
    destruct (toCRLF tl) as [|d rest] eqn:Et.
    + by rewrite Hn.
    + destruct ((c =? CR)%N && (d =? LF)%N) eqn:E2.
      * apply andb_true_iff in E2 as [_ E2]. apply N.eqb_eq in E2 as ->.
        by destruct Hh.
      * by rewrite IH.
Qed.

(** A text without a CRLF pair is left as it is. *)
Lemma normalize_LF s : hasCRLF s = false -> normalizeLineEndings s = s.
Proof.
  induction s as [|c tl IH]; [done|].
  cbn [hasCRLF normalizeLineEndings]. destruct tl as [|d rest]; [done|].
  intros Hx. apply orb_false_iff in Hx as [-> Hx]. by rewrite (IH Hx).
Qed.

Lemma cutAt_length s ms p : length (cutAt s ms p) = S (length ms).
Proof.
  revert p. induction ms as [|[a b] ms IH]; intros p; simpl; [done|].
  by rewrite IH.
Qed.

Lemma filter_Forall {A} (p : A -> bool) (P : A -> Prop) l :
  (forall x, p x = true -> P x) -> Forall P (List.filter p l).
Proof.
  intros Hp. apply Forall_forall. intros x Hx.
  apply list_elem_of_In, filter_In in Hx as [_ Hx]. auto.
Qed.

End ChunkerFacts.

Module ChunkerSpec.
Import JsString Chunker ChunkerFacts.

(** C4.  Whatever the text and whatever the recursive splitter returns,
    every chunk [universalChunker] returns has more than 10 code units
    once trimmed, in each of the three strategies. *)
Theorem chunks_exceed_ten (splitText : nat -> nat -> jsstring -> list jsstring)
    (content : jsstring) :
  Forall (fun chunk => 10 < length (trim chunk))
         (universalChunker splitText content).
Proof.
  unfold universalChunker.
  destruct (_ && _); [|destruct (3 <=? _)].
  - apply filter_Forall. unfold longEnough. intros x Hx.
    by apply Nat.ltb_lt in Hx.
  - apply filter_Forall. unfold longEnough. intros x Hx.
    by apply Nat.ltb_lt in Hx.
  - unfold defaultStrategy. apply Forall_forall. intros x Hx.
    apply list_elem_of_In, filter_In in Hx as [Hin Hx].
    apply andb_true_iff in Hx as [_ Hx]. apply Nat.ltb_lt in Hx.
    apply in_map_iff in Hin as [y [<- _]]. by rewrite trim_idempotent.
Qed.

(** C9.  The chunker first writes every CRLF pair as LF and leaves the
    rest of the text as it is, and detection and splitting read the
    text so normalised, never the text as given.  Take a text without
    CRLF pairs (the LF version; a lone CR is content) and the same text
    with every line feed written as CRLF: normalising the CRLF version
    gives the LF version, normalising the LF version changes nothing, the
    two versions take the same strategy and give the same list of chunks,
    and these are the chunks the strategies cut from the LF version
    itself, with the markers and separators counted in it. *)
Theorem crlf_and_lf_agree (splitText : nat -> nat -> jsstring -> list jsstring)
    (content : jsstring) :
  hasCRLF content = false ->
  normalizeLineEndings (toCRLF content) = content
  /\ normalizeLineEndings content = content
  /\ strategyOf (toCRLF content) = strategyOf content
  /\ universalChunker splitText (toCRLF content)
     = universalChunker splitText content
  /\ universalChunker splitText (toCRLF content)
     = (if (5 <? qaMatches content) && (5 <? paragraphMatches content)
        then qaStrategy splitText content
        else if 3 <=? paragraphMatches content
        then paragraphStrategy splitText content
        else defaultStrategy splitText content).
Proof.
  intros Hlf. unfold universalChunker, strategyOf.
  by rewrite normalize_toCRLF, (normalize_LF _ Hlf).
Qed.

(** On the text of three paragraphs, cut by the window splitter: its CRLF
    version is another text, four code units longer. *)
Lemma crlf_and_lf_agree_witness :
  hasCRLF threeParagraphs = false
  /\ length (toCRLF threeParagraphs) = 4 + length threeParagraphs
  /\ normalizeLineEndings (toCRLF threeParagraphs) = threeParagraphs
  /\ universalChunker windowSplitter (toCRLF threeParagraphs)
     = universalChunker windowSplitter threeParagraphs.
Proof.
  assert (hasCRLF threeParagraphs = false) as Hlf by reflexivity.
  destruct (crlf_and_lf_agree windowSplitter threeParagraphs Hlf)
    as (Hnormal & _ & _ & Hchunks & _).
  split; [exact Hlf|]. split; [reflexivity|].
  split; [exact Hnormal|exact Hchunks].
Defined.

(** C5, as stated, fails: a text of three paragraphs, which two blank
    lines separate, has "at least 3 blank-line-separated paragraphs" and
    no QA marker, yet it takes the recursive default. *)
Lemma three_paragraphs_take_default :
  paragraphCount (normalizeLineEndings threeParagraphs) = 3
  /\ qaMatches (normalizeLineEndings threeParagraphs) = 0
  /\ claimedStrategy threeParagraphs = ParagraphSplit
  /\ strategyOf threeParagraphs = RecursiveDefault
  /\ strategyOf threeParagraphs <> claimedStrategy threeParagraphs.
Proof. vm_compute. repeat split; discriminate. Qed.

(** C5, amended.  The strategy is chosen on the number of QA markers and
    on the number of blank-line separators matched (one less than the
    number of pieces they cut the text into): the QA split exactly when
    both exceed 5; otherwise the paragraph split exactly when there are at
    least 3 separators; otherwise the recursive splitter with chunk size
    1200 and overlap 200. *)
Theorem strategy_selection (splitText : nat -> nat -> jsstring -> list jsstring)
    (content : jsstring) :
  let n := normalizeLineEndings content in
  let qa := 5 < qaMatches n /\ 5 < paragraphMatches n in
  (strategyOf content = QaSplit <-> qa)
  /\ (strategyOf content = ParagraphSplit <-> ~ qa /\ 3 <= paragraphMatches n)
  /\ (strategyOf content = RecursiveDefault <-> ~ qa /\ paragraphMatches n < 3)
  /\ universalChunker splitText content
     = match strategyOf content with
       | QaSplit =>
           List.filter longEnough
             (splitParagraphs splitText 1500 100 (split doubleNewlinePattern n))
       | ParagraphSplit =>
           List.filter longEnough
             (splitParagraphs splitText 2000 400 (split doubleNewlinePattern n))
       | RecursiveDefault =>
           List.filter (fun c => negb (isEmpty c) && (10 <? length c))
             (map trim (splitText 1200 200 n))
       end
  /\ length (split doubleNewlinePattern n) = S (paragraphMatches n).
Proof.
  intros n qa. subst qa. unfold strategyOf, universalChunker. fold n.
  destruct (Nat.ltb_spec 5 (qaMatches n));
    destruct (Nat.ltb_spec 5 (paragraphMatches n));
    destruct (Nat.leb_spec 3 (paragraphMatches n)); cbn [andb];
    (repeat split; try done; try apply cutAt_length;
     try (intros; exfalso; lia); intuition (discriminate || lia)).
Qed.

End ChunkerSpec.

Module SimilaritySpec.
Import Similarity.

Lemma map_imap {A B C} (g : B -> C) (f : nat -> A -> B) l :
  map g (imap f l) = imap (fun n x => g (f n x)) l.
Proof. revert f. induction l as [|x l IH]; intros f; simpl; [done|]. by rewrite IH. Qed.

(** C6.  Both back ends turn a cosine distance [d] into the similarity
    [1 - d]: the conversion loop of the Chroma back end (with the largest
    distance, 2, for a missing one) and the select list of the relational
    one; distance 0 gives similarity 1 and distance 2 gives -1. *)
Theorem similarity_is_one_minus_distance :
  (forall d : float,
      chromaSimilarity (Some d) = (1 - d)%float
      /\ pgSimilarity d = (1 - d)%float
      /\ chromaSimilarity (Some d) = pgSimilarity d)
  /\ chromaSimilarity (Some 0%float) = 1%float
  /\ pgSimilarity 0%float = 1%float
  /\ chromaSimilarity (Some 2%float) = (-1)%float
  /\ pgSimilarity 2%float = (-1)%float
  /\ (forall results : ChromaQueryResult,
         map similarity (chromaDocuments results)
         = imap (fun i _ =>
                   Some (1 - default 2 (firstRowAt (distances results) i))%float)
                (default [] (ids results !! 0)))
  /\ (forall printId row,
         similarity (pgDocument printId row) = Some (1 - distance row)%float).
Proof.
  repeat split; try reflexivity.
  intros results. unfold chromaDocuments.
  destruct (ids results !! 0) as [ids0|]; [|done]. simpl.
  by rewrite map_imap.
Qed.

End SimilaritySpec.

Module DbFactoryFacts.
Import DbFactory.

Lemma append_cancel_l (s a b : string) : s +:+ a = s +:+ b -> a = b.
Proof. induction s as [|c s IH]; simpl; [done|]. intros [= Hx]. auto. Qed.

Lemma cacheKeyOf_model t m1 m2 : cacheKeyOf t m1 = cacheKeyOf t m2 -> m1 = m2.
Proof.
  unfold cacheKeyOf. intros Hx. apply append_cancel_l in Hx.
  by apply (append_cancel_l "-") in Hx.
Qed.

(** The three ways a call can leave the state. *)
Lemma getDbInstance_state P t m st :
  let st' := (getDbInstance P t m st).2 in
  st' = st
  \/ (dbInstancePool st' = dbInstancePool st
      /\ allocated st' = S (allocated st)
      /\ initCalls st' = initCalls st ++ [allocated st])
  \/ (exists k b,
        dbInstancePool st !! k = None
        /\ (getDbInstance P t m st).1
           = Returned {| instanceId := allocated st; backendOf := b;
                         constructorArg := m |}
        /\ dbInstancePool st'
           = <[k := {| instanceId := allocated st; backendOf := b;
                       constructorArg := m |}]> (dbInstancePool st)
        /\ allocated st' = S (allocated st)
        /\ initCalls st' = initCalls st ++ [allocated st]).
Proof.
  unfold getDbInstance.
  destruct (truthy (orElse t _)) as [t'|]; [|by left].
  destruct (truthy (orElse m _)) as [m'|]; [|by left].
  destruct (dbInstancePool st !! cacheKeyOf t' m') eqn:Hl; [by left|].
  destruct (backendOfName t') as [b|]; [|by left].
  destruct (constructorError P b m); [by left|].
  destruct (initError P (allocated st)); simpl.
  - right; left. done.
  - right; right. exists (cacheKeyOf t' m'), b. done.
Qed.

Lemma Inv_empty : Inv emptyState.
Proof. split; simpl; try done. constructor. Qed.

Lemma Inv_call P t m st : Inv st -> Inv (getDbInstance P t m st).2.
Proof.
  intros [Hf Hd Hb Ho Hp].
  destruct (getDbInstance_state P t m st) as [->|[(Hpool & Halloc & Hinit)|Hnew]].
  - done.
  - split; rewrite ?Hpool, ?Halloc, ?Hinit.
    + intros k i Hk. specialize (Hf k i Hk). lia.
    + done.
    + intros n [Hn|[<-|[]]]%in_app_or; [specialize (Hb n Hn)|]; lia.
    + apply NoDup_app. split; [done|]. split; [|apply NoDup_singleton].
      intros x Hx%list_elem_of_In Hy%list_elem_of_In. destruct Hy as [<-|[]].
      specialize (Hb _ Hx). lia.
    + intros k i Hk. apply in_or_app. left. eauto.
  - destruct Hnew as (k & b & Hnone & _ & Hpool & Halloc & Hinit).
    split; rewrite ?Hpool, ?Halloc, ?Hinit.
    + intros k' i [[<- <-]|[_ Hk]]%lookup_insert_Some; simpl; [lia|].
      specialize (Hf k' i Hk). lia.
    + intros k1 k2 i1 i2 [[<- <-]|[? H1]]%lookup_insert_Some
        [[<- <-]|[? H2]]%lookup_insert_Some; simpl; intros Heq; try done.
      * specialize (Hf _ _ H2). lia.
      * specialize (Hf _ _ H1). lia.
      * eauto.
    + intros n [Hn|[<-|[]]]%in_app_or; [specialize (Hb n Hn)|]; lia.
    + apply NoDup_app. split; [done|]. split; [|apply NoDup_singleton].
      intros x Hx%list_elem_of_In Hy%list_elem_of_In. destruct Hy as [<-|[]].
      specialize (Hb _ Hx). lia.
    + intros k' i [[<- <-]|[_ Hk]]%lookup_insert_Some; simpl;
        apply in_or_app; [right; by left|left; eauto].
Qed.

Lemma reachable_Inv P st : reachable P st -> Inv st.
Proof. induction 1; [apply Inv_empty|by apply Inv_call]. Qed.

Lemma later_reachable P st st' : reachable P st -> later P st st' -> reachable P st'.
Proof. intros Hr. induction 1; [done|by constructor]. Qed.

(** An entry of the pool is never replaced or removed. *)
Lemma later_pool P st st' k i :
  later P st st' ->
  dbInstancePool st !! k = Some i -> dbInstancePool st' !! k = Some i.
Proof.
  induction 1 as [|st' t m Hl IH]; [done|]. intros Hk. specialize (IH Hk).
  destruct (getDbInstance_state P t m st') as [->|[(-> & _)|Hnew]]; try done.
  destruct Hnew as (k' & b & Hnone & _ & -> & _).
  apply lookup_insert_Some. right. split; [|done]. congruence.
Qed.

(** A successful resolution leaves its instance in the pool, under the key
    of the resolution. *)
Lemma getDbInstance_pooled P t m st a st1 :
  getDbInstance P t m st = (Returned a, st1) ->
  exists k, keyOf P t m = Some k /\ dbInstancePool st1 !! k = Some a.
Proof.
  unfold getDbInstance, keyOf.
  destruct (truthy (orElse t _)) as [t'|]; [|done].
  destruct (truthy (orElse m _)) as [m'|]; [|done].
  destruct (dbInstancePool st !! cacheKeyOf t' m') eqn:Hl.
  { intros [= <- <-]. eauto. }
  destruct (backendOfName t') as [b|]; [|done].
  destruct (constructorError P b m); [done|].
  destruct (initError P (allocated st)); [done|].
  intros [= <- <-]. simpl. eexists; split; [done|].
  by rewrite lookup_insert_eq.
Qed.

(** A resolution whose key is pooled returns the pooled instance and
    leaves the state as it is. *)
Lemma getDbInstance_cached P t m st k a :
  keyOf P t m = Some k -> dbInstancePool st !! k = Some a ->
  getDbInstance P t m st = (Returned a, st).
Proof.
  unfold getDbInstance, keyOf.
  destruct (truthy (orElse t _)) as [t'|]; [|done].
  destruct (truthy (orElse m _)) as [m'|]; [|done].
  intros [= <-] ->. done.
Qed.

(** A resolution that runs alone is one call of [getDbInstance]. *)
Lemma alone_getDbInstance P t m st :
  alone P t m st
  = (Settled (getDbInstance P t m st).1, (getDbInstance P t m st).2).
Proof.
  unfold alone, enter, getDbInstance.
  destruct (truthy (orElse t _)) as [t'|]; [|done].
  destruct (truthy (orElse m _)) as [m'|]; [|done].
  cbv zeta. destruct (dbInstancePool st !! cacheKeyOf t' m'); [done|].
  destruct (backendOfName t') as [b|]; [|done].
  simpl. destruct (constructorError P b m); [done|].
  simpl. by destruct (initError P (allocated st)).
Qed.

Lemma Overlap_start k b m b' m' st :
  Overlap k (Importing k b m) (Importing k b' m') st.
Proof.
  split.
  - by intros r k' [->| ->] [= <-].
  - by intros r i [->| ->].
  - done.
  - by intros i [[=]|[=]].
Qed.

Lemma Overlap_sym k one other st :
  Overlap k one other st -> Overlap k other one st.
Proof.
  intros [Hk Hi Hd Hp]. split.
  - intros r k' Hr. apply Hk. tauto.
  - intros r i Hr. apply Hi. tauto.
  - intros i j Hi' Hj Heq. by apply (Hd j i).
  - intros i Hr. destruct (Hp i) as (j & Hj & Hor); [tauto|].
    exists j. split; [done|tauto].
Qed.

(** Resuming one of the two keeps what holds of them. *)
Lemma Overlap_resume P k one other st :
  Overlap k one other st ->
  Overlap k (resume P one st).1 other (resume P one st).2.
Proof.
  intros [Hk Hi Hd Hp].
  assert (forall e, (forall j, one <> Settled (Returned j)) ->
                    Overlap k (Settled (Threw e)) other st) as Hthrew.
  { intros e Hnot. split.
    - intros r k' [->| ->]; [done|]. apply Hk. by right.
    - intros r i [->| ->]; [done|]. apply Hi. by right.
    - done.
    - intros i [[=]|Hb].
      destruct (Hp i) as (j & Hj & [Hone|Hother]);
        [by right|by destruct (Hnot j)|].
      exists j. split; [done|by right]. }
  destruct one as [ka ba ma|ka ia|oa]; simpl.
  - destruct (constructorError P ba ma) as [e|]; simpl; [by apply Hthrew|].
    split; simpl.
    + intros r k' [->| ->]; [|apply Hk; by right].
      intros [= <-]. apply (Hk (Importing ka ba ma)); [by left|done].
    + intros r i [->| ->].
      * intros [= <-]. simpl. split; [lia|]. apply in_or_app. right. by left.
      * intros Hm. destruct (Hi other i) as [H1 H2]; [by right|done|].
        split; [lia|]. apply in_or_app. by left.
    + intros i j [= <-] Hj. simpl.
      destruct (Hi other j) as [H1 _]; [by right|done|]. lia.
    + intros i [[=]|Hb].
      destruct (Hp i) as (j & Hj & [[=]|Hother]); [by right|].
      exists j. split; [done|by right].
  - destruct (initError P (instanceId ia)) as [e|]; simpl;
      [by apply Hthrew|].
    assert (ka = k) as ->.
    { apply (Hk (Initialising ka ia)); [by left|done]. }
    split; simpl.
    + intros r k' [->| ->]; [done|]. apply Hk. by right.
    + intros r i [->| ->]; [|apply Hi; by right].
      intros [= <-]. apply (Hi (Initialising k ia)); [by left|done].
    + intros i j [= <-] Hj. by apply Hd.
    + intros i _. exists ia. split; [by rewrite lookup_insert_eq|by left].
  - by split.
Qed.

Lemma Overlap_interleave P k schedule one other st :
  Overlap k one other st ->
  Overlap k (interleave P schedule one other st).1.1
            (interleave P schedule one other st).1.2
            (interleave P schedule one other st).2.
Proof.
  revert one other st.
  induction schedule as [|[] rest IH]; intros one other st Hov; [done| |];
    cbn [interleave].
  - apply IH. by apply Overlap_resume.
  - apply IH. by apply Overlap_sym, Overlap_resume, Overlap_sym.
Qed.

End DbFactoryFacts.

Module DbFactorySpec.
Import DbFactory DbFactoryFacts.

(** C7, as stated, fails for resolutions that overlap: the second of two
    resolutions for [CHROMA] and [bge-m3] is called while the first waits
    for its import, so both miss the pool; resumed in turn, each
    constructs its own instance and calls [init()] on it, both return,
    and the two instances are two objects for one key, of which the pool
    keeps the one set last. *)
Lemma overlapping_resolutions_make_two_instances :
  keyOf quietProcess (Some "CHROMA"%string) (Some "bge-m3"%string)
  = Some "CHROMA-bge-m3"%string
  /\ entered = Importing "CHROMA-bge-m3" ChromaDB (Some "bge-m3"%string)
  /\ overlapped.1
     = (Settled (Returned firstInstance), Settled (Returned secondInstance))
  /\ instanceId firstInstance <> instanceId secondInstance
  /\ initCalls overlapped.2 = [0; 1]
  /\ dbInstancePool overlapped.2 !! "CHROMA-bge-m3"%string
     = Some secondInstance.
Proof.
  split; [reflexivity|]. split; [reflexivity|]. split; [reflexivity|].
  split; [discriminate|]. split; [reflexivity|].
  vm_compute. reflexivity.
Qed.

(** C7, amended.  A resolution that runs alone, nothing else at its
    awaits, is one call of [getDbInstance], and for such resolutions the
    factory is a cache by key.  From any state they lead to: once a
    resolution has returned an instance, every later resolution with the
    same cache key returns that very instance and changes nothing (so
    [init()] is not called again: it was called exactly once on it); the
    pool maps the key to it; and a later resolution for the same back-end
    type with another embedding model returns an instance of another
    identity.  Two resolutions for a key that have both missed the pool
    and both return, however they are resumed, return two instances of
    different identity, [init()] has been called on both, and the pool
    holds one of the two under the key. *)
Theorem factory_caches_by_key (P : Process) (st st1 st2 : State)
    (dbType embeddingModel : option string) (a : DataAccess) :
  reachable P st ->
  getDbInstance P dbType embeddingModel st = (Returned a, st1) ->
  later P st1 st2 ->
  (forall dbType' embeddingModel',
      keyOf P dbType' embeddingModel' = keyOf P dbType embeddingModel ->
      getDbInstance P dbType' embeddingModel' st2 = (Returned a, st2))
  /\ count_occ Nat.eq_dec (initCalls st2) (instanceId a) = 1
  /\ (exists k, keyOf P dbType embeddingModel = Some k
                /\ dbInstancePool st2 !! k = Some a)
  /\ (forall embeddingModel' b st3,
         truthy (orElse embeddingModel' (EMBEDDING_MODEL_TYPE P))
         <> truthy (orElse embeddingModel (EMBEDDING_MODEL_TYPE P)) ->
         getDbInstance P dbType embeddingModel' st2 = (Returned b, st3) ->
         instanceId b <> instanceId a)
  /\ (forall dbType' embeddingModel' s,
         alone P dbType' embeddingModel' s
         = (Settled (getDbInstance P dbType' embeddingModel' s).1,
            (getDbInstance P dbType' embeddingModel' s).2))
  /\ (forall k b m b' m' schedule s i j s',
         interleave P schedule (Importing k b m) (Importing k b' m') s
         = (Settled (Returned i), Settled (Returned j), s') ->
         instanceId i <> instanceId j
         /\ In (instanceId i) (initCalls s')
         /\ In (instanceId j) (initCalls s')
         /\ (dbInstancePool s' !! k = Some i
             \/ dbInstancePool s' !! k = Some j)).
Proof.
  intros Hreach Hres Hlater.
  destruct (getDbInstance_pooled _ _ _ _ _ _ Hres) as (k & Hk & Hpool1).
  pose proof (later_pool _ _ _ _ _ Hlater Hpool1) as Hpool2.
  assert (reachable P st1) as Hreach1.
  { replace st1 with (getDbInstance P dbType embeddingModel st).2
      by (by rewrite Hres). by constructor. }
  pose proof (reachable_Inv _ _ (later_reachable _ _ _ Hreach1 Hlater)) as Hinv.
  split; [|split; [|split; [|split; [|split]]]].
  6:{ intros k0 b0 m0 b' m' schedule s i j s' Hrun.
      pose proof (Overlap_interleave P k0 schedule _ _ s
                    (Overlap_start k0 b0 m0 b' m' s)) as Hov.
      rewrite Hrun in Hov. cbn [fst snd] in Hov.
      destruct Hov as [_ Hinit Hdistinct Hpool].
      split; [by apply Hdistinct|].
      split; [by apply (Hinit (Settled (Returned i))); [left|]|].
      split; [by apply (Hinit (Settled (Returned j))); [right|]|].
      destruct (Hpool i) as (x & Hx & [[= ->]|[= ->]]); [by left|by left|].
      by right. }
  5:{ intros. apply alone_getDbInstance. }
  - intros t' m' Hkey. eapply getDbInstance_cached; [|done]. congruence.
  - apply NoDup_count_occ'; [|by eapply inv_init_pool].
    apply NoDup_ListNoDup. by apply inv_init_once.
  - eauto.
  - intros m' b st3 Hdiff Hres' Heq.
    destruct (getDbInstance_pooled _ _ _ _ _ _ Hres') as (k' & Hk' & Hpool3).
    assert (k' <> k) as Hne.
    { intros ->. revert Hk Hk' Hdiff. unfold keyOf.
      destruct (truthy (orElse dbType _)) as [t|]; [|done].
      destruct (truthy (orElse m' _)) as [m1|]; [|done].
      destruct (truthy (orElse embeddingModel _)) as [m2|]; [|done].
      intros [= <-] [= Hx%cacheKeyOf_model]. congruence. }
    destruct (getDbInstance_state P dbType m' st2)
      as [Hsame|[(Hp & _)|Hnew]]; rewrite Hres' in *; simpl in *.
    + subst st3. apply Hne. by eapply (inv_distinct _ Hinv).
    + rewrite Hp in Hpool3. apply Hne. by eapply (inv_distinct _ Hinv).
    + destruct Hnew as (k0 & b0 & _ & [= ->] & _). simpl in Heq.
      pose proof (inv_fresh _ Hinv _ _ Hpool2). lia.
Qed.

(** In a fresh process: the instance created for [CHROMA] and [bge-m3] is
    still the one returned after an instance for another model was
    created, and [init()] ran on it once. *)
Lemma factory_caches_by_key_witness :
  reachable quietProcess emptyState
  /\ getDbInstance quietProcess (Some "CHROMA"%string) (Some "bge-m3"%string)
       emptyState
     = (Returned firstInstance, afterFirst)
  /\ later quietProcess afterFirst afterSecond
  /\ getDbInstance quietProcess (Some "CHROMA"%string) (Some "bge-m3"%string)
       afterSecond
     = (Returned firstInstance, afterSecond)
  /\ count_occ Nat.eq_dec (initCalls afterSecond) (instanceId firstInstance)
     = 1.
Proof.
  assert (reachable quietProcess emptyState) as Hreach by constructor.
  assert (getDbInstance quietProcess (Some "CHROMA"%string)
            (Some "bge-m3"%string) emptyState
          = (Returned firstInstance, afterFirst)) as Hres by reflexivity.
  assert (later quietProcess afterFirst afterSecond) as Hlater.
  { apply (later_call quietProcess afterFirst afterFirst). constructor. }
  destruct (factory_caches_by_key quietProcess emptyState afterFirst
              afterSecond (Some "CHROMA"%string) (Some "bge-m3"%string)
              firstInstance Hreach Hres Hlater) as (Hsame & Hinit & _).
  split; [done|]. split; [done|]. split; [done|]. split; [|done].
  apply Hsame. reflexivity.
Defined.

End DbFactorySpec.

Module PgSeedFacts.
Import JsString PgSeed.

Section Derived.

Variable H : Host.
Variable eligible : string -> bool.
Variable directoryPath : string.
Variable files : list string.

Hypothesis eligible_ext : forall fileName,
  eligible fileName = true ->
  extname H fileName = ".md"%string \/ extname H fileName = ".txt"%string.

Lemma insertChunks_derived fileId chunks db db' f :
  insertChunks H fileId chunks db = (Returned tt, db') ->
  In f (knowledge_files db) -> file_id f = fileId ->
  In (file_name f) files ->
  eligible (file_name f) = true ->
  readFile H (join H directoryPath (file_name f)) = Returned (file_content f) ->
  (forall chunk, In chunk chunks ->
     In chunk (Chunker.universalChunker (splitText H) (file_content f))) ->
  allDerived H directoryPath files db ->
  allDerived H directoryPath files db' /\ knowledge_files db' = knowledge_files db.
Proof.
  intros Hrun Hf Hid Hin Hel Hread. revert db Hrun Hf.
  induction chunks as [|chunk rest IH]; intros db Hrun Hf Hsub Hall.
  { injection Hrun as <-. done. }
  cbn [insertChunks] in Hrun.
  destruct (getEmbedding H chunk) as [vector|]; [|done].
  unfold insertChunk in Hrun.
  destruct (negb _); [done|].
  destruct (IH _ Hrun) as [Hall' Hfiles]; simpl; [done| | |done].
  - intros c Hc. apply Hsub. by right.
  - intros c [Hc|[<-|[]]]%in_app_or; [by apply Hall|].
    exists f. split; [done|]. unfold derivedFrom. simpl.
    repeat split; auto. apply Hsub. by left.
Qed.

Lemma seedFiles_derived rest db db' :
  seedFiles H eligible directoryPath rest db = (Returned tt, db') ->
  (forall fileName, In fileName rest -> In fileName files) ->
  allDerived H directoryPath files db -> allDerived H directoryPath files db'.
Proof.
  revert db. induction rest as [|fileName rest IH]; intros db Hrun Hsub Hall.
  { by injection Hrun as <-. }
  cbn [seedFiles] in Hrun.
  destruct (eligible fileName) eqn:Hel; simpl in Hrun.
  2:{ eapply IH; eauto. intros ? ?. apply Hsub. by right. }
  destruct (readFile H (join H directoryPath fileName)) as [content|] eqn:Hread;
    [|done].
  unfold insertFile in Hrun.
  destruct (existsb _ _); [done|].
  match type of Hrun with
  | context [insertChunks H ?i ?cs ?d] =>
      destruct (insertChunks H i cs d) as [[[]|] db2] eqn:Hins; [|done]
  end.
  eapply (insertChunks_derived _ _ _ _
            {| file_id := files_id_seq db; file_name := fileName;
               file_content := content |}) in Hins as [Hall2 _]; simpl; eauto.
  - eapply IH; eauto. intros ? ?. apply Hsub. by right.
  - apply in_or_app. right. by left.
  - apply Hsub. by left.
  - intros c Hc. destruct (Hall c Hc) as (f & Hf & Hd).
    exists f. split; [|done]. simpl. apply in_or_app. by left.
Qed.

End Derived.

Lemma insertChunks_issued H c0 f0 fileId chunks db :
  issuedSince c0 f0 db ->
  issuedSince c0 f0 (insertChunks H fileId chunks db).2.
Proof.
  revert db. induction chunks as [|chunk rest IH]; intros db Hi; [done|].
  cbn [insertChunks]. destruct (getEmbedding H chunk) as [vector|]; [|done].
  unfold insertChunk. destruct Hi as (Hc & Hf & Hc0 & Hf0).
  destruct (negb _); simpl.
  - split; [|split; [|split]]; simpl; try lia; try done.
    intros x Hx. specialize (Hc x Hx). lia.
  - apply IH. split; [|split; [|split]]; simpl; try lia; try done.
    intros x [Hx|[<-|[]]]%in_app_or; [specialize (Hc x Hx)|simpl]; lia.
Qed.

Lemma insertFile_issued c0 f0 fileName content db :
  issuedSince c0 f0 db ->
  issuedSince c0 f0 (insertFile fileName content db).2.
Proof.
  unfold insertFile. intros (Hc & Hf & Hc0 & Hf0).
  destruct (existsb _ _); simpl.
  - split; [|split; [|split]]; simpl; try lia; try done.
    intros x Hx. specialize (Hf x Hx). lia.
  - split; [|split; [|split]]; simpl; try lia; try done.
    intros x [Hx|[<-|[]]]%in_app_or; [specialize (Hf x Hx)|simpl]; lia.
Qed.

Lemma seedFiles_issued H eligible directoryPath c0 f0 rest db :
  issuedSince c0 f0 db ->
  issuedSince c0 f0 (seedFiles H eligible directoryPath rest db).2.
Proof.
  revert db. induction rest as [|fileName rest IH]; intros db Hi; [done|].
  cbn [seedFiles]. destruct (negb (eligible fileName)); [by apply IH|].
  destruct (readFile H _) as [content|]; [|done].
  pose proof (insertFile_issued c0 f0 fileName content db Hi) as Hi1.
  destruct (insertFile fileName content db) as [[fileId|] db1]; [|done].
  simpl in Hi1.
  pose proof (insertChunks_issued H c0 f0 fileId
                (Chunker.universalChunker (splitText H) content) db1 Hi1) as Hi2.
  destruct (insertChunks H fileId _ db1) as [[[]|] db2]; [|done].
  by apply IH.
Qed.

Lemma truncate_idem db :
  truncateKnowledgeFiles (truncateKnowledgeFiles db) = truncateKnowledgeFiles db.
Proof. done. Qed.

Lemma truncated_issued db :
  issuedSince (chunks_id_seq db) (files_id_seq db) (truncateKnowledgeFiles db).
Proof. split; [|split; [|split]]; simpl; try lia; intros ? []. Qed.

(** [seedWith] on a store and on the same store emptied. *)
Lemma seedWith_replaces H eligible :
  (forall fileName, eligible fileName = true ->
     extname H fileName = ".md"%string \/ extname H fileName = ".txt"%string) ->
  connectError H = None ->
  fullReplace H (seedWith H eligible).
Proof.
  intros Hel Hconn directoryPath db. unfold seedWith. rewrite Hconn.
  rewrite truncate_idem.
  destruct (readdir H directoryPath) as [files|e] eqn:Hdir.
  - split; [done|]. split.
    + apply seedFiles_issued, truncated_issued.
    + intros Hres. exists files. split; [done|].
      destruct (seedFiles H eligible directoryPath files
                  (truncateKnowledgeFiles db)) as [[[]|] db'] eqn:Hrun;
        [|done].
      eapply seedFiles_derived; eauto. intros c [].
  - split; [done|]. split; [apply truncated_issued|done].
Qed.

End PgSeedFacts.

Module PgSeedSpec.
Import JsString PgSeed PgSeedFacts.

(** C10.  Once the pool has given a connection, [seed] replaces the
    content of the store: it does on any store exactly what it does on
    the emptied one, so the rows that were there before play no part;
    every row it leaves carries an identifier issued during the call; and
    when it completes, every chunk stored was cut by the chunker from a
    [.md] or [.txt] file of the directory, which is stored as its owner.
    The same holds of the earlier [seed], which reads [.txt] files
    only. *)
Theorem seed_replaces_the_store (H : Host) :
  connectError H = None ->
  fullReplace H (seed H) /\ fullReplace H (seedTxt H).
Proof.
  intros Hconn. split; apply seedWith_replaces; try done; intros f.
  - destruct (String.eqb_spec (extname H f) ".md");
      destruct (String.eqb_spec (extname H f) ".txt"); simpl; auto. done.
  - destruct (String.eqb_spec (extname H f) ".txt"); simpl; auto. done.
Qed.

(** On a store that holds a file and a chunk of an earlier seeding. *)
Lemma seed_replaces_the_store_witness :
  connectError exampleHost = None
  /\ seed exampleHost "docs" staleDatabase
     = seed exampleHost "docs" (truncateKnowledgeFiles staleDatabase)
  /\ issuedSince 2 2 (seed exampleHost "docs" staleDatabase).2
  /\ seedTxt exampleHost "docs" staleDatabase
     = seedTxt exampleHost "docs" (truncateKnowledgeFiles staleDatabase).
Proof.
  split; [reflexivity|].
  destruct (seed_replaces_the_store exampleHost) as [Hmd Htxt];
    [reflexivity|].
  destruct (Hmd "docs"%string staleDatabase) as (Heq & Hissued & _).
  destruct (Htxt "docs"%string staleDatabase) as (Heq' & _).
  split; [exact Heq|]. split; [exact Hissued|exact Heq'].
Defined.

End PgSeedSpec.

Module OrchestratorFacts.
Import Orchestrator.
Open Scope list_scope.

(** *** The monad *)

Lemma bind_run {A B} (m : M A) (f : A -> M B) w :
  (m ≫= f) w
  = match m w with
    | (Returned a, w') => f a w'
    | (Threw e, w') => (Threw e, w')
    end.
Proof. done. Qed.

Lemma bind_returned {A B} (m : M A) (f : A -> M B) w a w' :
  m w = (Returned a, w') -> (m ≫= f) w = f a w'.
Proof. intros Hm. by rewrite bind_run, Hm. Qed.

Lemma bind_threw {A B} (m : M A) (f : A -> M B) w e w' :
  m w = (Threw e, w') -> (m ≫= f) w = (Threw e, w').
Proof. intros Hm. by rewrite bind_run, Hm. Qed.

Lemma forEach_app {A S} (body : A -> S -> M S) xs ys s :
  forall w, forEach body (xs ++ ys) s w
            = (forEach body xs s ≫= forEach body ys) w.
Proof.
  revert s. induction xs as [|x xs IH]; intros s w; [done|].
  cbn [forEach app]. rewrite !bind_run.
  destruct (body x s w) as [[s'|e] w']; [apply IH|done].
Qed.

Section Adds.

Variable P : Action -> Prop.

Lemma adds_ret {A} (a : A) : adds P (mret a).
Proof. intros w. exists []. by rewrite app_nil_r. Qed.

Lemma adds_throw {A} e : adds P (@throw A e).
Proof. intros w. exists []. by rewrite app_nil_r. Qed.

Lemma adds_bind {A B} (m : M A) (f : A -> M B) :
  adds P m -> (forall a, adds P (f a)) -> adds P (m ≫= f).
Proof.
  intros Hm Hf w. rewrite bind_run. destruct (Hm w) as (s1 & H1 & T1 & F1).
  destruct (m w) as [[a|e] w1]; simpl in *.
  - destruct (Hf a w1) as (s2 & H2 & T2 & F2). exists (s1 ++ s2).
    rewrite H2, H1, app_assoc. split; [done|]. split; [lia|].
    by apply Forall_app.
  - by exists s1.
Qed.

Lemma adds_tryCatch {A} (m : M A) handler :
  adds P m -> (forall e, adds P (handler e)) -> adds P (tryCatch m handler).
Proof.
  intros Hm Hf w. unfold tryCatch. destruct (Hm w) as (s1 & H1 & T1 & F1).
  destruct (m w) as [[a|e] w1]; simpl in *.
  - by exists s1.
  - destruct (Hf e w1) as (s2 & H2 & T2 & F2). exists (s1 ++ s2).
    rewrite H2, H1, app_assoc. split; [done|]. split; [lia|].
    by apply Forall_app.
Qed.

Lemma adds_act a : P a -> adds P (act a).
Proof. intros Ha w. exists [a]. simpl. repeat split; auto. Qed.

Lemma adds_tick : adds P tick.
Proof. intros w. exists []. simpl. rewrite app_nil_r. repeat split; auto. Qed.

Lemma adds_forEach {A S} (body : A -> S -> M S) xs s :
  (forall x s, adds P (body x s)) -> adds P (forEach body xs s).
Proof.
  intros Hb. revert s. induction xs as [|x xs IH]; intros s; simpl.
  - apply adds_ret.
  - apply adds_bind; auto.
Qed.

Variable H : Host.

Lemma adds_isCancelled : adds P (isCancelled H).
Proof. intros w. exists []. simpl. rewrite app_nil_r. repeat split; auto. Qed.

Lemma adds_throwIfCancelled : adds P (throwIfCancelled H).
Proof.
  apply adds_bind; [apply adds_isCancelled|].
  intros []; [apply adds_throw|apply adds_ret].
Qed.

Lemma adds_sendEvent e : P (Enqueue e) -> adds P (sendEvent e).
Proof. apply adds_act. Qed.

Lemma adds_onProgress e : P (Enqueue e) -> adds P (onProgress H e).
Proof.
  intros He. apply adds_bind; [apply adds_isCancelled|].
  intros []; [apply adds_throw|by apply adds_sendEvent].
Qed.

Lemma adds_now : adds P (now H).
Proof. intros w. exists []. simpl. rewrite app_nil_r. repeat split; auto. Qed.

Lemma adds_disk a : P a -> adds P (disk H a).
Proof.
  intros Ha w. unfold disk. destruct (diskError H (ticks w)); simpl.
  - exists []. rewrite app_nil_r. repeat split; auto.
  - exists [a]. repeat split; auto.
Qed.

Lemma adds_sleep ms : P (SetTimeout ms) -> adds P (sleep ms).
Proof.
  intros Ha. apply adds_bind; [by apply adds_act|]. intros _. apply adds_tick.
Qed.

Lemma adds_chat model messages :
  P (HandleChat model messages) -> adds P (chat H model messages).
Proof. intros Ha w. exists [HandleChat model messages]. simpl. repeat split; auto. Qed.

Lemma adds_safeModelCallFrom remaining i retries model messages :
  P (SetTimeout 2000) -> P (HandleChat model messages) ->
  adds P (safeModelCallFrom H remaining i retries model messages).
Proof.
  intros Hs Hc. revert i.
  induction remaining as [|remaining IH]; intros i; cbn [safeModelCallFrom].
  - apply adds_ret.
  - apply adds_bind.
    { destruct (0 <? i)%nat; [by apply adds_sleep|apply adds_ret]. }
    intros _. apply adds_bind; [by apply adds_chat|].
    intros [[r|]|e]; try apply adds_ret;
      destruct (i =? retries)%nat; try apply adds_ret; apply IH.
Qed.

Lemma adds_safeModelCall model messages :
  P (SetTimeout 2000) -> P (HandleChat model messages) ->
  adds P (safeModelCall H model messages).
Proof. apply adds_safeModelCallFrom. Qed.

End Adds.

Ltac bind_step Hrun :=
  rewrite bind_run in Hrun;
  match type of Hrun with
  | (match ?c with _ => _ end) = _ =>
      destruct c as [[?|?] ?] eqn:?; [|discriminate Hrun]
  end.

Ltac single_step := simpl; split; [done|]; split; [lia|]; repeat constructor.

Section Inner.

Variable H : Host.
Variable config : Config.

Lemma inner_connect dbType model : adds inner (connect H dbType model).
Proof. intros w. exists [GetDbInstance dbType model]. single_step. Qed.

Lemma inner_query question topK : adds inner (query H question topK).
Proof. intros w. exists [QueryDocuments question topK]. single_step. Qed.

Lemma inner_rerankDocuments q docs model :
  adds inner (rerankDocuments H q docs model).
Proof.
  destruct docs as [|d docs]; [apply adds_ret|].
  intros w. exists [RerankRequest q (d :: docs) model]. single_step.
Qed.

Lemma inner_retrievalFailed tc a b c d e f :
  adds inner (retrievalFailed H tc a b c d e f).
Proof.
  apply adds_bind; [by apply adds_onProgress|]. intros _. apply adds_ret.
Qed.

Lemma inner_retrieve tc : adds inner (retrieve H config tc).
Proof.
  unfold retrieve. apply adds_bind; [apply adds_now|]. intros t0.
  destruct (truthy _) as [dbType|]; [|apply inner_retrievalFailed].
  apply adds_bind; [apply inner_connect|]. intros [e|];
    [apply inner_retrievalFailed|].
  apply adds_bind; [apply inner_query|]. intros [chunks|e];
    [|apply inner_retrievalFailed].
  apply adds_bind; [apply adds_now|]. intros t1.
  apply adds_bind; [apply adds_now|]. intros t2.
  apply adds_bind; [apply inner_rerankDocuments|]. intros [reranked|e];
    [|apply inner_retrievalFailed].
  apply adds_bind; [apply adds_now|]. intros t3.
  apply adds_tryCatch; [|intros e; apply inner_retrievalFailed].
  apply adds_bind; [by apply adds_onProgress|]. intros _. apply adds_ret.
Qed.

Lemma inner_safeModelCall model messages :
  adds inner (safeModelCall H model messages).
Proof. by apply adds_safeModelCall. Qed.

Lemma inner_addTokenUsage result total :
  adds inner (addTokenUsage H result total).
Proof.
  unfold addTokenUsage. destruct (tokenUsage result); [|apply adds_ret].
  apply adds_bind; [by apply adds_onProgress|]. intros _. apply adds_ret.
Qed.

Lemma inner_scoreAnswer tc answer task total tokens :
  adds inner (scoreAnswer H config tc answer task total tokens).
Proof.
  unfold scoreAnswer.
  apply adds_bind; [by apply adds_onProgress|]. intros _.
  apply adds_bind; [apply adds_throwIfCancelled|]. intros _.
  apply adds_bind; [apply inner_safeModelCall|]. intros r.
  apply adds_bind; [apply inner_addTokenUsage|]. intros t.
  apply adds_bind; [|intros; apply adds_ret].
  destruct (success r); [apply adds_ret|].
  apply adds_bind; [by apply adds_onProgress|]. intros _. apply adds_ret.
Qed.

Lemma inner_recordAnswer loop total tc s r workResult :
  adds inner (recordAnswer H config loop total tc s r workResult).
Proof.
  unfold recordAnswer.
  apply adds_bind; [apply inner_addTokenUsage|]. intros t.
  apply adds_bind.
  { destruct (success workResult); [apply adds_ret|by apply adds_onProgress]. }
  intros _. apply adds_bind; [by apply adds_disk|]. intros _.
  apply adds_bind; [by apply adds_onProgress|]. intros _.
  apply adds_bind.
  { destruct (success workResult); [apply inner_scoreAnswer|apply adds_ret]. }
  intros sc. apply adds_bind; [by apply adds_onProgress|]. intros _.
  apply adds_ret.
Qed.

Lemma onProgress_run e w :
  onProgress H e w
  = if aborted H w then (Threw CANCELLED, w)
    else (Returned tt, {| ticks := ticks w; history := history w ++ [Enqueue e] |}).
Proof.
  unfold onProgress. rewrite bind_run. unfold isCancelled.
  by destruct (aborted H w).
Qed.


(** The abort signal, once seen, stays. *)
Lemma aborted_mono w w' :
  ticks w <= ticks w' -> aborted H w = true -> aborted H w' = true.
Proof.
  unfold aborted. destruct (abortAt H) as [t|]; [|done].
  intros Hle Ha. apply Nat.leb_le in Ha. apply Nat.leb_le. lia.
Qed.

(** What [recordAnswer] puts into the result entry. *)
Lemma recordAnswer_entry loop total tc s r workResult w entry total' w' :
  recordAnswer H config loop total tc s r workResult w
  = (Returned (entry, total'), w') ->
  entry_id entry = tc_id tc
  /\ entry_question entry = tc_question tc
  /\ standardAnswer entry = tc_answer tc
  /\ maxScore entry = tc_score tc
  /\ modelAnswer entry = answerOf workResult
  /\ entry_error entry = error workResult
  /\ (success workResult = false -> entry_score entry = 0%Z).
Proof.
  unfold recordAnswer. intros Hrun.
  do 5 bind_step Hrun.
  match goal with
  | Hsc : (if success workResult then _ else _) _ = (Returned ?sc, _) |- _ =>
      rename Hsc into Hscored
  end.
  bind_step Hrun. injection Hrun as <- _ _. simpl.
  repeat split; try done.
  intros Hs. rewrite Hs in Hscored. by injection Hscored as <- _.
Qed.


Lemma inner_answerRest loop tc :
  adds inner
    (onProgress H (EvLog (Retrieving (tc_id tc)));;
     r ← retrieve H config tc;
     throwIfCancelled H;;
     disk H (AppendToLogFile loop (questionLog tc));;
     workResult ← safeModelCall H (workModel config)
                    (userMessage (augmentedPrompt r));
     mret (r, workResult)).
Proof.
  apply adds_bind; [by apply adds_onProgress|]. intros _.
  apply adds_bind; [apply inner_retrieve|]. intros r.
  apply adds_bind; [apply adds_throwIfCancelled|]. intros _.
  apply adds_bind; [by apply adds_disk|]. intros _.
  apply adds_bind; [apply inner_safeModelCall|]. intros wr. apply adds_ret.
Qed.

Lemma runTestCase_run loop total tc s w :
  CaseRun H loop total tc s w (runTestCase H config loop total tc s w).
Proof.
  unfold runTestCase. rewrite bind_run.
  unfold answerQuestion at 1. rewrite bind_run, onProgress_run.
  destruct (aborted H w) eqn:Hab; [by constructor|].
  match goal with
  | |- context [(?rest) {| ticks := ticks w; history := ?h |}] =>
      destruct (inner_answerRest loop tc {| ticks := ticks w; history := h |})
        as (seg1 & Hh1 & Ht1 & Hf1);
      destruct (rest {| ticks := ticks w; history := h |})
        as [[[r wr]|e] w1] eqn:Hrest
  end; simpl in Hh1, Ht1; rewrite <- app_assoc in Hh1; simpl in Hh1.
  2:{ eapply case_threw; eauto. }
  rewrite bind_run.
  destruct (inner_recordAnswer loop total tc s r wr w1) as (seg2 & Hh2 & Ht2 & Hf2).
  simpl. destruct (recordAnswer H config loop total tc s r wr w1)
    as [[[entry total']|e] w2] eqn:Hrec; simpl in Hh2, Ht2 |- *.
  2:{ apply (case_threw _ _ _ _ _ _ _ _ (seg1 ++ seg2));
        [done| |by apply Forall_app|lia].
      rewrite Hh2, Hh1, <- app_assoc. done. }
  rewrite bind_run. unfold disk at 1.
  destruct (diskError H (ticks w2)) eqn:Hd.
  { apply (case_threw _ _ _ _ _ _ _ _ (seg1 ++ seg2));
      [done| |by apply Forall_app|simpl; lia].
    simpl. rewrite Hh2, Hh1, <- app_assoc. done. }
  rewrite bind_run. unfold sleep. rewrite bind_run. simpl.
  apply recordAnswer_entry in Hrec as (Hid & _).
  apply (case_written _ _ _ _ _ _ _ (seg1 ++ seg2));
    [done| |by apply Forall_app|simpl; lia|done].
  simpl. rewrite Hh2, Hh1. by rewrite <- !app_assoc.
Qed.

End Inner.

End OrchestratorFacts.

Module PersistenceFacts.
Import Orchestrator OrchestratorFacts.
Open Scope list_scope.

(** *** Observing a history as it grows *)

Lemma resultsFile_snoc h a loop :
  resultsFile (h ++ [a]) loop
  = match a with
    | WriteResults l es => if (l =? loop)%nat then Some es else resultsFile h loop
    | _ => resultsFile h loop
    end.
Proof.
  unfold resultsFile. rewrite omap_app.
  destruct a as [| | | | | |l es| | | | |]; simpl; rewrite ?app_nil_r; try done.
  destruct (l =? loop)%nat; simpl; [by rewrite last_snoc|by rewrite app_nil_r].
Qed.



(** *** The monitor of the results file *)

Section Monitor.

Variable cases : list TestCase.



Lemma runs_silent m seg : Forall silent seg -> runs cases m seg m.
Proof.
  induction 1; [constructor|]. econstructor; [by apply mstep_silent|done].
Qed.

Lemma inner_silent a : inner a -> silent a.
Proof. by destruct a as [[]| | | | | | | | | | |]. Qed.

Lemma runs_inner m seg : Forall inner seg -> runs cases m seg m.
Proof.
  intros Hf. apply runs_silent. eapply Forall_impl; [done|].
  apply inner_silent.
Qed.







Lemma tracked_inner {A} (c : M A) m :
  adds inner c -> tracked cases c m (fun m' _ => m' = m).
Proof.
  intros Hc w. destruct (Hc w) as (seg & Hh & _ & Hf).
  exists seg, m. split; [done|]. split; [by apply runs_inner|done].
Qed.



Section Run.

Variable H : Host.
Variable config : Config.
Hypothesis cases_config : cases = testCases config.








End Run.

End Monitor.

End PersistenceFacts.

Module PersistenceSpec.
Import Orchestrator OrchestratorFacts PersistenceFacts.
Open Scope list_scope.

Lemma runTestCase_written H config loop total tc s w s' w' :
  runTestCase H config loop total tc s w = (Returned s', w') ->
  resultsFile (history w') loop = Some (qaResults s')
  /\ exists e, qaResults s' = qaResults s ++ [e] /\ entry_id e = tc_id tc.
Proof.
  intros Hrun. pose proof (runTestCase_run H config loop total tc s w) as Hc.
  rewrite Hrun in Hc.
  inversion Hc as [|? ? ? ? ? ? ?|? seg entry total' Hab Hh Hin Ht Hid]; subst.
  simpl. split; [|by exists entry].
  rewrite Hh.
  replace (history w ++ Enqueue (EvUpdate (Answering (tc_id tc))
                                   (S (currentTask s)) total)
           :: seg ++ [WriteResults loop (qaResults s ++ [entry]); SetTimeout 1500])
    with (((history w ++ Enqueue (EvUpdate (Answering (tc_id tc))
                                    (S (currentTask s)) total) :: seg)
           ++ [WriteResults loop (qaResults s ++ [entry])])
          ++ [SetTimeout 1500]).
  - rewrite !resultsFile_snoc. by rewrite Nat.eqb_refl.
  - rewrite <- !app_assoc. simpl. by rewrite <- ?app_assoc.
Qed.



End PersistenceSpec.

Module RetryFacts.
Import Orchestrator OrchestratorFacts.
Open Scope list_scope.

Section Retry.

Variable H : Host.

(** [safeModelCall], attempt by attempt. *)
Lemma safeModelCall_run model messages w :
  let t := ticks w in
  let call := HandleChat model messages in
  let o1 := handleChat H t model messages in
  let o2 := handleChat H (2 + t) model messages in
  let o3 := handleChat H (4 + t) model messages in
  safeModelCall H model messages w
  = match o1 with
    | Returned (Some r) =>
        (Returned (succeeded r),
         {| ticks := 1 + t; history := history w ++ attempts call 0 |})
    | _ =>
        match o2 with
        | Returned (Some r) =>
            (Returned (succeeded r),
             {| ticks := 3 + t; history := history w ++ attempts call 1 |})
        | _ =>
            (Returned (match o3 with
                       | Returned (Some r) => succeeded r
                       | _ => failedWith (lastFailure o3)
                       end),
             {| ticks := 5 + t; history := history w ++ attempts call 2 |})
        end
    end.
Proof.
  intros t call o1 o2 o3. unfold safeModelCall.
  unfold safeModelCallFrom, sleep, chat, act, tick, mbind, M_bind, mret, M_ret.
  unfold succeeded, failedWith, lastFailure. simpl. fold t. fold o1.
  destruct o1 as [[r1|]|e1]; simpl; try done;
    change (handleChat H (S (S t)) model messages) with o2;
    (destruct o2 as [[r2|]|e2]; simpl; [by rewrite <- !app_assoc| |]);
    change (handleChat H (S (S (S (S t)))) model messages) with o3;
    rewrite <- !app_assoc; simpl; by destruct o3 as [[r3|]|e3].
Qed.

End Retry.




Section Calm.

Variable H : Host.
Variable config : Config.
Hypothesis no_abort : abortAt H = None.
Hypothesis disk_ok : forall t, diskError H t = None.

Lemma never_aborted w : aborted H w = false.
Proof. unfold aborted. by rewrite no_abort. Qed.












End Calm.

End RetryFacts.

Module RetrySpec.
Import Orchestrator OrchestratorFacts RetryFacts.
Open Scope list_scope.






End RetrySpec.

Module RetrievalFacts.
Import Orchestrator OrchestratorFacts RetryFacts.
Open Scope list_scope.

Section Retrieval.

Variable H : Host.
Variable config : Config.
Hypothesis no_abort : abortAt H = None.

Lemma onProgress_calm e w :
  onProgress H e w
  = (Returned tt, {| ticks := ticks w; history := history w ++ [Enqueue e] |}).
Proof. by rewrite onProgress_run, never_aborted. Qed.




End Retrieval.


End RetrievalFacts.

Module RetrievalSpec.
Import Orchestrator OrchestratorFacts PersistenceFacts RetryFacts RetrievalFacts.
Open Scope list_scope.



End RetrievalSpec.

Module CancellationFacts.
Import Orchestrator OrchestratorFacts PersistenceFacts PersistenceSpec.
Open Scope list_scope.

Lemma inner_ordinary bound a : inner a -> ordinary bound a.
Proof. by destruct a as [[]| | | | | | | | | | |]. Qed.

Lemma ordinary_mono b1 b2 a : b1 <= b2 -> ordinary b1 a -> ordinary b2 a.
Proof. destruct a as [[]| | | | | | | | | | |]; simpl; try done. lia. Qed.

Lemma adds_weaken (P Q : Action -> Prop) {A} (c : M A) :
  (forall a, P a -> Q a) -> adds P c -> adds Q c.
Proof.
  intros HPQ Hc w. destruct (Hc w) as (seg & Hh & Ht & Hf).
  exists seg. split; [done|]. split; [done|]. by eapply Forall_impl.
Qed.

Lemma ordinary_resultsFile bound h l :
  Forall (ordinary bound) h -> bound <= l -> resultsFile h l = None.
Proof.
  intros Hf Hle. induction h as [|a h IH] using rev_ind; [done|].
  apply Forall_app in Hf as [Hh Ha]. rewrite resultsFile_snoc.
  destruct a as [| | | | | |l' es| | | | |]; try by apply IH.
  apply Forall_inv in Ha. simpl in Ha.
  destruct (Nat.eqb_spec l' l); [lia|by apply IH].
Qed.

Lemma ordinary_no_done bound h m :
  Forall (ordinary bound) h -> ~ In (EvDone m) (streamOf h).
Proof.
  intros Hf Hin. unfold streamOf in Hin.
  apply list_elem_of_In, list_elem_of_omap in Hin as (a & Ha & Hs).
  rewrite Forall_forall in Hf. specialize (Hf a Ha).
  destruct a as [e| | | | | | | | | | |]; try done. by injection Hs as ->.
Qed.

Section Cancel.

Variable H : Host.
Variable config : Config.

Lemma ordinary_runTestCase loop total tc s :
  adds (ordinary (S loop)) (runTestCase H config loop total tc s).
Proof.
  intros w.
  destruct (runTestCase_run H config loop total tc s w)
    as [Hab|e w' seg Hab Hh Hin Ht|w' seg entry total' Hab Hh Hin Ht Hid].
  - exists []. rewrite app_nil_r. by repeat split.
  - eexists. split; [exact Hh|]. split; [done|].
    constructor; [done|]. eapply Forall_impl; [done|]. apply inner_ordinary.
  - eexists. split; [exact Hh|]. split; [done|].
    constructor; [done|]. apply Forall_app. split.
    + eapply Forall_impl; [done|]. apply inner_ordinary.
    + repeat constructor.
Qed.

Lemma ordinary_runLoop total loop counters :
  adds (ordinary (S loop)) (runLoop H config total loop counters).
Proof.
  unfold runLoop.
  apply adds_bind; [apply adds_throwIfCancelled|]. intros _.
  apply adds_bind; [by apply adds_disk|]. intros _.
  apply adds_bind; [by apply adds_disk|]. intros _.
  apply adds_bind; [|intros; apply adds_ret].
  apply adds_forEach. intros. apply ordinary_runTestCase.
Qed.

Lemma ordinary_loops total a n counters :
  adds (ordinary (a + n))
       (forEach (runLoop H config total) (seq a n) counters).
Proof.
  revert a counters. induction n as [|n IH]; intros a counters; simpl.
  - apply adds_ret.
  - apply adds_bind.
    + eapply adds_weaken; [|apply ordinary_runLoop].
      intros x. apply ordinary_mono. lia.
    + intros c. replace (a + S n) with (S a + n) by lia. apply IH.
Qed.

Lemma runTestCase_cancelled loop total tc s w :
  aborted H w = true ->
  runTestCase H config loop total tc s w = (Threw CANCELLED, w).
Proof.
  intros Hab. unfold runTestCase, answerQuestion.
  by rewrite !bind_run, onProgress_run, Hab.
Qed.

(** Test cases that have all returned have left their entries, in order,
    and the last of them has left the file. *)
Lemma forEach_returned loop total xs s w s' w' :
  forEach (runTestCase H config loop total) xs s w = (Returned s', w') ->
  map entry_id (qaResults s') = map entry_id (qaResults s) ++ map tc_id xs
  /\ match xs with
     | [] => w' = w
     | _ => resultsFile (history w') loop = Some (qaResults s')
     end.
Proof.
  revert s w. induction xs as [|tc xs IH]; intros s w Hrun.
  - injection Hrun as <- <-. by rewrite app_nil_r.
  - cbn [forEach] in Hrun. rewrite bind_run in Hrun.
    destruct (runTestCase H config loop total tc s w) as [[s1|e1] w1] eqn:Hc;
      [|discriminate Hrun].
    match goal with
    | Hc : runTestCase _ _ _ _ _ _ _ = (Returned ?s1, ?w1) |- _ =>
        apply runTestCase_written in Hc as (Hfile & e & Hqa & Hid);
        destruct (IH s1 w1 Hrun) as (Hids & Hlast)
    end.
    split.
    + rewrite Hids, Hqa, map_app. simpl. by rewrite Hid, <- app_assoc.
    + destruct xs; [by injection Hrun as <- <-|done].
Qed.

Lemma forEach_split {A S} (body : A -> S -> M S) xs k s w :
  forEach body xs s w
  = (forEach body (take k xs) s ≫= forEach body (drop k xs)) w.
Proof. by rewrite <- forEach_app, take_drop. Qed.

(** What a run has added when it has reached a test case of a loop. *)
Lemma ordinary_reach loop k :
  1 <= loop ->
  adds (ordinary (match k with 0 => loop | _ => S loop end))
       (reachCase H config loop k).
Proof.
  intros Hl. unfold reachCase. cbv zeta.
  assert (forall a, ordinary loop a ->
                    ordinary (match k with 0 => loop | _ => S loop end) a)
    as Hup.
  { intros a. apply ordinary_mono. destruct k; lia. }
  apply adds_bind; [by apply adds_disk, Hup|]. intros _.
  apply adds_bind; [by apply adds_sendEvent, Hup|]. intros _.
  apply adds_bind; [by apply adds_onProgress, Hup|]. intros _.
  apply adds_bind.
  { eapply adds_weaken; [|apply ordinary_loops].
    intros x Hx. apply Hup. revert Hx. apply ordinary_mono. lia. }
  intros c. apply adds_bind; [apply adds_throwIfCancelled|]. intros _.
  apply adds_bind; [by apply adds_disk, Hup|]. intros _.
  apply adds_bind; [by apply adds_disk, Hup|]. intros _.
  destruct k as [|k]; [apply adds_ret|].
  apply adds_forEach. intros. apply ordinary_runTestCase.
Qed.

(** What has been reached: the entries of the first [k] test cases, which
    the results file holds if there are any. *)
Lemma reach_entries loop k s w :
  k < length (testCases config) ->
  reachCase H config loop k initialWorld = (Returned s, w) ->
  map entry_id (qaResults s) = map tc_id (take k (testCases config))
  /\ length (qaResults s) = k
  /\ (k <> 0 -> resultsFile (history w) loop = Some (qaResults s)).
Proof.
  intros Hk Hreach. unfold reachCase in Hreach. cbv zeta in Hreach.
  do 7 bind_step Hreach.
  apply forEach_returned in Hreach as (Hids & Hfile). simpl in Hids.
  split; [done|]. split.
  - apply (f_equal length) in Hids. rewrite !length_map, length_take in Hids.
    lia.
  - intros Hk0. destruct (take k (testCases config)) eqn:Ht; [|done].
    apply (f_equal length) in Ht. rewrite length_take in Ht. simpl in Ht. lia.
Qed.

End Cancel.

End CancellationFacts.

Module CancellationSpec.
Import Orchestrator OrchestratorFacts PersistenceFacts PersistenceSpec.
Import CancellationFacts.
Open Scope list_scope.

(** The run reaches the point where [k] test cases of [loop] are done and
    finds the abort signal there: the next test case throws before it does
    anything, and the [catch] block reports it. *)
Lemma POST_cancelled H config loop k s w :
  1 <= loop <= loopCount config ->
  k < length (testCases config) ->
  reachCase H config loop k initialWorld = (Returned s, w) ->
  aborted H w = true ->
  POST H config initialWorld
  = (Returned tt,
     {| ticks := ticks w;
        history := history w ++ [Enqueue CANCELLED_FRAME; CloseStream] |}).
Proof.
  intros Hl Hk Hreach Hab. unfold reachCase in Hreach. cbv zeta in Hreach.
  bind_step Hreach. rename Heqp into E1.
  bind_step Hreach. rename Heqp into E2.
  bind_step Hreach. rename Heqp into E3.
  bind_step Hreach. rename Heqp into E4.
  bind_step Hreach. rename Heqp into E5.
  bind_step Hreach. rename Heqp into E6.
  bind_step Hreach. rename Heqp into E7.
  unfold POST, tryBlock, runTask. cbv zeta.
  rewrite bind_run. unfold tryCatch.
  rewrite bind_run, E1, bind_run, E2, bind_run, bind_run, E3, bind_run.
  replace (seq 1 (loopCount config))
    with (seq 1 (loop - 1) ++ loop :: seq (S loop) (loopCount config - loop)).
  2:{ replace (loopCount config) with ((loop - 1) + S (loopCount config - loop))
        at 2 by lia.
      rewrite seq_app. simpl. do 3 f_equal; lia. }
  rewrite forEach_app, bind_run, E4. cbn [forEach].
  rewrite bind_run. unfold runLoop at 1.
  rewrite bind_run, E5, bind_run, E6, bind_run, E7, bind_run.
  rewrite (forEach_split _ _ k), bind_run, Hreach.
  destruct (drop k (testCases config)) as [|tc rest] eqn:Hdrop.
  { apply (f_equal length) in Hdrop. rewrite length_drop in Hdrop.
    simpl in Hdrop. lia. }
  cbn [forEach]. rewrite bind_run, runTestCase_cancelled by done.
  unfold catchBlock. rewrite String.eqb_refl.
  unfold sendEvent, act. cbn [ticks history]. by rewrite <- app_assoc.
Qed.

Lemma stream_last h e : last (streamOf (h ++ [Enqueue e; CloseStream])) = Some e.
Proof.
  unfold streamOf. rewrite omap_app. simpl. by rewrite last_snoc.
Qed.

Lemma ordinary_no_error bound h m :
  Forall (ordinary bound) h -> ~ In (EvError m) (streamOf h).
Proof.
  intros Hf Hin. unfold streamOf in Hin.
  apply list_elem_of_In, list_elem_of_omap in Hin as (a & Ha & Hs).
  rewrite Forall_forall in Hf. specialize (Hf a Ha).
  destruct a as [e| | | | | | | | | | |]; try done. by injection Hs as ->.
Qed.

(** What the stream has taken is part of what was sent. *)
Lemma onStream_sent cancelledAfter h e :
  In e (onStream cancelledAfter h) -> In e (streamOf h).
Proof.
  destruct cancelledAfter as [n|]; [|done]. simpl. intros Hin.
  rewrite <- (take_drop n h). unfold streamOf. rewrite omap_app.
  apply in_or_app. by left.
Qed.

(** C1, amended.  When the run has completed [k] test cases of a loop
    (fewer than there are) and the abort signal is up at that point, the
    next test case throws at once: the run does nothing more than send
    one frame of type [error] with the fixed cancellation message and
    call [controller.close()], so that frame is the last one it sends
    and it sends no [done] frame; the results file of the loop holds
    exactly the [k] entries of the completed test cases, in order (no
    file when [k = 0]).  The stream takes no [done] frame either, and it
    takes the cancellation frame, as its last frame, exactly when its
    consumer has not cancelled it before the frame is sent: a stream
    cancelled by then holds no [error] frame at all. *)
Theorem cancellation_between_cases (H : Host) (config : Config)
    (loop k : nat) (s : Locals) (w : World) :
  1 <= loop <= loopCount config ->
  k < length (testCases config) ->
  reachCase H config loop k initialWorld = (Returned s, w) ->
  aborted H w = true ->
  let final := history (POST H config initialWorld).2 in
  final = history w ++ [Enqueue CANCELLED_FRAME; CloseStream]
  /\ resultsFile final loop
     = match k with 0 => None | _ => Some (qaResults s) end
  /\ map entry_id (qaResults s) = map tc_id (take k (testCases config))
  /\ length (qaResults s) = k
  /\ last (streamOf final) = Some CANCELLED_FRAME
  /\ isErrorEvent CANCELLED_FRAME = true
  /\ (forall m, ~ In (EvDone m) (streamOf final))
  /\ (forall cancelledAfter,
        (forall m, ~ In (EvDone m) (onStream cancelledAfter final))
        /\ (last (onStream cancelledAfter final) = Some CANCELLED_FRAME
            <-> forall n, cancelledAfter = Some n -> length (history w) < n)
        /\ (forall n m,
              cancelledAfter = Some n -> n <= length (history w) ->
              ~ In (EvError m) (onStream cancelledAfter final))).
Proof.
  intros Hl Hk Hreach Hab final.
  assert (final = history w ++ [Enqueue CANCELLED_FRAME; CloseStream]) as Hf.
  { unfold final. by rewrite (POST_cancelled H config loop k s w). }
  destruct (reach_entries H config loop k s w Hk Hreach) as (Hids & Hlen & Hfile).
  destruct (ordinary_reach H config loop k (proj1 Hl) initialWorld)
    as (seg & Hh & _ & Hord).
  rewrite Hreach in Hh. simpl in Hh. rewrite <- Hh in Hord.
  assert (forall m, ~ In (EvDone m)
                      (streamOf (history w
                                 ++ [Enqueue CANCELLED_FRAME; CloseStream])))
    as Hnodone.
  { intros m Hin. unfold streamOf in Hin. rewrite omap_app in Hin.
    apply in_app_or in Hin as [Hin|[Hin|[]]]; [|done].
    by eapply ordinary_no_done. }
  assert (forall n m, n <= length (history w) ->
            ~ In (EvError m)
                (onStream (Some n)
                   (history w ++ [Enqueue CANCELLED_FRAME; CloseStream])))
    as Hearly.
  { intros n m Hn. simpl. rewrite take_app_le by done.
    eapply ordinary_no_error. by apply Forall_take. }
  split; [done|]. rewrite Hf.
  split; [|split; [done|split; [done|split; [apply stream_last|split; [done|]]]]].
  - replace (history w ++ [Enqueue CANCELLED_FRAME; CloseStream])
      with ((history w ++ [Enqueue CANCELLED_FRAME]) ++ [CloseStream])
      by (by rewrite <- app_assoc).
    rewrite !resultsFile_snoc. destruct k as [|k]; [|by apply Hfile].
    by eapply ordinary_resultsFile.
  - split; [exact Hnodone|]. intros cancelledAfter.
    split; [intros m Hin; by apply (Hnodone m), (onStream_sent cancelledAfter)|].
    split; [|by intros n m ->; apply Hearly].
    destruct cancelledAfter as [n|].
    2:{ split; [done|]. intros _. apply stream_last. }
    destruct (Nat.le_gt_cases n (length (history w))) as [Hn|Hn].
    + split.
      * intros Hlast. exfalso. apply last_Some in Hlast as [front Hfront].
        apply (Hearly n "任务已被用户取消。"%string Hn).
        rewrite Hfront. apply in_or_app. right. by left.
      * intros Hall. specialize (Hall n eq_refl). lia.
    + split; [by intros _ n' [= <-]|]. intros _. simpl.
      rewrite take_app_ge by lia.
      destruct (n - length (history w)) as [|[|d]] eqn:Hd; [lia| |];
        simpl; rewrite ?take_nil; unfold streamOf; rewrite omap_app; simpl;
        by rewrite last_snoc.
Qed.

(** The five-case run cancelled while its second test case pauses. *)
Lemma cancellation_between_cases_witness :
  1 <= 1 <= loopCount fiveCases
  /\ 2 < length (testCases fiveCases)
  /\ reachCase (healthyHost (Some 21)) fiveCases 1 2 initialWorld
     = (Returned twoDoneLocals, twoDone.2)
  /\ aborted (healthyHost (Some 21)) twoDone.2 = true
  /\ cancelledRun
     = history twoDone.2 ++ [Enqueue CANCELLED_FRAME; CloseStream]
  /\ resultsFile cancelledRun 1 = Some (qaResults twoDoneLocals)
  /\ map entry_id (qaResults twoDoneLocals) = [1; 2]%Z
  /\ last (streamOf cancelledRun) = Some CANCELLED_FRAME.
Proof.
  assert (1 <= 1 <= loopCount fiveCases) as Hloop by (simpl; lia).
  assert (2 < length (testCases fiveCases)) as Hk by (simpl; lia).
  assert (reachCase (healthyHost (Some 21)) fiveCases 1 2 initialWorld
          = (Returned twoDoneLocals, twoDone.2)) as Hreach
    by (vm_compute; reflexivity).
  assert (aborted (healthyHost (Some 21)) twoDone.2 = true) as Hab
    by (vm_compute; reflexivity).
  destruct (cancellation_between_cases (healthyHost (Some 21)) fiveCases 1 2
              twoDoneLocals twoDone.2 Hloop Hk Hreach Hab)
    as (Hfinal & Hfile & Hids & _ & Hlast & _).
  split; [exact Hloop|]. split; [exact Hk|]. split; [exact Hreach|].
  split; [exact Hab|]. split; [exact Hfinal|]. split; [exact Hfile|].
  split; [exact Hids|exact Hlast].
Defined.

(** C1, as stated, fails in its last part: in the run over five test
    cases whose client aborts while the second one pauses after its
    write, the results file holds the entries of the first two test
    cases, and the last frame the run sends, which is the last frame of
    the stream when its consumer reads to the end, is of type [error],
    the one type the handler has for every failure. *)
Lemma cancellation_ends_with_an_error_frame :
  map entry_id (default [] (resultsFile cancelledRun 1)) = [1; 2]%Z
  /\ startedCases cancelledRun = 2
  /\ last (streamOf cancelledRun) = Some (EvError "任务已被用户取消。")
  /\ (exists e, last (streamOf cancelledRun) = Some e /\ isErrorEvent e = true)
  /\ last (onStream None cancelledRun) = Some (EvError "任务已被用户取消。").
Proof.
  split; [vm_compute; reflexivity|]. split; [vm_compute; reflexivity|].
  split; [vm_compute; reflexivity|].
  split; [|vm_compute; reflexivity].
  eexists. split; [vm_compute; reflexivity|reflexivity].
Qed.

End CancellationSpec.

Module StringFacts.
Local Open Scope string_scope.

Lemma append_nil (t : string) : "" +:+ t = t.
Proof. done. Qed.

Lemma append_cons c (s t : string) : String c s +:+ t = String c (s +:+ t).
Proof. done. Qed.

Lemma append_nil_r (t : string) : t +:+ "" = t.
Proof. induction t as [|c t IH]; [done|]. by rewrite append_cons, IH. Qed.

Lemma append_assoc (a b c : string) : (a +:+ b) +:+ c = a +:+ b +:+ c.
Proof.
  induction a as [|x a IH]; [done|]. by rewrite !append_cons, IH.
Qed.

End StringFacts.

Module ModelServiceFacts.
Import ModelService StringFacts.
Open Scope string_scope.

Lemma substring_all t : String.substring 0 (String.length t) t = t.
Proof. induction t as [|d t IH]; simpl; [done|]. by rewrite IH. Qed.

Lemma indexOfColon_bound s i : indexOfColon s = Some i -> i < String.length s.
Proof.
  revert i. induction s as [|c s IH]; intros i; simpl; [done|].
  destruct (Ascii.eqb c ":"); [intros [= <-]; lia|].
  destruct (indexOfColon s) as [j|]; [|done].
  intros [= <-]. specialize (IH j eq_refl). lia.
Qed.

(** The first colon cuts the string into what stands before it, which
    holds no colon, and what stands behind it. *)
Lemma indexOfColon_cut s i :
  indexOfColon s = Some i ->
  s = String.substring 0 i s +:+ ":"
      +:+ String.substring (S i) (String.length s - S i) s
  /\ indexOfColon (String.substring 0 i s) = None
  /\ String.length (String.substring 0 i s) = i
  /\ String.length (String.substring (S i) (String.length s - S i) s)
     = String.length s - S i.
Proof.
  revert i. induction s as [|c s IH]; intros i; simpl; [done|].
  destruct (Ascii.eqb_spec c ":") as [->|Hc].
  - intros [= <-]. simpl. rewrite Nat.sub_0_r, substring_all.
    by rewrite append_nil.
  - destruct (indexOfColon s) as [j|] eqn:Hj; [|done].
    intros [= <-]. destruct (IH j eq_refl) as (Hs & Hno & Hl1 & Hl2).
    apply Ascii.eqb_neq in Hc.
    split; [simpl; rewrite append_cons; f_equal; exact Hs|].
    split; [simpl; by rewrite Hc, Hno|].
    split; [simpl; by rewrite Hl1|exact Hl2].
Qed.

Lemma indexOfColon_app p m :
  indexOfColon p = None ->
  indexOfColon (p +:+ ":" +:+ m) = Some (String.length p).
Proof.
  induction p as [|c p IH]; [done|]. rewrite append_cons. simpl.
  destruct (Ascii.eqb c ":"); [done|].
  destruct (indexOfColon p); [done|]. intros _. by rewrite IH.
Qed.

Lemma substring_app_l p r : String.substring 0 (String.length p) (p +:+ r) = p.
Proof.
  induction p as [|c p IH]; [rewrite append_nil; by destruct r|].
  rewrite append_cons. simpl. by rewrite IH.
Qed.

Lemma substring_app_r p r :
  String.substring (String.length p) (String.length r) (p +:+ r) = r.
Proof.
  induction p as [|c p IH]; [rewrite append_nil; apply substring_all|].
  rewrite append_cons. exact IH.
Qed.

Lemma length_app_colon p m :
  String.length (p +:+ ":" +:+ m) = S (String.length p + String.length m).
Proof.
  induction p as [|c p IH]; [done|]. rewrite append_cons. simpl. by rewrite IH.
Qed.

Lemma append_colon_assoc p m : (p +:+ ":") +:+ m = p +:+ ":" +:+ m.
Proof.
  induction p as [|c p IH]; [done|]. rewrite !append_cons. by rewrite IH.
Qed.

Lemma length_append_colon p : String.length (p +:+ ":") = S (String.length p).
Proof.
  induction p as [|c p IH]; [done|]. rewrite append_cons. simpl. by rewrite IH.
Qed.

Lemma eqb_empty s : String.eqb s "" = true <-> s = "".
Proof. by destruct s. Qed.

End ModelServiceFacts.

Module ModelServiceSpec.
Import ModelService StringFacts ModelServiceFacts.
Open Scope string_scope.

(** X1.  [parseModelSelection] returns a provider and a model exactly for
    the strings [provider:model] with a provider that is not empty and
    holds no colon and a model that is not empty (and may hold colons): it
    returns these two, cut at the first colon. *)
Theorem parseModelSelection_returns (selectedValue : string)
    (r : ModelSelection) :
  parseModelSelection selectedValue = Returned r
  <-> provider r <> "" /\ model r <> ""
      /\ indexOfColon (provider r) = None
      /\ selectedValue = provider r +:+ ":" +:+ model r.
Proof.
  unfold parseModelSelection. split.
  - destruct (String.eqb selectedValue "") eqn:He; [done|].
    destruct (indexOfColon selectedValue) as [i|] eqn:Hi; [|done].
    destruct (Nat.eqb_spec i 0) as [->|Hi0]; [done|].
    destruct (Nat.eqb_spec i (String.length selectedValue - 1)) as [->|Hlast];
      [done|].
    simpl. intros [= <-]. simpl.
    pose proof (indexOfColon_bound _ _ Hi) as Hb.
    destruct (indexOfColon_cut _ _ Hi) as (Hs & Hno & Hl1 & Hl2).
    repeat split; try done.
    + intros Hp. rewrite Hp in Hl1. simpl in Hl1. lia.
    + intros Hm. rewrite Hm in Hl2. simpl in Hl2. lia.
  - intros (Hp & Hm & Hno & ->). destruct r as [p m]. simpl in *.
    destruct (String.eqb (p +:+ ":" +:+ m) "") eqn:He.
    { apply eqb_empty in He. by destruct p. }
    rewrite (indexOfColon_app _ _ Hno), length_app_colon.
    destruct (Nat.eqb_spec (String.length p) 0) as [H0|_].
    { by destruct p. }
    destruct (Nat.eqb_spec (String.length p)
                (S (String.length p + String.length m) - 1)) as [Hl|_].
    { destruct m; [done|simpl in Hl; lia]. }
    simpl. f_equal. f_equal.
    + apply substring_app_l.
    + replace (String.length p + String.length m - String.length p)
        with (String.length m) by lia.
      rewrite <- append_colon_assoc, <- length_append_colon.
      apply substring_app_r.
Qed.

(** X2.  On every other string it throws: the empty string gets the
    message for an empty value, and a string without a colon, with a
    colon at its head, or whose first colon is its last character gets
    the message that quotes it. *)
Theorem parseModelSelection_throws (selectedValue e : string) :
  parseModelSelection selectedValue = Threw e
  <-> (selectedValue = "" /\ e = EMPTY_SELECTION)
      \/ (selectedValue <> "" /\ e = badSelection selectedValue
          /\ (indexOfColon selectedValue = None
              \/ indexOfColon selectedValue = Some 0
              \/ indexOfColon selectedValue
                 = Some (String.length selectedValue - 1))).
Proof.
  unfold parseModelSelection.
  destruct (String.eqb_spec selectedValue "") as [->|Hne].
  { split; [intros [= <-]; by left|]. intros [[_ ->]|[? _]]; done. }
  destruct (indexOfColon selectedValue) as [i|] eqn:Hi.
  2:{ split; [intros [= <-]; right; auto|]. intros [[? _]|(_ & -> & _)]; done. }
  destruct (Nat.eqb_spec i 0) as [->|Hi0]; simpl.
  { split; [intros [= <-]; right; auto|]. intros [[? _]|(_ & -> & _)]; done. }
  destruct (Nat.eqb_spec i (String.length selectedValue - 1)) as [->|Hlast].
  { split; [intros [= <-]; right; auto|]. intros [[? _]|(_ & -> & _)]; done. }
  split; [done|]. intros [[? _]|(_ & _ & [?|[[= ?]|[= ?]]])]; done.
Qed.

End ModelServiceSpec.

Module DbFactoryMoreFacts.
Import DbFactory DbFactoryFacts DbFactoryMore StringFacts.


Lemma hasHyphen_app (t x : string) : hasHyphen (t +:+ "-" +:+ x) = true.
Proof.
  induction t as [|c t IH]; [done|].
  change (String c t +:+ "-" +:+ x) with (String c (t +:+ "-" +:+ x)).
  simpl. rewrite IH. by destruct (Ascii.eqb c "-").
Qed.


End DbFactoryMoreFacts.

Module DbFactoryMoreSpec.
Import DbFactory DbFactoryFacts DbFactoryMore StringFacts DbFactoryMoreFacts.



(** X4.  A resolution that throws caches nothing, so the next resolution
    for the same key starts afresh: when it returns, its instance is a new
    object, made and initialised by that second call, and not the one
    whose [init()] may have failed in the first. *)
Theorem failed_resolution_is_retried (P : Process) (st st1 st2 : State)
    (dbType embeddingModel : option string) (e : string) (a : DataAccess) :
  getDbInstance P dbType embeddingModel st = (Threw e, st1) ->
  getDbInstance P dbType embeddingModel st1 = (Returned a, st2) ->
  dbInstancePool st1 = dbInstancePool st
  /\ instanceId a = allocated st1
  /\ allocated st <= instanceId a
  /\ initCalls st2 = initCalls st1 ++ [instanceId a]
  /\ initError P (instanceId a) = None
  /\ exists k, keyOf P dbType embeddingModel = Some k
               /\ dbInstancePool st !! k = None
               /\ dbInstancePool st2 = <[k := a]> (dbInstancePool st).
Proof.
  unfold getDbInstance, keyOf.
  destruct (truthy (orElse dbType _)) as [t'|]; [|done].
  destruct (truthy (orElse embeddingModel _)) as [m'|]; [|done].
  destruct (dbInstancePool st !! cacheKeyOf t' m') eqn:Hl; [done|].
  destruct (backendOfName t') as [b|] eqn:Hb;
    [|intros [= <- <-]; by rewrite Hl].
  destruct (constructorError P b embeddingModel) eqn:Hc;
    [intros [= <- <-]; by rewrite Hl|].
  destruct (initError P (allocated st)) eqn:Hi; [|done].
  intros [= <- <-]. simpl. rewrite Hl.
  destruct (initError P (S (allocated st))) eqn:Hi2; [done|].
  intros [= <- <-]. simpl. repeat split; try done; try lia.
  by exists (cacheKeyOf t' m').
Qed.

(** In a process whose first [init()] throws: the first resolution
    throws, the second returns the second object. *)
Lemma failed_resolution_is_retried_witness :
  let first := getDbInstance flakyProcess None None emptyState in
  let second := getDbInstance flakyProcess None None first.2 in
  first.1 = Threw "connection refused"%string
  /\ dbInstancePool first.2 = dbInstancePool emptyState
  /\ (exists a, second.1 = Returned a /\ instanceId a = 1)
  /\ initCalls second.2 = [0; 1].
Proof.
  intros first second.
  assert (getDbInstance flakyProcess None None emptyState
          = (Threw "connection refused"%string, first.2)) as H1
    by reflexivity.
  assert (getDbInstance flakyProcess None None first.2
          = (Returned {| instanceId := 1; backendOf := ChromaDB;
                         constructorArg := None |}, second.2)) as H2
    by reflexivity.
  destruct (failed_resolution_is_retried flakyProcess emptyState first.2
              second.2 None None _ _ H1 H2) as (Hpool & _ & _ & Hinit & _).
  split; [reflexivity|]. split; [exact Hpool|].
  split; [eexists; split; reflexivity|exact Hinit].
Defined.

(** X5.  The cache key joins type and model with a hyphen and so does
    not keep them apart: a resolution for the type [t-x] and the model [y]
    finds what is pooled for the type [t] and the model [x-y], and returns
    that instance, of the class of [t], although no class is registered
    for [t-x]. *)
Theorem cache_key_joins_type_and_model (P : Process) (st : State)
    (t x y : string) (a : DataAccess) :
  y <> ""%string ->
  dbInstancePool st !! cacheKeyOf t (x +:+ "-" +:+ y) = Some a ->
  backendOfName (t +:+ "-" +:+ x) = None
  /\ getDbInstance P (Some (t +:+ "-" +:+ x)) (Some y) st = (Returned a, st).
Proof.
  intros Hy Hk.
  assert (hasHyphen (t +:+ "-" +:+ x) = true) as Hh by apply hasHyphen_app.
  split.
  - unfold backendOfName.
    destruct (String.eqb_spec (t +:+ "-" +:+ x) "POSTGRES") as [E|_];
      [by rewrite E in Hh|].
    destruct (String.eqb_spec (t +:+ "-" +:+ x) "CHROMA") as [E|_];
      [by rewrite E in Hh|].
    destruct (String.eqb_spec (t +:+ "-" +:+ x) "GOOGLE") as [E|_];
      [by rewrite E in Hh|].
    done.
  - apply (getDbInstance_cached _ _ _ _ (cacheKeyOf t (x +:+ "-" +:+ y)));
      [|done].
    unfold keyOf, truthy, orElse.
    destruct (String.eqb_spec (t +:+ "-" +:+ x) "") as [E|_];
      [by rewrite E in Hh|].
    destruct (String.eqb_spec y "") as [E|_]; [done|].
    simpl. rewrite !(proj2 (String.eqb_neq _ _)); try done.
    + f_equal. unfold cacheKeyOf. by rewrite !append_assoc.
    + intros E. by rewrite E in Hh.
Qed.

(** What was pooled for [CHROMA] and [all-minilm] answers a resolution
    for the type [CHROMA-all] and the model [minilm]. *)
Lemma cache_key_joins_type_and_model_witness :
  dbInstancePool hyphenState !! cacheKeyOf "CHROMA" "all-minilm"
  = Some {| instanceId := 0; backendOf := ChromaDB;
            constructorArg := Some "all-minilm"%string |}
  /\ backendOfName "CHROMA-all" = None
  /\ getDbInstance quietProcess (Some "CHROMA-all"%string)
       (Some "minilm"%string) hyphenState
     = (Returned {| instanceId := 0; backendOf := ChromaDB;
                    constructorArg := Some "all-minilm"%string |},
        hyphenState).
Proof.
  assert (dbInstancePool hyphenState
            !! cacheKeyOf "CHROMA" ("all" +:+ "-" +:+ "minilm")
          = Some {| instanceId := 0; backendOf := ChromaDB;
                    constructorArg := Some "all-minilm"%string |}) as Hk
    by (vm_compute; reflexivity).
  split; [exact Hk|].
  apply (cache_key_joins_type_and_model quietProcess hyphenState
           "CHROMA" "all" "minilm"); [discriminate|exact Hk].
Defined.

End DbFactoryMoreSpec.

Module DbFactoryV1Spec.
Import DbFactory DbFactoryMore.

(** X6.  The earlier factory assigns its singleton before it awaits
    [init()]: when [init()] throws, the call throws, but every later call,
    whatever the environment has become, returns that same object, on
    which [init()] failed, and calls [init()] no more. *)
Theorem singleton_is_set_before_init (P P' : Process)
    (st st1 : DbFactoryV1.State) (e : string) :
  DbFactoryV1.dbInstance st = None ->
  DbFactoryV1.getDbInstance P st = (Threw e, st1) ->
  DbFactoryV1.initCalls st1 <> DbFactoryV1.initCalls st ->
  exists i,
    DbFactoryV1.getDbInstance P' st1 = (Returned i, st1)
    /\ instanceId i = DbFactoryV1.allocated st
    /\ initError P (instanceId i) = Some e
    /\ DbFactoryV1.initCalls st1
       = DbFactoryV1.initCalls st ++ [instanceId i].
Proof.
  intros Hnone. unfold DbFactoryV1.getDbInstance at 1. rewrite Hnone.
  destruct (DbFactoryV1.backendOfType _) as [b|]; [|by intros [= <- <-]].
  destruct (constructorError P b None); [by intros [= <- <-]|].
  destruct (initError P (DbFactoryV1.allocated st)) eqn:Hi; [|done].
  intros [= <- <-] _. eexists. split; [reflexivity|]. done.
Qed.

Lemma singleton_is_set_before_init_witness :
  let first := DbFactoryV1.getDbInstance flakyProcess DbFactoryV1.emptyState in
  first.1 = Threw "connection refused"%string
  /\ exists i,
       DbFactoryV1.getDbInstance quietProcess first.2 = (Returned i, first.2)
       /\ instanceId i = 0
       /\ initError flakyProcess (instanceId i)
          = Some "connection refused"%string.
Proof.
  intros first. split; [reflexivity|].
  destruct (singleton_is_set_before_init flakyProcess quietProcess
              DbFactoryV1.emptyState first.2 "connection refused")
    as (i & Hget & Hid & Herr & _);
    [reflexivity|reflexivity|discriminate|].
  exists i. split; [exact Hget|]. split; [exact Hid|exact Herr].
Defined.

End DbFactoryV1Spec.

Module ChunkTextFacts.
Import JsString ChunkText.

Lemma slice_within (s : jsstring) (i j : Z) :
  (0 <= i <= j)%Z -> (j <= Z.of_nat (length s))%Z ->
  slice s i j = take (Z.to_nat (j - i)) (drop (Z.to_nat i) s).
Proof.
  intros Hi Hj. unfold slice.
  destruct (Z.ltb_spec i 0); [lia|]. destruct (Z.ltb_spec j 0); [lia|].
  by rewrite !Z.min_l by lia.
Qed.

(** The loop from [i] on, for a step that advances: the chunks are the
    windows of what is left of the text. *)
Lemma chunkTextFrom_windows (text : jsstring) (chunkSize overlap : Z) :
  (0 <= overlap < chunkSize)%Z ->
  forall fuel i,
    (0 <= i)%Z ->
    length (drop (Z.to_nat i) text) < fuel ->
    let rest := drop (Z.to_nat i) text in
    exists chunks,
      chunkTextFrom fuel text chunkSize overlap i = Some chunks
      /\ Forall (fun c => 0 < length c <= Z.to_nat chunkSize) chunks
      /\ match chunks with
         | [] => rest = []
         | c0 :: tl =>
             c0 = take (Z.to_nat chunkSize) rest
             /\ rest = c0 ++ flat_map (drop (Z.to_nat overlap)) tl
         end
      /\ (forall c, In c (removelast chunks) ->
            length c = Z.to_nat chunkSize)
      /\ (last chunks = None \/ exists c, last chunks = Some c
            /\ drop (length text - length c) text = c).
Proof.
  intros Hp. induction fuel as [|fuel IH]; intros i Hi Hfuel rest; [lia|].
  cbn [chunkTextFrom].
  assert (length rest = length text - Z.to_nat i) as Hlen
    by (unfold rest; by rewrite length_drop).
  fold rest in Hfuel.
  destruct (Z.ltb_spec i (Z.of_nat (length text))) as [Hlt|Hge].
  2:{ exists []. split; [done|]. split; [constructor|].
      split; [|split; [done|by left]].
      apply nil_length_inv. lia. }
  destruct (Z.eqb_spec (Z.min (i + chunkSize) (Z.of_nat (length text)))
              (Z.of_nat (length text))) as [Hend|Hend].
  - (* the last window *)
    rewrite Hend, slice_within by lia.
    assert (take (Z.to_nat (Z.of_nat (length text) - i)) rest = rest) as Hall.
    { apply take_ge. lia. }
    fold rest. rewrite Hall.
    exists [rest]. split; [done|]. split.
    { constructor; [|constructor]. lia. }
    split.
    { split; [|by rewrite app_nil_r]. symmetry. apply take_ge. lia. }
    split; [done|]. right. exists rest. split; [done|].
    unfold rest. f_equal. rewrite length_drop. lia.
  - (* a full window and more to come *)
    assert (i + chunkSize < Z.of_nat (length text))%Z as Hfull by lia.
    rewrite Z.min_l, slice_within by lia. fold rest.
    replace (Z.to_nat (i + chunkSize - i)) with (Z.to_nat chunkSize) by lia.
    set (step := (chunkSize - overlap)%Z).
    assert (drop (Z.to_nat (i + step)) text = drop (Z.to_nat step) rest)
      as Hrest'.
    { unfold rest. rewrite drop_drop. f_equal. lia. }
    destruct (IH (i + step)%Z) as (chunks & Hrun & Hall & Hshape & Hfull' & Hlast).
    { lia. }
    { rewrite Hrest', length_drop. unfold step. lia. }
    rewrite Hrun. simpl. eexists. split; [done|].
    rewrite Hrest' in Hshape.
    assert (length (take (Z.to_nat chunkSize) rest) = Z.to_nat chunkSize)
      as Hl0.
    { rewrite length_take. lia. }
    split; [constructor; [lia|done]|].
    destruct chunks as [|c1 tl].
    { exfalso. apply (f_equal length) in Hshape.
      rewrite length_drop in Hshape. simpl in Hshape. unfold step in *. lia. }
    destruct Hshape as [Hc1 Hcat].
    split; [split; [done|]|].
    { rewrite <- (take_drop (Z.to_nat chunkSize) rest) at 1. f_equal.
      cbn [flat_map].
      replace (Z.to_nat chunkSize) with (Z.to_nat overlap + Z.to_nat step)
        by (unfold step; lia).
      rewrite Nat.add_comm, <- drop_drop, Hcat, drop_app_le; [done|].
      rewrite Hc1, length_take, length_drop. unfold step. lia. }
    split.
    { intros c Hc. cbn [removelast] in Hc. destruct Hc as [<-|Hc]; [done|].
      by apply Hfull'. }
    destruct Hlast as [Hl|Hl]; [by apply last_None in Hl|]. right.
    destruct Hl as (c & Hl & Hd). exists c. split; [|done].
    by rewrite last_cons, Hl.
Qed.

(** Without an advance the loop goes on for ever on a text longer than a
    chunk. *)
Lemma chunkTextFrom_diverges (text : jsstring) (chunkSize overlap : Z) :
  (0 <= chunkSize <= overlap)%Z -> (chunkSize < Z.of_nat (length text))%Z ->
  forall fuel i, (i <= 0)%Z ->
    chunkTextFrom fuel text chunkSize overlap i = None.
Proof.
  intros Hstep Hlong. induction fuel as [|fuel IH]; intros i Hi; [done|].
  cbn [chunkTextFrom].
  destruct (Z.ltb_spec i (Z.of_nat (length text))); [|lia].
  destruct (Z.eqb_spec (Z.min (i + chunkSize) (Z.of_nat (length text)))
              (Z.of_nat (length text))); [lia|].
  rewrite IH by lia. done.
Qed.

(** More iterations than needed change nothing. *)
Lemma chunkTextFrom_more (text : jsstring) (chunkSize overlap : Z) :
  forall fuel fuel' i chunks,
    chunkTextFrom fuel text chunkSize overlap i = Some chunks ->
    fuel <= fuel' ->
    chunkTextFrom fuel' text chunkSize overlap i = Some chunks.
Proof.
  induction fuel as [|fuel IH]; intros fuel' i chunks; [done|].
  destruct fuel' as [|fuel']; [lia|]. cbn [chunkTextFrom].
  destruct (_ <? _)%Z; [|done]. destruct (_ =? _)%Z; [done|].
  destruct (chunkTextFrom fuel _ _ _ _) as [r|] eqn:Hr; [|done].
  intros [= <-] Hle. by rewrite (IH fuel' _ _ Hr) by lia.
Qed.

End ChunkTextFacts.

Module ChunkTextSpec.
Import JsString ChunkText ChunkTextFacts.

(** X7.  With an overlap smaller than the chunk size, [chunkText] ends
    after at most as many iterations as the text has code units, and its
    chunks are the windows of the text: none is empty, all but the last
    have the full size and the last is at most that long, and the first
    chunk followed by the others without their first [overlap] code units
    is the text.  The empty text gives no chunk. *)
Theorem chunkText_windows (text : jsstring) (chunkSize overlap : Z) :
  (0 <= overlap < chunkSize)%Z ->
  exists chunks,
    (forall fuel, length text < fuel ->
       chunkText fuel text chunkSize overlap = Some chunks)
    /\ Forall (fun c => 0 < length c <= Z.to_nat chunkSize) chunks
    /\ (forall c, In c (removelast chunks) -> length c = Z.to_nat chunkSize)
    /\ rejoin (Z.to_nat overlap) chunks = text
    /\ (chunks = [] <-> text = []).
Proof.
  intros Hp.
  destruct (chunkTextFrom_windows text chunkSize overlap Hp
              (S (length text)) 0) as (chunks & Hrun & Hall & Hshape & Hfull & _);
    [lia|rewrite length_drop; lia|].
  change (drop (Z.to_nat 0) text) with text in Hshape. exists chunks.
  split.
  { intros fuel Hfuel. apply (chunkTextFrom_more _ _ _ _ _ _ _ Hrun). lia. }
  split; [done|]. split; [done|].
  destruct chunks as [|c0 tl]; simpl.
  - by rewrite Hshape.
  - destruct Hshape as [Hc0 Hcat]. split; [done|].
    split; [done|]. intros ->. simpl in Hc0. rewrite take_nil in Hc0.
    subst c0. inversion Hall as [|? ? Hl]. simpl in Hl. lia.
Qed.

(** Windows of five code units that advance by three. *)
Lemma chunkText_windows_witness :
  exists chunks,
    chunkText 13 twelveLetters 5 2 = Some chunks
    /\ chunks = [u16 "abcde"; u16 "defgh"; u16 "ghijk"; u16 "jkl"]
    /\ rejoin 2 chunks = twelveLetters.
Proof.
  destruct (chunkText_windows twelveLetters 5 2)
    as (chunks & Hrun & _ & _ & Hjoin & _); [lia|].
  exists chunks.
  assert (chunkText 13 twelveLetters 5 2 = Some chunks) as H1.
  { apply Hrun. simpl. lia. }
  split; [exact H1|]. split; [|exact Hjoin].
  vm_compute in H1. by injection H1.
Defined.

(** X8.  With an overlap that is not smaller than the chunk size the
    index does not advance, and on a text longer than a chunk the loop
    never ends: no number of iterations gives a result. *)
Theorem chunkText_never_ends (text : jsstring) (chunkSize overlap : Z)
    (fuel : nat) :
  (0 <= chunkSize <= overlap)%Z ->
  (chunkSize < Z.of_nat (length text))%Z ->
  chunkText fuel text chunkSize overlap = None.
Proof. intros Hp Hl. by apply chunkTextFrom_diverges. Qed.

Lemma chunkText_never_ends_witness :
  chunkText 100 twelveLetters 5 5 = None.
Proof.
  apply (chunkText_never_ends twelveLetters 5 5 100); [lia|].
  simpl. lia.
Defined.

End ChunkTextSpec.

Module ChromaSeedFacts.
Import JsString ChromaSeed.

Lemma map_over_imap {A B C} (g : B -> C) (f : nat -> A -> B) l :
  map g (imap f l) = imap (fun n x => g (f n x)) l.
Proof.
  revert f. induction l as [|x l IH]; intros f; simpl; [done|].
  by rewrite IH.
Qed.

Lemma payload_batch H name chunks first :
  map payloadOf (batchOf H name chunks first)
  = imap (fun index chunk => (chunk, name, index + 1)) chunks.
Proof. unfold batchOf. by rewrite map_over_imap. Qed.

(** The loop adds to the collection and takes nothing away; whether it
    completes does not depend on the state it starts from. *)
Lemma seedFiles_adds H directoryPath files :
  forall st,
    let r := seedFiles H directoryPath files st in
    exists added,
      collection r.2 = collection st ++ added
      /\ collectionSet r.2 = collectionSet st
      /\ (r.1 = Returned tt ->
          map payloadOf added = expected H directoryPath files)
      /\ forall st', (seedFiles H directoryPath files st').1 = r.1.
Proof.
  induction files as [|name rest IH]; intros st; cbn [seedFiles expected].
  { exists []. by rewrite app_nil_r. }
  destruct (String.eqb (extname H name) ".txt"); simpl; [|apply IH].
  destruct (readFile H (join H directoryPath name)) as [content|e]; simpl.
  2:{ exists []. by rewrite app_nil_r. }
  destruct (Nat.eqb_spec
              (length (Chunker.universalChunker (splitText H) content)) 0)
    as [Hz|Hnz].
  { apply nil_length_inv in Hz. rewrite Hz. simpl. apply IH. }
  destruct (addError H _) as [e|]; simpl.
  { exists []. by rewrite app_nil_r. }
  match goal with
  | |- context [seedFiles H directoryPath rest ?s] =>
      destruct (IH s) as (added & Hc & Hs & Hp & Hi)
  end.
  simpl in Hc, Hs. eexists. rewrite Hc, <- app_assoc.
  split; [done|]. split; [done|]. split.
  - intros Hr. rewrite map_app, payload_batch. f_equal. by apply Hp.
  - intros st'. by rewrite !Hi.
Qed.

End ChromaSeedFacts.

Module ChromaSeedSpec.
Import JsString ChromaSeed ChromaSeedFacts.

(** X9.  [ChromaDB.seed] adds to the collection and removes nothing,
    whether it completes or throws.  When it completes it has added, for
    each [.txt] file of the directory in turn, the chunks of the file with
    the numbers 1, 2, ...; and as nothing is cleared first, seeding the
    same directory again, its files unchanged, completes as well and
    stores every chunk a second time. *)
Theorem chroma_seed_adds (H : Host) (directoryPath : string) (st : State) :
  let first := seed H directoryPath st in
  let second := seed H directoryPath first.2 in
  (exists added, collection first.2 = collection st ++ added)
  /\ (first.1 = Returned tt ->
      exists files,
        readdir H directoryPath = Returned files
        /\ map payloadOf (collection first.2)
           = map payloadOf (collection st) ++ expected H directoryPath files
        /\ second.1 = Returned tt
        /\ map payloadOf (collection second.2)
           = map payloadOf (collection st)
             ++ expected H directoryPath files
             ++ expected H directoryPath files).
Proof.
  intros first second. unfold second, first, seed.
  destruct (collectionSet st) eqn:Hset; simpl.
  2:{ rewrite ?Hset. simpl. split; [|done]. exists []. by rewrite app_nil_r. }
  destruct (readdir H directoryPath) as [files|e] eqn:Hdir; simpl.
  2:{ rewrite ?Hset, ?Hdir. simpl. split; [|done].
      exists []. by rewrite app_nil_r. }
  destruct (seedFiles_adds H directoryPath files st)
    as (added & Hc & Hs & Hp & Hi).
  split; [by exists added|]. intros Hr. exists files. split; [done|].
  rewrite Hs, Hset. simpl. rewrite ?Hdir.
  rewrite Hc, map_app, (Hp Hr). split; [done|].
  destruct (seedFiles_adds H directoryPath files
              (seedFiles H directoryPath files st).2)
    as (added2 & Hc2 & _ & Hp2 & _).
  rewrite Hi. split; [done|].
  rewrite Hc2, Hc, !map_app, (Hp Hr), Hp2, <- app_assoc; [done|].
  by rewrite Hi.
Qed.

End ChromaSeedSpec.

Module OrchestratorMoreFacts.
Import Orchestrator OrchestratorFacts CancellationFacts OrchestratorMore.
Open Scope list_scope.

Section Allowed.

Variable P : Action -> Prop.
Hypothesis allowed : Allows P.
Variable H : Host.
Variable config : Config.

Lemma allowed_retrievalFailed tc a b c d e f :
  adds P (retrievalFailed H tc a b c d e f).
Proof.
  apply adds_bind; [apply adds_onProgress, allowed|]. intros _. apply adds_ret.
Qed.

Lemma allowed_rerankDocuments q docs model :
  adds P (rerankDocuments H q docs model).
Proof.
  destruct docs as [|d docs]; [apply adds_ret|].
  intros w. exists [RerankRequest q (d :: docs) model]. simpl.
  split; [done|]. split; [lia|]. constructor; [apply allowed|constructor].
Qed.

Lemma allowed_retrieve tc : adds P (retrieve H config tc).
Proof.
  unfold retrieve. apply adds_bind; [apply adds_now|]. intros t0.
  destruct (truthy _) as [dbType|]; [|apply allowed_retrievalFailed].
  apply adds_bind.
  { intros w. exists [GetDbInstance dbType (embeddingModel config)]. simpl.
    split; [done|]. split; [lia|]. constructor; [apply allowed|constructor]. }
  intros [e|]; [apply allowed_retrievalFailed|].
  apply adds_bind.
  { intros w. exists [QueryDocuments (tc_question tc) 10]. simpl.
    split; [done|]. split; [lia|]. constructor; [apply allowed|constructor]. }
  intros [chunks|e]; [|apply allowed_retrievalFailed].
  apply adds_bind; [apply adds_now|]. intros t1.
  apply adds_bind; [apply adds_now|]. intros t2.
  apply adds_bind; [apply allowed_rerankDocuments|]. intros [reranked|e];
    [|apply allowed_retrievalFailed].
  apply adds_bind; [apply adds_now|]. intros t3.
  apply adds_tryCatch; [|intros e; apply allowed_retrievalFailed].
  apply adds_bind; [apply adds_onProgress, allowed|]. intros _. apply adds_ret.
Qed.

Lemma allowed_safeModelCall model messages :
  adds P (safeModelCall H model messages).
Proof. apply adds_safeModelCall; apply allowed. Qed.

Lemma allowed_addTokenUsage result total :
  adds P (addTokenUsage H result total).
Proof.
  unfold addTokenUsage. destruct (tokenUsage result); [|apply adds_ret].
  apply adds_bind; [apply adds_onProgress, allowed|]. intros _. apply adds_ret.
Qed.

Lemma allowed_scoreAnswer tc answer task total tokens :
  P (Enqueue (EvUpdate (Evaluating (tc_id tc)) task total)) ->
  adds P (scoreAnswer H config tc answer task total tokens).
Proof.
  intros Hu. unfold scoreAnswer.
  apply adds_bind; [by apply adds_onProgress|]. intros _.
  apply adds_bind; [apply adds_throwIfCancelled|]. intros _.
  apply adds_bind; [apply allowed_safeModelCall|]. intros r.
  apply adds_bind; [apply allowed_addTokenUsage|]. intros t.
  apply adds_bind; [|intros; apply adds_ret].
  destruct (success r); [apply adds_ret|].
  apply adds_bind; [apply adds_onProgress, allowed|]. intros _. apply adds_ret.
Qed.

Lemma allowed_recordAnswer loop total tc s r workResult :
  P (Enqueue (EvUpdate (Evaluating (tc_id tc)) (S (S (currentTask s))) total)) ->
  adds P (recordAnswer H config loop total tc s r workResult).
Proof.
  intros Hu. unfold recordAnswer.
  apply adds_bind; [apply allowed_addTokenUsage|]. intros t.
  apply adds_bind.
  { destruct (success workResult);
      [apply adds_ret|apply adds_onProgress, allowed]. }
  intros _. apply adds_bind; [apply adds_disk, allowed|]. intros _.
  apply adds_bind; [apply adds_onProgress, allowed|]. intros _.
  apply adds_bind.
  { destruct (success workResult); [by apply allowed_scoreAnswer|apply adds_ret]. }
  intros sc. apply adds_bind; [apply adds_onProgress, allowed|]. intros _.
  apply adds_ret.
Qed.

Lemma allowed_answerQuestion loop total tc s :
  P (Enqueue (EvUpdate (Answering (tc_id tc)) (S (currentTask s)) total)) ->
  adds P (answerQuestion H config loop total tc s).
Proof.
  intros Hu. unfold answerQuestion.
  apply adds_bind; [by apply adds_onProgress|]. intros _.
  apply adds_bind; [apply adds_onProgress, allowed|]. intros _.
  apply adds_bind; [apply allowed_retrieve|]. intros r.
  apply adds_bind; [apply adds_throwIfCancelled|]. intros _.
  apply adds_bind; [apply adds_disk, allowed|]. intros _.
  apply adds_bind; [apply allowed_safeModelCall|]. intros wr. apply adds_ret.
Qed.

Lemma allowed_runTestCase loop total tc s :
  P (Enqueue (EvUpdate (Answering (tc_id tc)) (S (currentTask s)) total)) ->
  P (Enqueue (EvUpdate (Evaluating (tc_id tc)) (S (S (currentTask s))) total)) ->
  (forall es, P (WriteResults loop es)) ->
  adds P (runTestCase H config loop total tc s).
Proof.
  intros Hu1 Hu2 Hw. unfold runTestCase.
  apply adds_bind; [by apply allowed_answerQuestion|]. intros a.
  apply adds_bind; [by apply allowed_recordAnswer|]. intros r.
  apply adds_bind; [apply adds_disk, Hw|]. intros _.
  apply adds_bind; [apply adds_sleep, allowed|]. intros _. apply adds_ret.
Qed.

End Allowed.

(** *** Actions and results together *)

Lemma addsTo_intro (P : Action -> Prop) {A} (Q : A -> Prop) (c : M A) :
  adds P c -> (forall w a w', c w = (Returned a, w') -> Q a) -> addsTo P Q c.
Proof.
  intros Hc HQ w. destruct (Hc w) as (seg & Hh & Ht & Hf). exists seg.
  split; [done|]. split; [done|]. split; [done|].
  intros a Ha. apply (HQ w a (c w).2). rewrite <- Ha. by destruct (c w).
Qed.

Lemma addsTo_adds (P : Action -> Prop) {A} (Q : A -> Prop) (c : M A) :
  addsTo P Q c -> adds P c.
Proof.
  intros Hc w. destruct (Hc w) as (seg & Hh & Ht & Hf & _). by exists seg.
Qed.

Lemma addsTo_bind (P : Action -> Prop) {A B} (Q : A -> Prop) (R : B -> Prop)
    (m : M A) (f : A -> M B) :
  addsTo P Q m -> (forall a, Q a -> addsTo P R (f a)) -> addsTo P R (m ≫= f).
Proof.
  intros Hm Hf w. rewrite bind_run.
  destruct (Hm w) as (s1 & H1 & T1 & F1 & Q1).
  destruct (m w) as [[a|e] w1]; simpl in *.
  - destruct (Hf a (Q1 a eq_refl) w1) as (s2 & H2 & T2 & F2 & Q2).
    exists (s1 ++ s2). rewrite H2, H1, app_assoc.
    split; [done|]. split; [lia|]. split; [by apply Forall_app|done].
  - exists s1. by repeat split.
Qed.

Lemma addsTo_weaken (P P' : Action -> Prop) {A} (Q Q' : A -> Prop) (c : M A) :
  (forall a, P a -> P' a) -> (forall a, Q a -> Q' a) ->
  addsTo P Q c -> addsTo P' Q' c.
Proof.
  intros HP HQ Hc w. destruct (Hc w) as (seg & Hh & Ht & Hf & Hq).
  exists seg. split; [done|]. split; [done|].
  split; [by eapply Forall_impl|auto].
Qed.

(** A loop whose body moves a counter by [d] and stays below the counter
    it reaches. *)
Lemma addsTo_forEach_counted {A S} (P : nat -> Action -> Prop) (f : S -> nat)
    (d : nat) (body : A -> S -> M S) :
  (forall b1 b2 a, b1 <= b2 -> P b1 a -> P b2 a) ->
  (forall x s, addsTo (P (f s + d)) (fun s' => f s' = f s + d) (body x s)) ->
  forall xs s,
    addsTo (P (f s + d * length xs)) (fun s' => f s' = f s + d * length xs)
           (forEach body xs s).
Proof.
  intros Hmono Hbody. induction xs as [|x xs IH]; intros s.
  { intros w. exists []. simpl. rewrite app_nil_r.
    split; [done|]. split; [lia|]. split; [constructor|].
    intros a [= <-]. lia. }
  cbn [forEach length]. eapply addsTo_bind.
  - eapply addsTo_weaken; [| |apply Hbody]; [|intros a Ha; exact Ha].
    intros a. apply Hmono. lia.
  - intros s1 Hs1. simpl in Hs1.
    eapply addsTo_weaken; [| |apply IH].
    + intros a. apply Hmono. rewrite Hs1. lia.
    + intros s2 Hs2. simpl in Hs2. rewrite Hs2, Hs1. lia.
Qed.

Section Progress.

Variable H : Host.
Variable config : Config.

Let total := (length (testCases config) * 2) * loopCount config.

Lemma within_mono b1 b2 a : b1 <= b2 -> within total b1 a -> within total b2 a.
Proof.
  intros Hle. destruct a as [[]| | | | | | | | | | |]; simpl; try done. lia.
Qed.

Lemma within_Allows b : Allows (within total b).
Proof. by split. Qed.

Lemma runTestCase_counts loop tc s w s' w' :
  runTestCase H config loop total tc s w = (Returned s', w') ->
  currentTask s' = currentTask s + 2.
Proof.
  intros Hrun. pose proof (runTestCase_run H config loop total tc s w) as Hc.
  rewrite Hrun in Hc. inversion Hc; subst. simpl. lia.
Qed.

Lemma within_runTestCase loop tc s :
  addsTo (within total (currentTask s + 2))
         (fun s' => currentTask s' = currentTask s + 2)
         (runTestCase H config loop total tc s).
Proof.
  apply addsTo_intro; [|intros w a w'; apply runTestCase_counts].
  apply allowed_runTestCase; [apply within_Allows| | |done]; simpl; lia.
Qed.

Lemma within_runLoop loop counters :
  addsTo (within total (counters.1 + length (testCases config) * 2))
         (fun c => c.1 = counters.1 + length (testCases config) * 2)
         (runLoop H config total loop counters).
Proof.
  unfold runLoop.
  eapply addsTo_bind with (Q := fun _ => True).
  { apply addsTo_intro; [apply adds_throwIfCancelled|done]. }
  intros _ _. eapply addsTo_bind with (Q := fun _ => True).
  { apply addsTo_intro; [by apply adds_disk|done]. }
  intros _ _. eapply addsTo_bind with (Q := fun _ => True).
  { apply addsTo_intro; [by apply adds_disk|done]. }
  intros _ _. eapply addsTo_bind.
  { eapply addsTo_weaken;
      [| |apply (addsTo_forEach_counted (within total) currentTask 2
                   (runTestCase H config loop total))].
    - intros a. simpl. apply within_mono. lia.
    - intros s Hs. exact Hs.
    - intros ? ? ?. apply within_mono.
    - intros x s. apply within_runTestCase. }
  intros s Hs. simpl in Hs. intros w. exists []. simpl. rewrite app_nil_r.
  split; [done|]. split; [lia|]. split; [constructor|].
  intros c [= <-]. simpl. lia.
Qed.

Lemma within_runTask : adds (within total total) (runTask H config).
Proof.
  unfold runTask. apply adds_bind; [by apply adds_onProgress|]. intros _.
  apply adds_bind; [|intros; apply adds_ret].
  eapply adds_weaken;
    [|eapply addsTo_adds,
        (addsTo_forEach_counted (within total) fst
           (length (testCases config) * 2) (runLoop H config total))].
  - intros a. simpl. apply within_mono. rewrite length_seq. unfold total. lia.
  - intros ? ? ?. apply within_mono.
  - intros loop counters. apply within_runLoop.
Qed.

Lemma within_POST : adds (within total total) (POST H config).
Proof.
  unfold POST. apply adds_bind; [|intros; by apply adds_act].
  apply adds_tryCatch.
  - unfold tryBlock.
    apply adds_bind; [by apply adds_disk|]. intros _.
    apply adds_bind; [by apply adds_sendEvent|]. intros _.
    apply adds_bind; [apply within_runTask|]. intros _.
    apply adds_bind; [apply adds_isCancelled|].
    intros []; [apply adds_ret|by apply adds_sendEvent].
  - intros e. unfold catchBlock.
    destruct (String.eqb e CANCELLED); by apply adds_sendEvent.
Qed.

End Progress.

End OrchestratorMoreFacts.

Module ProgressSpec.
Import Orchestrator OrchestratorFacts OrchestratorMore OrchestratorMoreFacts.
Open Scope list_scope.

(** X10.  Whatever the host does, every [update] frame of a run carries
    the total [testCases.length * 2 * loopCount] and a task number between
    1 and that total: the progress the client computes from them never
    exceeds 100%. *)
Theorem progress_stays_within (H : Host) (config : Config) :
  Forall (progressWithin ((length (testCases config) * 2) * loopCount config))
         (streamOf (history (POST H config initialWorld).2)).
Proof.
  destruct (within_POST H config initialWorld) as (seg & Hh & _ & Hf).
  rewrite Hh. simpl. clear Hh.
  induction Hf as [|a seg Ha Hf IH]; [constructor|].
  destruct a as [e| | | | | | | | | | |]; simpl; try done.
  constructor; [|done]. destruct e; simpl in *; try done.
  destruct Ha as [? ->]. lia.
Qed.

End ProgressSpec.

Module StreamFacts.
Import Orchestrator OrchestratorFacts CancellationFacts OrchestratorMore.
Import OrchestratorMoreFacts.
Open Scope list_scope.

Section Stream.

Variable H : Host.
Variable config : Config.

Lemma quiet_Allows : Allows quiet.
Proof. by split. Qed.

Lemma quiet_runTask : adds quiet (runTask H config).
Proof.
  unfold runTask. apply adds_bind; [by apply adds_onProgress|]. intros _.
  apply adds_bind; [|intros; apply adds_ret].
  apply adds_forEach. intros loop counters. unfold runLoop.
  apply adds_bind; [apply adds_throwIfCancelled|]. intros _.
  apply adds_bind; [by apply adds_disk|]. intros _.
  apply adds_bind; [by apply adds_disk|]. intros _.
  apply adds_bind; [|intros; apply adds_ret].
  apply adds_forEach. intros tc s.
  by apply allowed_runTestCase; [apply quiet_Allows|..].
Qed.

Lemma ends_bind {A} (m : M A) (f : A -> M unit) :
  adds quiet m -> (forall a, endsQuietOrDone H (f a)) ->
  endsQuietOrDone H (m ≫= f).
Proof.
  intros Hm Hf w. rewrite bind_run. destruct (Hm w) as (s1 & H1 & _ & F1).
  destruct (m w) as [[a|e] w1]; simpl in *; [|by exists s1].
  destruct (Hf a w1) as (s2 & H2 & Hend). exists (s1 ++ s2).
  rewrite H2, H1, app_assoc. split; [done|].
  destruct (f a w1).1 as [[]|e].
  - destruct Hend as [[F2 Hab]|(body & -> & F2)].
    + left. split; [by apply Forall_app|done].
    + right. exists (s1 ++ body). rewrite app_assoc. split; [done|].
      by apply Forall_app.
  - by apply Forall_app.
Qed.

Lemma ends_tryBlock : endsQuietOrDone H (tryBlock H config).
Proof.
  unfold tryBlock.
  apply ends_bind; [by apply adds_disk|]. intros _.
  apply ends_bind; [by apply adds_sendEvent|]. intros _.
  apply ends_bind; [apply quiet_runTask|]. intros _.
  intros w. rewrite bind_run. unfold isCancelled.
  destruct (aborted H w) eqn:Hab; simpl.
  - exists []. rewrite app_nil_r. split; [done|]. left. split; [constructor|].
    unfold aborted in Hab. by destruct (abortAt H).
  - eexists. split; [done|]. right. exists []. by split.
Qed.

End Stream.

End StreamFacts.

Module StreamSpec.
Import Orchestrator OrchestratorFacts OrchestratorMore StreamFacts.
Open Scope list_scope.

Lemma quiet_not_closing body :
  Forall quiet body -> Forall (fun e => closing e = false) (streamOf body).
Proof.
  intros Hq. apply Forall_forall. intros e He. unfold streamOf in He.
  apply list_elem_of_omap in He as (a & Ha & Hs).
  rewrite Forall_forall in Hq. specialize (Hq a Ha).
  destruct a as [e'| | | | | | | | | | |]; try done.
  injection Hs as ->. by destruct e.
Qed.

(** The frames the stream has taken of a run that ends with the calls
    [terminal] and the call of [controller.close()]. *)
Lemma onStream_ends body terminal cancelledAfter :
  length terminal <= 1 ->
  onStream cancelledAfter (body ++ terminal ++ [CloseStream])
  = match cancelledAfter with
    | Some n =>
        if (n <=? length body)%nat then streamOf (take n body)
        else streamOf body ++ streamOf terminal
    | None => streamOf body ++ streamOf terminal
    end.
Proof.
  intros Hlen.
  assert (streamOf (body ++ terminal ++ [CloseStream])
          = streamOf body ++ streamOf terminal) as Hall.
  { unfold streamOf. rewrite !omap_app. simpl. by rewrite app_nil_r. }
  destruct cancelledAfter as [n|]; [|exact Hall]. simpl.
  destruct (Nat.leb_spec n (length body)) as [Hn|Hn].
  { by rewrite take_app_le. }
  rewrite take_app_ge by lia.
  destruct (n - length body) as [|d] eqn:Hd; [lia|].
  unfold streamOf. rewrite omap_app. f_equal.
  destruct terminal as [|x [|y rest]]; [| |simpl in Hlen; lia];
    destruct d as [|d]; simpl; rewrite ?take_nil; try destruct x; done.
Qed.

Lemma POST_ends (H : Host) (config : Config) :
  exists body terminal,
    history (POST H config initialWorld).2 = body ++ terminal ++ [CloseStream]
    /\ Forall quiet body
    /\ ((terminal = [] /\ abortAt H <> None)
        \/ terminal = [Enqueue (EvDone "所有任务已成功完成。")]
        \/ exists m, terminal = [Enqueue (EvError m)] /\ m <> ""%string).
Proof.
  unfold POST. rewrite bind_run. unfold tryCatch.
  destruct (ends_tryBlock H config initialWorld) as (seg & Hh & Hend).
  destruct (tryBlock H config initialWorld) as [[[]|e] w1]; simpl in *.
  - destruct Hend as [[Hq Hab]|(body & -> & Hq)].
    + exists seg, []. rewrite Hh. split; [done|]. split; [done|]. by left.
    + eexists body, _. rewrite Hh, <- app_assoc. split; [reflexivity|].
      split; [done|]. right. by left.
  - exists seg. unfold catchBlock.
    destruct (String.eqb e CANCELLED); simpl; rewrite Hh, <- app_assoc.
    + eexists. split; [reflexivity|]. split; [done|]. right. right.
      eexists. split; [reflexivity|]. done.
    + eexists. split; [reflexivity|]. split; [done|]. right. right.
      eexists. split; [reflexivity|]. by destruct (String.eqb_spec e "").
Qed.

(** X11.  A run calls [controller.close()] once, as its last action.
    Right before that call it sends at most one closing frame: the [done]
    frame, or one [error] frame, whose message is never empty; it sends
    neither only when the client has aborted; and before that it sends no
    [done] frame and no [error] frame.  The stream takes the frames sent
    while it is open.  With a consumer that reads to the end it has taken
    them all, the closing frame last.  With a consumer that cancelled the
    stream earlier it has taken the frames of the first actions only:
    none of them a closing frame when the cancellation came before the
    closing frame was sent, whether or not the client has aborted. *)
Theorem run_ends_with_one_closing_frame (H : Host) (config : Config) :
  exists body terminal,
    history (POST H config initialWorld).2 = body ++ terminal ++ [CloseStream]
    /\ Forall quiet body
    /\ ((terminal = [] /\ abortAt H <> None)
        \/ terminal = [Enqueue (EvDone "所有任务已成功完成。")]
        \/ exists m, terminal = [Enqueue (EvError m)] /\ m <> ""%string)
    /\ Forall (fun e => closing e = false) (streamOf body)
    /\ onStream None (history (POST H config initialWorld).2)
       = streamOf body ++ streamOf terminal
    /\ (forall n,
          onStream (Some n) (history (POST H config initialWorld).2)
          = if (n <=? length body)%nat then streamOf (take n body)
            else streamOf body ++ streamOf terminal)
    /\ (forall n,
          n <= length body ->
          Forall (fun e => closing e = false)
                 (onStream (Some n) (history (POST H config initialWorld).2))).
Proof.
  destruct (POST_ends H config) as (body & terminal & Hh & Hq & Hend).
  exists body, terminal. split; [exact Hh|]. split; [exact Hq|].
  split; [exact Hend|]. split; [by apply quiet_not_closing|].
  assert (length terminal <= 1) as Hlen.
  { destruct Hend as [[-> _]|[->|(m & -> & _)]]; simpl; lia. }
  rewrite Hh.
  split; [exact (onStream_ends body terminal None Hlen)|].
  split; [intros n; exact (onStream_ends body terminal (Some n) Hlen)|].
  intros n Hn. rewrite (onStream_ends body terminal (Some n) Hlen).
  destruct (Nat.leb_spec n (length body)); [|lia].
  apply quiet_not_closing. by apply Forall_take.
Qed.

End StreamSpec.

Module RetrievalMoreSpec.
Import Orchestrator OrchestratorFacts RetryFacts RetrievalFacts.
Import OrchestratorMore.
Open Scope list_scope.

(** X12.  In a run that is not aborted, retrieval makes no request it has
    no use for.  When no database type is configured, neither in the
    project nor in the environment, it calls nothing, sends the warning
    and leaves the question as the prompt.  When the vector store returns
    no document, it sends no request to the reranker, and the prompt is
    the question as well. *)
Theorem retrieval_without_context (H : Host) (config : Config)
    (tc : TestCase) (w : World) :
  abortAt H = None ->
  (truthy (orElse (databaseType config) (DATABASE_TYPE H)) = None ->
   exists r message,
     retrieve H config tc w
     = (Returned r,
        {| ticks := ticks w;
           history :=
             history w ++ [Enqueue (EvLog (RetrievalFailed message))] |})
     /\ augmentedPrompt r = tc_question tc
     /\ r_databaseName r = None)
  /\ (forall dbType,
        truthy (orElse (databaseType config) (DATABASE_TYPE H)) = Some dbType ->
        getDbInstance H (ticks w) dbType (embeddingModel config) = None ->
        queryDocuments H (S (ticks w)) (tc_question tc) 10 = Returned [] ->
        exists r elapsed,
          retrieve H config tc w
          = (Returned r,
             {| ticks := 2 + ticks w;
                history :=
                  history w
                  ++ [GetDbInstance dbType (embeddingModel config);
                      QueryDocuments (tc_question tc) 10;
                      Enqueue (EvLog (RerankDone elapsed))] |})
          /\ augmentedPrompt r = tc_question tc).
Proof.
  intros Hab. split.
  - intros Hdb. unfold retrieve. rewrite bind_run. unfold now at 1.
    cbv iota beta. rewrite Hdb. unfold retrievalFailed.
    rewrite bind_run, (onProgress_calm H Hab). simpl. by eexists _, _.
  - intros dbType Hdb Hconn Hq. unfold retrieve.
    rewrite bind_run. unfold now at 1. cbv iota beta.
    rewrite Hdb, bind_run. unfold connect at 1. cbv iota beta. rewrite Hconn.
    rewrite bind_run. unfold query at 1. cbv iota beta.
    cbn [ticks history]. rewrite Hq.
    rewrite bind_run. unfold now at 1. cbv iota beta.
    rewrite bind_run. unfold now at 1. cbv iota beta.
    rewrite bind_run. cbn [documentsToRerank imap rerankDocuments].
    unfold mret at 1, M_ret at 1. cbv iota beta.
    rewrite bind_run. unfold now at 1. cbv iota beta.
    unfold tryCatch. rewrite bind_run, (onProgress_calm H Hab). cbv iota beta.
    cbn [ticks history]. rewrite <- !app_assoc. simpl. by eexists _, _.
Qed.

(** The first test case on a host whose store holds nothing. *)
Lemma retrieval_without_context_witness :
  abortAt emptyStoreHost = None
  /\ exists r elapsed,
       retrieve emptyStoreHost oneCase (caseNumber 1) initialWorld
       = (Returned r,
          {| ticks := 2;
             history :=
               [GetDbInstance "CHROMA" (Some "bge-m3"%string);
                QueryDocuments "question 1" 10;
                Enqueue (EvLog (RerankDone elapsed))] |})
       /\ augmentedPrompt r = "question 1"%string.
Proof.
  split; [reflexivity|].
  destruct (retrieval_without_context emptyStoreHost oneCase (caseNumber 1)
              initialWorld eq_refl) as [_ Hempty].
  apply (Hempty "CHROMA"%string); reflexivity.
Defined.

(** X13.  The context of a prompt never holds more than 3 chunks.  When
    some reranked chunk among the first three reaches the threshold, the
    context is made of exactly those, in the order of the reranker, and
    each has a score of at least 0.8; the context is empty only when the
    store returned no document. *)
Theorem context_is_bounded (relevantChunks : list Similarity.Document)
    (rerankedResults : list RerankResult) :
  let final := finalContextChunks relevantChunks rerankedResults in
  length final <= 3
  /\ (thresholdFilter (finalChunks relevantChunks rerankedResults) <> [] ->
      final = thresholdFilter (finalChunks relevantChunks rerankedResults)
      /\ Forall (fun chunk =>
                   (SIMILARITY_THRESHOLD <=? cc_similarity chunk)%float = true)
                final
      /\ sublist (map cc_similarity final)
                 (map rr_score (take 3 rerankedResults)))
  /\ (final = [] -> relevantChunks = []).
Proof.
  intros final. unfold final, finalContextChunks.
  set (filtered := thresholdFilter (finalChunks relevantChunks rerankedResults)).
  assert (length filtered <= 3) as Hlen.
  { unfold filtered, thresholdFilter, finalChunks.
    etrans; [apply filter_length_le|]. rewrite length_map, length_take. lia. }
  split; [|split].
  - destruct (Nat.eqb_spec (length filtered) 0) as [Hz|Hnz]; [|done].
    destruct (0 <? length relevantChunks)%nat; simpl; [|done].
    unfold rawFallback. rewrite length_map, length_take. lia.
  - intros Hne.
    destruct (Nat.eqb_spec (length filtered) 0) as [Hz|Hnz].
    { by apply nil_length_inv in Hz. }
    simpl. split; [done|]. split.
    + unfold filtered, thresholdFilter. apply Forall_forall. intros c Hc.
      apply list_elem_of_In, filter_In in Hc. tauto.
    + unfold filtered, thresholdFilter, finalChunks.
      induction (take 3 rerankedResults) as [|x l IH]; simpl; [constructor|].
      destruct (_ <=? _)%float; simpl.
      * by apply sublist_skip.
      * by apply sublist_cons.
  - destruct (Nat.eqb_spec (length filtered) 0) as [Hz|Hnz].
    + destruct relevantChunks as [|c l]; [done|]. simpl. done.
    + simpl. intros Hf. by rewrite Hf in Hnz.
Qed.

End RetrievalMoreSpec.

Module ParseScoreFacts.
Import Orchestrator OrchestratorMore StringFacts.
Open Scope string_scope.

Lemma pretty_N_char_digit x :
  (x < 10)%N ->
  isDigit (pretty_N_char x) = true
  /\ (Z.of_nat (nat_of_ascii (pretty_N_char x)) - 48)%Z = Z.of_N x.
Proof.
  intros Hx.
  assert (x = 0 \/ x = 1 \/ x = 2 \/ x = 3 \/ x = 4 \/ x = 5 \/ x = 6
          \/ x = 7 \/ x = 8 \/ x = 9)%N as Hc by lia.
  by repeat (destruct Hc as [->|Hc]; [done|]); subst.
Qed.

Lemma hasDigit_app a b : hasDigit (a +:+ b) = hasDigit a || hasDigit b.
Proof.
  induction a as [|c a IH]; [done|]. rewrite append_cons. simpl.
  rewrite IH. by destruct (isDigit c).
Qed.

(** The digits of [x], which [pretty_N_go] puts before its second
    argument. *)
Lemma pretty_N_go_app x s : pretty_N_go x s = pretty_N_go x "" +:+ s.
Proof.
  revert s. induction (N.lt_wf_0 x) as [x _ IH]; intros s.
  assert (x = 0 \/ 0 < x)%N as [->|Hx] by lia; [done|].
  rewrite !(pretty_N_go_step x) by done.
  assert (x `div` 10 < x)%N as Hlt by (by apply N.div_lt).
  rewrite (IH (x `div` 10)%N Hlt (String _ s)).
  rewrite (IH (x `div` 10)%N Hlt (String _ "")).
  by rewrite append_assoc.
Qed.

Lemma pretty_N_go_digits x :
  hasDigit (pretty_N_go x "") = negb (x =? 0)%N
  /\ forallb isDigit (list_ascii_of_string (pretty_N_go x "")) = true
  /\ fold_left digitValue (list_ascii_of_string (pretty_N_go x "")) 0%Z
     = Z.of_N x.
Proof.
  induction (N.lt_wf_0 x) as [x _ IH].
  assert (x = 0 \/ 0 < x)%N as [->|Hx] by lia; [done|].
  rewrite pretty_N_go_step, pretty_N_go_app by done.
  destruct (IH (x `div` 10)%N) as (_ & Hall & Hval); [by apply N.div_lt|].
  destruct (pretty_N_char_digit (x `mod` 10)%N) as [Hd Hv];
    [by apply N.mod_lt|].
  set (ds := pretty_N_go (x `div` 10) "") in *.
  assert (forall (a b : string),
            list_ascii_of_string (a +:+ b)
            = (list_ascii_of_string a ++ list_ascii_of_string b)%list) as Hl.
  { induction a as [|c a IHa]; intros b; [done|].
    rewrite append_cons. simpl. by rewrite IHa. }
  split; [|split].
  - destruct (N.eqb_spec x 0); [lia|].
    rewrite hasDigit_app. cbn [hasDigit]. rewrite Hd.
    by destruct (hasDigit ds).
  - rewrite Hl, forallb_app, Hall. simpl. by rewrite Hd.
  - rewrite Hl, fold_left_app, Hval. simpl. unfold digitValue at 1.
    rewrite Hv. rewrite (N.div_mod x 10) at 3 by done. lia.
Qed.

Lemma pretty_N_digits (n : N) :
  pretty n <> ""
  /\ forallb isDigit (list_ascii_of_string (pretty n)) = true
  /\ fold_left digitValue (list_ascii_of_string (pretty n)) 0%Z = Z.of_N n.
Proof.
  unfold pretty, pretty_N. destruct (decide (n = 0%N)) as [->|Hn]; [done|].
  destruct (pretty_N_go_digits n) as (Hh & Hall & Hval).
  split; [|done]. intros He. rewrite He in Hh. simpl in Hh.
  destruct (N.eqb_spec n 0); done.
Qed.

Lemma firstDigits_skip pre s :
  hasDigit pre = false -> firstDigits (pre +:+ s) = firstDigits s.
Proof.
  induction pre as [|c pre IH]; [done|]. rewrite append_cons. simpl.
  destruct (isDigit c); [done|]. simpl. exact IH.
Qed.

Lemma leadingDigits_run ds post :
  forallb isDigit (list_ascii_of_string ds) = true ->
  startsWithDigit post = false ->
  leadingDigits (ds +:+ post) = list_ascii_of_string ds.
Proof.
  intros Hall Hpost. induction ds as [|c ds IH].
  - rewrite append_nil. destruct post as [|c post]; [done|].
    simpl in *. by rewrite Hpost.
  - rewrite append_cons. simpl in *.
    apply andb_true_iff in Hall as [-> Hall]. by rewrite IH.
Qed.

Lemma firstDigits_run ds post :
  ds <> "" ->
  forallb isDigit (list_ascii_of_string ds) = true ->
  startsWithDigit post = false ->
  firstDigits (ds +:+ post) = list_ascii_of_string ds.
Proof.
  intros Hne Hall Hpost. destruct ds as [|c ds]; [done|].
  rewrite append_cons. simpl in *.
  apply andb_true_iff in Hall as [-> Hall]. by rewrite leadingDigits_run.
Qed.

Lemma firstDigits_none s : hasDigit s = false -> firstDigits s = [].
Proof.
  induction s as [|c s IH]; [done|]. simpl.
  destruct (isDigit c); [done|]. exact IH.
Qed.

Lemma digitValue_nonneg ds acc :
  forallb isDigit ds = true -> (0 <= acc)%Z ->
  (0 <= fold_left digitValue ds acc)%Z.
Proof.
  revert acc. induction ds as [|c ds IH]; intros acc Hall Hacc; [done|].
  simpl in *. apply andb_true_iff in Hall as [Hc Hall]. apply IH; [done|].
  unfold digitValue, isDigit in *. apply andb_true_iff in Hc as [Hc _].
  apply Nat.leb_le in Hc. lia.
Qed.

Lemma leadingDigits_digits s : forallb isDigit (leadingDigits s) = true.
Proof.
  induction s as [|c s IH]; [done|]. simpl.
  destruct (isDigit c) eqn:Hc; [|done]. simpl. by rewrite Hc.
Qed.

Lemma firstDigits_digits s : forallb isDigit (firstDigits s) = true.
Proof.
  induction s as [|c s IH]; [done|]. simpl.
  destruct (isDigit c) eqn:Hc; [|done]. simpl.
  by rewrite Hc, leadingDigits_digits.
Qed.

End ParseScoreFacts.

Module ParseScoreSpec.
Import Orchestrator OrchestratorMore StringFacts ParseScoreFacts.
Open Scope string_scope.

(** X14.  The score read from the reply of the scoring model is the
    number its first run of decimal digits denotes, whatever stands
    before and behind: a reply without a digit scores 0, a sign before
    the digits is not read, so no score is negative, and nothing bounds
    the score by the maximum of the test case.  (A JavaScript number is
    exact below 2^53.) *)
Theorem score_is_first_digit_run (before after : string) (n : N) :
  hasDigit before = false ->
  startsWithDigit after = false ->
  (n < 2 ^ 53)%N ->
  parseScore (before +:+ pretty n +:+ after) = Z.of_N n
  /\ parseScore before = 0%Z
  /\ forall content, (0 <= parseScore content)%Z.
Proof.
  intros Hb Ha _. destruct (pretty_N_digits n) as (Hne & Hall & Hval).
  split; [|split].
  - unfold parseScore. rewrite firstDigits_skip by done.
    by rewrite firstDigits_run.
  - unfold parseScore. by rewrite firstDigits_none.
  - intros content. unfold parseScore.
    apply (digitValue_nonneg _ 0%Z); [apply firstDigits_digits|done].
Qed.

(** A reply that gives 12 out of 10, behind a minus sign. *)
Lemma score_is_first_digit_run_witness :
  parseScore "Score: -12/10" = 12%Z.
Proof.
  apply (score_is_first_digit_run "Score: -" "/10" 12); [done|done|].
  vm_compute. reflexivity.
Defined.

End ParseScoreSpec.

Module TestCasesFacts.
Import TestCases.

Lemma maxId_ge first others :
  (first <= maxId first others)%Z
  /\ Forall (fun i => (i <= maxId first others)%Z) others.
Proof.
  unfold maxId. revert first.
  induction others as [|x others IH]; intros first; simpl; [by split|].
  destruct (IH (Z.max first x)) as [H1 H2]. split; [lia|].
  constructor; [lia|done].
Qed.

(** The new identifier lies above every identifier in the file. *)
Lemma newId_above questions :
  Forall (fun q => (q_id q < newId questions)%Z) questions.
Proof.
  unfold newId. destruct questions as [|q questions]; [constructor|].
  cbn [map]. destruct (maxId_ge (q_id q) (map q_id questions)) as [H1 H2].
  constructor; [lia|]. apply Forall_forall. intros x Hx.
  rewrite Forall_forall in H2. specialize (H2 (q_id x)).
  assert (q_id x ∈ map q_id questions) as Hin.
  { apply list_elem_of_In, in_map, list_elem_of_In, Hx. }
  specialize (H2 Hin). simpl in H2. lia.
Qed.

Lemma filter_all {A} (p : A -> bool) l :
  Forall (fun x => p x = true) l -> List.filter p l = l.
Proof.
  induction 1 as [|x l Hx Hl IH]; [done|]. simpl. by rewrite Hx, IH.
Qed.

Lemma NoDup_filter_ids (p : Question -> bool) l :
  List.NoDup (map q_id l) -> List.NoDup (map q_id (List.filter p l)).
Proof.
  induction l as [|q l IH]; [done|]. simpl. intros Hnd.
  inversion Hnd as [|? ? Hnotin Hrest]; subst.
  destruct (p q); [|by apply IH]. simpl. constructor; [|by apply IH].
  intros Hin. apply Hnotin. apply in_map_iff in Hin as (x & Hx & Hin).
  apply filter_In in Hin as [Hin _]. apply in_map_iff. eauto.
Qed.

End TestCasesFacts.

Module TestCasesSpec.
Import TestCases TestCasesFacts.
Open Scope string_scope.

(** X15.  The three actions keep the identifiers of the file distinct:
    [add] gives the new test case an identifier above all others, [edit]
    changes no identifier, and [delete] only removes. *)
Theorem test_case_ids_stay_distinct (r : Request)
    (questions questions' : list Question) :
  safeIds questions ->
  List.NoDup (map q_id questions) ->
  applyAction r questions = Returned questions' ->
  List.NoDup (map q_id questions').
Proof.
  intros _ Hnd. unfold applyAction.
  destruct (String.eqb _ "add").
  { intros [= <-]. rewrite map_app. simpl.
    apply NoDup_ListNoDup, NoDup_app. split; [by apply NoDup_ListNoDup|].
    split; [|apply NoDup_singleton].
    intros i Hi Hn. apply list_elem_of_In in Hi, Hn. destruct Hn as [<-|[]].
    apply in_map_iff in Hi as (q & Hq & Hin).
    pose proof (newId_above questions) as Hab.
    rewrite Forall_forall in Hab.
    specialize (Hab q (proj2 (list_elem_of_In _ _) Hin)). simpl in Hab. lia. }
  destruct (String.eqb _ "edit").
  { intros [= <-]. rewrite map_map.
    erewrite map_ext; [exact Hnd|]. intros q. simpl.
    by destruct (hasId (req_id r) q). }
  destruct (String.eqb _ "delete"); [|done].
  intros [= <-]. by apply NoDup_filter_ids.
Qed.

Lemma test_case_ids_stay_distinct_witness :
  safeIds twoQuestions
  /\ List.NoDup (map q_id twoQuestions)
  /\ exists questions',
       applyAction (addRequest "third" "three") twoQuestions
       = Returned questions'
       /\ map q_id questions' = [3; 7; 8]%Z
       /\ List.NoDup (map q_id questions').
Proof.
  assert (List.NoDup (map q_id twoQuestions)) as Hnd.
  { repeat constructor; simpl; intuition discriminate. }
  assert (safeIds twoQuestions) as Hsafe.
  { repeat constructor; simpl; lia. }
  split; [exact Hsafe|]. split; [exact Hnd|].
  eexists. split; [reflexivity|]. split; [reflexivity|].
  apply (test_case_ids_stay_distinct (addRequest "third" "three")
           twoQuestions _ Hsafe Hnd). reflexivity.
Defined.

(** X16.  [add] appends one test case and leaves the others as they are;
    its identifier is 1 in an empty file and otherwise one more than the
    greatest in the file, so a [delete] of that identifier right after
    gives the file back. *)
Theorem add_appends_a_fresh_test_case (r : Request)
    (questions : list Question) :
  safeIds questions ->
  action r = Some "add" ->
  exists q,
    applyAction r questions = Returned (questions ++ [q])%list
    /\ q_id q = newId questions
    /\ Forall (fun item => (q_id item < q_id q)%Z) questions
    /\ (questions = [] -> q_id q = 1%Z)
    /\ q_question q = req_question r /\ q_answer q = req_answer r
    /\ applyAction (deleteRequest (q_id q)) (questions ++ [q])%list
       = Returned questions.
Proof.
  intros _ Ha. unfold applyAction at 1. rewrite Ha. simpl.
  eexists. split; [reflexivity|]. simpl. split; [done|].
  pose proof (newId_above questions) as Hab.
  split; [done|]. split; [by intros ->|]. split; [done|]. split; [done|].
  unfold applyAction. simpl. f_equal.
  rewrite List.filter_app. simpl. rewrite Z.eqb_refl. simpl.
  rewrite app_nil_r. apply filter_all.
  eapply Forall_impl; [exact Hab|]. intros q Hq. simpl in *.
  destruct (Z.eqb_spec (q_id q) (newId questions)); [lia|done].
Qed.

Lemma add_appends_a_fresh_test_case_witness :
  exists q,
    applyAction (addRequest "third" "three") twoQuestions
    = Returned (twoQuestions ++ [q])%list
    /\ q_id q = 8%Z
    /\ applyAction (deleteRequest 8) (twoQuestions ++ [q])%list
       = Returned twoQuestions.
Proof.
  assert (safeIds twoQuestions) as Hsafe.
  { repeat constructor; simpl; lia. }
  destruct (add_appends_a_fresh_test_case (addRequest "third" "three")
              twoQuestions Hsafe eq_refl) as (q & Hrun & Hid & _ & _ & _ & _ & Hdel).
  exists q. split; [exact Hrun|].
  assert (q_id q = 8%Z) as H8 by (rewrite Hid; reflexivity).
  split; [exact H8|]. rewrite <- H8. exact Hdel.
Defined.

(** X17.  An [edit] or a [delete] for an identifier no test case has
    changes nothing, and is answered as a success all the same; an action
    that is none of the three is refused. *)
Theorem missing_id_changes_nothing (r : Request) (questions : list Question) :
  (action r = Some "edit" \/ action r = Some "delete"
   -> Forall (fun item => hasId (req_id r) item = false) questions
   -> applyAction r questions = Returned questions)
  /\ (action r <> Some "add" -> action r <> Some "edit"
      -> action r <> Some "delete"
      -> applyAction r questions = Threw "Invalid action").
Proof.
  split.
  - intros [Ha|Ha] Hno; unfold applyAction; rewrite Ha; simpl; f_equal.
    + induction Hno as [|q l Hq Hl IH]; [done|]. simpl. by rewrite Hq, IH.
    + apply filter_all. eapply Forall_impl; [exact Hno|].
      intros q Hq. simpl in Hq. by rewrite Hq.
  - intros H1 H2 H3. unfold applyAction.
    destruct (action r) as [a|]; [|done]. simpl.
    destruct (String.eqb_spec a "add") as [->|_]; [done|].
    destruct (String.eqb_spec a "edit") as [->|_]; [done|].
    destruct (String.eqb_spec a "delete") as [->|_]; done.
Qed.

End TestCasesSpec.

Module UpdateStandardAnswerSpec.
Import Orchestrator UpdateStandardAnswer.

(** X18.  [updateResultFile] sets the score of every entry of the
    question to the maximum and changes nothing else: the entries keep
    their order and their identifiers, an entry of another question is
    left as it is, and an entry of the question keeps its answer.  The
    file is written exactly when it holds an entry of the question; and a
    second update with the same arguments changes nothing more. *)
Theorem update_sets_only_the_score (questionId newScore : Z)
    (results : list ResultEntry) :
  let after := (updateResultFile questionId newScore results).1 in
  let written := (updateResultFile questionId newScore results).2 in
  map entry_id after = map entry_id results
  /\ map modelAnswer after = map modelAnswer results
  /\ Forall2 (fun old new =>
                if (entry_id old =? questionId)%Z
                then entry_score new = newScore
                else new = old)
             results after
  /\ (written = true <-> In questionId (map entry_id results))
  /\ (written = false -> after = results)
  /\ (updateResultFile questionId newScore after).1 = after.
Proof.
  intros after written. unfold after, written, updateResultFile, updateScores.
  cbn [fst snd].
  set (f := fun result : ResultEntry =>
              if (entry_id result =? questionId)%Z
              then withScore newScore result else result).
  assert (map entry_id (map f results) = map entry_id results) as Hids.
  { rewrite map_map. apply map_ext. intros e. unfold f.
    by destruct (entry_id e =? questionId)%Z. }
  assert (map modelAnswer (map f results) = map modelAnswer results) as Hans.
  { rewrite map_map. apply map_ext. intros e. unfold f.
    by destruct (entry_id e =? questionId)%Z. }
  assert (existsb (fun r => (entry_id r =? questionId)%Z) results = true
          <-> In questionId (map entry_id results)) as Hex.
  { rewrite existsb_exists, in_map_iff. split.
    - intros (x & Hin & Hx). apply Z.eqb_eq in Hx. eauto.
    - intros (x & Hx & Hin). exists x. split; [done|]. by apply Z.eqb_eq. }
  assert (existsb (fun r => (entry_id r =? questionId)%Z) results = false
          -> map f results = results) as Hno.
  { intros Hf. rewrite <- (map_id results) at 2. apply map_ext_in.
    intros e He. unfold f.
    destruct (Z.eqb_spec (entry_id e) questionId) as [Heq|]; [|done].
    exfalso. apply not_true_iff_false in Hf. apply Hf, Hex.
    rewrite <- Heq. by apply in_map. }
  assert (map f (map f results) = map f results) as Hidem.
  { rewrite map_map. apply map_ext. intros e. unfold f.
    destruct (Z.eqb_spec (entry_id e) questionId) as [Heq|Hne]; simpl.
    - by rewrite (proj2 (Z.eqb_eq _ _) Heq).
    - by rewrite (proj2 (Z.eqb_neq _ _) Hne). }
  assert (existsb (fun r => (entry_id r =? questionId)%Z) (map f results)
          = existsb (fun r => (entry_id r =? questionId)%Z) results) as Hsame.
  { clear. induction results as [|e l IH]; [done|]. simpl. rewrite IH.
    f_equal. unfold f. by destruct (entry_id e =? questionId)%Z eqn:E. }
  destruct (existsb _ results) eqn:Hw; cbn [fst snd].
  - split; [done|]. split; [done|]. split.
    { clear. induction results as [|e l IH]; constructor; [|done].
      unfold f. by destruct (entry_id e =? questionId)%Z. }
    split; [exact Hex|]. split; [done|].
    rewrite Hsame. cbn [fst]. exact Hidem.
  - split; [done|]. split; [done|]. split.
    { rewrite <- (Hno eq_refl) at 2.
      clear. induction results as [|e l IH]; constructor; [|done].
      unfold f. by destruct (entry_id e =? questionId)%Z. }
    split; [exact Hex|]. split; [done|]. by rewrite Hw.
Qed.

End UpdateStandardAnswerSpec.

Module ModelCallSpec.
Import Orchestrator RetryFacts ModelService.
Open Scope string_scope.

(** X19.  [safeModelCall] over [handleChat]: a model identifier that
    [parseModelSelection] refuses is not refused at once but tried three
    times, with the two pauses of two seconds, and the failure carries
    the message of the [TypeError]; and since [handleChat] always gives a
    string content, a failure of [safeModelCall] always carries what was
    thrown at the third attempt. *)
Theorem model_call_over_handleChat (H : Host)
    (generate :
       nat -> list ChatMessage -> string -> string -> Result ProviderResponse)
    (selectedModel : string) (messages : list ChatMessage) (w : World) :
  (forall t, Orchestrator.handleChat H t selectedModel messages
             = chatOf generate t selectedModel messages) ->
  (forall e, parseModelSelection selectedModel = Threw e ->
     safeModelCall H selectedModel messages w
     = (Returned (failedWith e),
        {| ticks := 5 + ticks w;
           history :=
             (history w
              ++ attempts (HandleChat selectedModel messages) 2)%list |}))
  /\ (forall r w',
        safeModelCall H selectedModel messages w = (Returned r, w') ->
        success r = false ->
        exists e,
          ModelService.handleChat (generate (4 + ticks w) messages)
            selectedModel = Threw e
          /\ error r
             = Some (if String.eqb e "" then
                       "A critical error occurred during model call"
                     else e)).
Proof.
  intros Hchat. split.
  - intros e He. rewrite safeModelCall_run. cbv zeta.
    rewrite !Hchat. unfold chatOf, ModelService.handleChat. rewrite He.
    unfold lastFailure. do 2 f_equal.
    unfold parseModelSelection in He.
    destruct (String.eqb selectedModel ""); [by injection He as <-|].
    destruct (indexOfColon selectedModel) as [i|]; [|by injection He as <-].
    destruct (_ || _); [by injection He as <-|done].
  - intros r w'. rewrite safeModelCall_run. cbv zeta. rewrite !Hchat.
    unfold chatOf.
    destruct (ModelService.handleChat (generate (ticks w) messages) _)
      as [r1|e1]; [by intros [= <- <-]|].
    destruct (ModelService.handleChat (generate (2 + ticks w) messages) _)
      as [r2|e2]; [by intros [= <- <-]|].
    destruct (ModelService.handleChat (generate (4 + ticks w) messages) _)
      as [r3|e3]; [by intros [= <- <-]|].
    intros [= <- <-] _. by exists e3.
Qed.

Lemma model_call_over_handleChat_witness :
  safeModelCall answering "gpt-4o" [] initialWorld
  = (Returned (failedWith (badSelection "gpt-4o")),
     {| ticks := 5;
        history := attempts (HandleChat "gpt-4o" []) 2 |}).
Proof.
  exact (proj1 (model_call_over_handleChat answering sevens "gpt-4o" [] initialWorld
                  (fun t => eq_refl))
           (badSelection "gpt-4o") eq_refl).
Defined.

End ModelCallSpec.

Module CompletionFacts.
Import Orchestrator OrchestratorFacts PersistenceFacts CancellationFacts.
Import OrchestratorMore OrchestratorMoreFacts StreamFacts.
Open Scope list_scope.

Lemma bind_inv {A B} (m : M A) (f : A -> M B) w b w' :
  (m ≫= f) w = (Returned b, w') ->
  exists a w1, m w = (Returned a, w1) /\ f a w1 = (Returned b, w').
Proof.
  rewrite bind_run. destruct (m w) as [[a|e] w1]; [|done]. intros Hf.
  by exists a, w1.
Qed.

(** Actions that keep the file of [loop] leave it as it is. *)
Lemma resultsFile_kept loop h seg :
  Forall (keeps loop) seg -> resultsFile (h ++ seg) loop = resultsFile h loop.
Proof.
  induction seg as [|a seg IH] using rev_ind; intros Hk.
  { by rewrite app_nil_r. }
  apply Forall_app in Hk as [Hseg Ha]. inversion Ha as [|? ? Hka _]; subst.
  rewrite app_assoc, resultsFile_snoc, IH by done.
  destruct a as [| | | | | |l es| | | | |]; try done.
  simpl in Hka. by destruct (Nat.eqb_spec l loop).
Qed.

Lemma adds_kept loop {A} (c : M A) w :
  adds (keeps loop) c ->
  resultsFile (history (c w).2) loop = resultsFile (history w) loop.
Proof.
  intros Hc. destruct (Hc w) as (seg & -> & _ & Hk). by apply resultsFile_kept.
Qed.

Lemma quiet_absent h : Forall quiet h -> ~ In DONE h.
Proof.
  intros Hq Hin. rewrite Forall_forall in Hq.
  exact (Hq _ (proj2 (list_elem_of_In _ _) Hin)).
Qed.

Section Completion.

Variable H : Host.
Variable config : Config.

Let total := (length (testCases config) * 2) * loopCount config.

Lemma keeps_Allows loop : Allows (keeps loop).
Proof. by split. Qed.

(** A loop writes no file but its own. *)
Lemma keeps_runLoop loop other counters :
  other <> loop -> adds (keeps loop) (runLoop H config total other counters).
Proof.
  intros Hne. unfold runLoop.
  apply adds_bind; [apply adds_throwIfCancelled|]. intros _.
  apply adds_bind; [by apply adds_disk|]. intros _.
  apply adds_bind; [by apply adds_disk|]. intros _.
  apply adds_bind; [|intros; apply adds_ret].
  apply adds_forEach. intros tc s.
  by apply allowed_runTestCase; [apply keeps_Allows|..].
Qed.

Lemma keeps_loops loop loops counters :
  ~ In loop loops ->
  adds (keeps loop) (forEach (runLoop H config total) loops counters).
Proof.
  revert counters. induction loops as [|l loops IH]; intros counters Hnot.
  { apply adds_ret. }
  cbn [forEach]. apply adds_bind.
  - apply keeps_runLoop. intros ->. apply Hnot. by left.
  - intros c. apply IH. intros Hin. apply Hnot. by right.
Qed.

(** A loop that returns has left an entry for every test case in its
    file. *)
Lemma runLoop_complete loop counters w c' w' :
  runLoop H config total loop counters w = (Returned c', w') ->
  resultsFile (history w) loop = None ->
  map entry_id (default [] (resultsFile (history w') loop))
  = map tc_id (testCases config).
Proof.
  unfold runLoop. intros Hrun Hnone.
  apply bind_inv in Hrun as ([] & w1 & H1 & Hrun).
  apply bind_inv in Hrun as ([] & w2 & H2 & Hrun).
  apply bind_inv in Hrun as ([] & w3 & H3 & Hrun).
  apply bind_inv in Hrun as (s & w4 & H4 & Hrun).
  injection Hrun as <- <-.
  assert (resultsFile (history w3) loop = None) as Hw3.
  { pose proof (adds_kept loop (throwIfCancelled H) w
                  (adds_throwIfCancelled _ H)) as K1.
    pose proof (adds_kept loop (disk H (MkdirLoop loop)) w1
                  (adds_disk _ H _ I)) as K2.
    pose proof (adds_kept loop (disk H (EnsureLogFile loop)) w2
                  (adds_disk _ H _ I)) as K3.
    rewrite H1 in K1. rewrite H2 in K2. rewrite H3 in K3. simpl in *.
    by rewrite K3, K2, K1. }
  apply forEach_returned in H4 as [Hids Hlast]. simpl in Hids.
  destruct (testCases config) as [|tc cases].
  - subst w4. by rewrite Hw3.
  - rewrite Hlast. exact Hids.
Qed.

Lemma loops_complete loops counters w c' w' :
  List.NoDup loops ->
  forEach (runLoop H config total) loops counters w = (Returned c', w') ->
  (forall loop, In loop loops -> resultsFile (history w) loop = None) ->
  forall loop, In loop loops ->
    map entry_id (default [] (resultsFile (history w') loop))
    = map tc_id (testCases config).
Proof.
  revert counters w. induction loops as [|l loops IH];
    intros counters w Hnd Hrun Hnone loop Hin; [done|].
  inversion Hnd as [|? ? Hnot Hnd']; subst.
  cbn [forEach] in Hrun. apply bind_inv in Hrun as (c1 & w1 & H1 & Hrun).
  destruct Hin as [<-|Hin].
  - pose proof (adds_kept l _ w1 (keeps_loops l loops c1 Hnot)) as K.
    rewrite Hrun in K. simpl in K. rewrite K.
    eapply runLoop_complete; [exact H1|]. apply Hnone. by left.
  - eapply IH; [done|exact Hrun| |done].
    intros l' Hl'.
    assert (l <> l') as Hne by (intros ->; done).
    pose proof (adds_kept l' _ w (keeps_runLoop l' l counters Hne)) as K.
    rewrite H1 in K. simpl in K. rewrite K. apply Hnone. by right.
Qed.

(** A run that sends the [done] frame has come through all its loops. *)
Lemma done_inv :
  In DONE (history (POST H config initialWorld).2) ->
  exists w2 c' w3,
    forEach (runLoop H config total) (seq 1 (loopCount config)) (0, 0%Z) w2
    = (Returned c', w3)
    /\ (forall loop, resultsFile (history w2) loop = None)
    /\ forall loop,
         resultsFile (history (POST H config initialWorld).2) loop
         = resultsFile (history w3) loop.
Proof.
  unfold POST. rewrite bind_run. unfold tryCatch.
  pose proof (ends_tryBlock H config initialWorld) as (seg & Hh & Hend).
  destruct (tryBlock H config initialWorld) as [[[]|e] w'] eqn:Htry;
    simpl in Hh, Hend |- *.
  2:{ intros Hin. exfalso. unfold catchBlock in Hin.
      destruct (String.eqb e CANCELLED); simpl in Hin; rewrite Hh in Hin;
        rewrite <- app_assoc in Hin; apply in_app_iff in Hin as [Hin|Hin];
        first [by apply quiet_absent in Hin
              |by destruct Hin as [?|[?|[]]]]. }
  intros Hin. unfold tryBlock in Htry.
  apply bind_inv in Htry as ([] & w1 & H1 & Htry).
  apply bind_inv in Htry as ([] & w2 & H2 & Htry).
  apply bind_inv in Htry as ([] & w3 & H3 & Htry).
  rewrite bind_run in Htry. unfold isCancelled in Htry.
  unfold runTask in H3.
  apply bind_inv in H3 as ([] & w2' & H2' & H3).
  apply bind_inv in H3 as (c' & w3' & H3 & Hret).
  injection Hret as <-.
  exists w2', c', w3'. split; [exact H3|].
  assert (forall loop, resultsFile (history w2') loop = None) as Hnone.
  { intros loop.
    pose proof (adds_kept loop (disk H MkdirBase) initialWorld
                  (adds_disk _ H _ I)) as K1.
    pose proof (adds_kept loop
                  (sendEvent (EvLog (ResultDirCreated (getTimestamp H)))) w1
                  (adds_sendEvent _ _ I)) as K2.
    pose proof (adds_kept loop
                  (onProgress H (EvLog (LoadingProject (projectName config))))
                  w2 (adds_onProgress _ H _ I)) as K3.
    rewrite H1 in K1. rewrite H2 in K2. rewrite H2' in K3. simpl in *.
    by rewrite K3, K2, K1. }
  split; [exact Hnone|]. intros loop.
  destruct (aborted H w3') eqn:Hab.
  - exfalso. injection Htry as <-.
    destruct Hend as [[Hq _]|(body & -> & Hq)].
    + rewrite Hh in Hin. apply in_app_iff in Hin as [Hin|[Hin|[]]]; [|done].
      by apply quiet_absent in Hin.
    + pose proof (quiet_runTask H config w2) as (s3 & Hs3 & _ & Hq3).
      pose proof (adds_disk quiet H MkdirBase I initialWorld)
        as (s1 & Hs1 & _ & Hq1).
      pose proof (adds_sendEvent quiet
                    (EvLog (ResultDirCreated (getTimestamp H))) I w1)
        as (s2 & Hs2 & _ & Hq2).
      unfold runTask in Hs3. rewrite (bind_returned _ _ _ _ _ H2') in Hs3.
      rewrite (bind_returned _ _ _ _ _ H3) in Hs3. simpl in Hs3.
      rewrite H1 in Hs1. rewrite H2 in Hs2. simpl in *.
      assert (In DONE (s1 ++ s2 ++ s3)) as Hd.
      { rewrite Hs3, Hs2, Hs1 in Hh. simpl in Hh. rewrite <- !app_assoc in Hh.
        rewrite Hh. apply in_app_iff. right. by left. }
      apply quiet_absent in Hd; [done|].
      by repeat apply Forall_app_2.
  - injection Htry as <-. simpl. by rewrite !resultsFile_snoc.
Qed.

End Completion.

End CompletionFacts.

Module CompletionSpec.
Import Orchestrator OrchestratorMore CompletionFacts.
Open Scope list_scope.

(** X20.  A run whose stream carries the [done] frame has completed every
    loop: for each loop from 1 to [loopCount], the results file of the
    loop holds one entry for each test case, in the order of the test
    cases. *)
Theorem done_means_complete (H : Host) (config : Config) (loop : nat) :
  In DONE (history (POST H config initialWorld).2) ->
  1 <= loop <= loopCount config ->
  map entry_id
    (default [] (resultsFile (history (POST H config initialWorld).2) loop))
  = map tc_id (testCases config).
Proof.
  intros Hdone Hloop.
  destruct (done_inv H config Hdone) as (w2 & c' & w3 & Hrun & Hnone & Hsame).
  rewrite Hsame.
  eapply loops_complete; [apply List.seq_NoDup|exact Hrun|auto|].
  apply in_seq. lia.
Qed.

Lemma done_means_complete_witness :
  In DONE (history (POST (healthyHost None) oneCase initialWorld).2)
  /\ map entry_id
       (default []
          (resultsFile
             (history (POST (healthyHost None) oneCase initialWorld).2) 1))
     = map tc_id (testCases oneCase).
Proof.
  assert (history (POST (healthyHost None) oneCase initialWorld).2 !! 22
          = Some DONE) as Hat by (vm_compute; reflexivity).
  assert (In DONE (history (POST (healthyHost None) oneCase initialWorld).2))
    as Hdone.
  { apply list_elem_of_In. eapply list_elem_of_lookup_2. exact Hat. }
  split; [exact Hdone|].
  refine (done_means_complete (healthyHost None) oneCase 1 Hdone _).
  change (1 <= 1 <= 1). lia.
Defined.

End CompletionSpec.

Module ToolClientManagerFacts.
Import ToolClientManager.
Open Scope string_scope.

Lemma stripSlashes_slashes s : allSlashes s = true -> stripSlashes s = "".
Proof.
  induction s as [|c s IH]; [done|]. simpl.
  intros [Hc Hs]%andb_true_iff. by rewrite Hc, (IH Hs).
Qed.

Lemma stripSlashes_app s slashes :
  allSlashes slashes = true ->
  stripSlashes (s +:+ slashes) = stripSlashes s.
Proof.
  intros Hs. induction s as [|c s IH]; [by apply stripSlashes_slashes|].
  change (String c s +:+ slashes) with (String c (s +:+ slashes)).
  simpl. by rewrite IH.
Qed.

Lemma app_not_empty (s t : string) : s <> "" -> s +:+ t <> "".
Proof. by destruct s. Qed.

End ToolClientManagerFacts.

Module ToolClientManagerSpec.
Import ToolClientManager ToolClientManagerFacts.
Open Scope string_scope.

(** X21.  Once [getToolClientInstance] has returned a client for a URL,
    the same URL with any number of slashes added at its end gets that
    very client, and nothing is made.  The client is kept under the URL
    without its trailing slashes, which is the URL a new client is made
    with; so a URL that is slashes only, which the guard against an empty
    URL lets through, gets the client of the empty URL. *)
Theorem clients_are_shared_up_to_trailing_slashes
    (constructorError : string -> option string) (serverUrl slashes : string)
    (st st1 : State) (i : ToolClient) :
  allSlashes slashes = true ->
  getToolClientInstance constructorError serverUrl st = (Returned i, st1) ->
  getToolClientInstance constructorError (serverUrl +:+ slashes) st1
  = (Returned i, st1)
  /\ toolClientInstances st1 !! stripSlashes serverUrl = Some i
  /\ (toolClientInstances st !! stripSlashes serverUrl = None ->
      baseUrl i = stripSlashes serverUrl /\ clientId i = made st
      /\ made st1 = S (made st))
  /\ (allSlashes serverUrl = true -> toolClientInstances st1 !! "" = Some i).
Proof.
  intros Hs. unfold getToolClientInstance.
  destruct (String.eqb_spec serverUrl "") as [|Hne]; [done|].
  destruct (String.eqb_spec (serverUrl +:+ slashes) "") as [He|_].
  { by apply app_not_empty in He. }
  rewrite (stripSlashes_app _ _ Hs). cbv zeta.
  assert (toolClientInstances st1 !! stripSlashes serverUrl = Some i
          -> (allSlashes serverUrl = true
              -> toolClientInstances st1 !! "" = Some i)) as Hempty.
  { intros Hl Ha. by rewrite <- (stripSlashes_slashes _ Ha). }
  destruct (toolClientInstances st !! stripSlashes serverUrl) as [j|] eqn:Hj.
  - intros [= <- <-]. rewrite Hj. repeat split; try done. by apply Hempty.
  - destruct (constructorError (stripSlashes serverUrl)); [done|].
    intros [= <- <-]. simpl. rewrite lookup_insert_eq.
    repeat split; try done. intros Ha. apply Hempty; [|done].
    simpl. by rewrite lookup_insert_eq.
Qed.

Lemma clients_are_shared_up_to_trailing_slashes_witness :
  exists i st1,
    getToolClientInstance (fun _ => None) "http://localhost:8000/"
      emptyState = (Returned i, st1)
    /\ baseUrl i = "http://localhost:8000"
    /\ getToolClientInstance (fun _ => None) "http://localhost:8000///" st1
       = (Returned i, st1).
Proof.
  eexists _, _. split; [reflexivity|]. split; [reflexivity|].
  exact (proj1 (clients_are_shared_up_to_trailing_slashes (fun _ => None)
                  "http://localhost:8000/" "//" emptyState _ _
                  eq_refl eq_refl)).
Defined.

End ToolClientManagerSpec.

Module DbUtilsFacts.
Import DbUtils.

Lemma callsIn_app log more : callsIn (log ++ more) = callsIn log + callsIn more.
Proof. unfold callsIn. by rewrite List.filter_app, length_app. Qed.

End DbUtilsFacts.

Module DbUtilsSpec.
Import DbUtils DbUtilsFacts.

(** X22.  [retryAsync] calls [fn] until a call returns or [retries]
    retries are used up: with [k] the number of calls that failed before
    its last call, [k] is at most [retries], each failed call was
    followed by one pause of [delay], the outcome is that of the last
    call (so what is thrown in the end is the last error, not the
    first), and it throws only after [retries + 1] calls.  A [retries]
    that is zero or negative gives one call. *)
Theorem retryAsync_outcome {T : Type} (fn : nat -> Result T)
    (retries delay : Z) (log : list Step) (fuel : nat) :
  Z.to_nat retries < fuel ->
  exists k,
    k <= Z.to_nat retries
    /\ retryAsync fn fuel retries delay log
       = Some (fn (callsIn log + k), log ++ failures delay k ++ [Call])
    /\ (forall j, j < k -> exists e, fn (callsIn log + j) = Threw e)
    /\ ((exists e, fn (callsIn log + k) = Threw e) -> k = Z.to_nat retries).
Proof.
  revert retries log. induction fuel as [|fuel IH]; intros retries log Hfuel;
    [lia|].
  cbn [retryAsync].
  destruct (fn (callsIn log)) as [v|e] eqn:Hfn.
  - exists 0. rewrite Nat.add_0_r, Hfn. split; [lia|]. split; [done|].
    split; [intros j Hj; lia|]. by intros [e' [=]].
  - destruct (Z.ltb_spec 0 retries) as [Hpos|Hle].
    + destruct (IH (retries - 1)%Z (log ++ [Call; Pause delay]))
        as (k & Hk & Hrun & Hbefore & Hlast); [lia|].
      rewrite callsIn_app in Hrun, Hbefore, Hlast.
      change (callsIn [Call; Pause delay]) with 1 in *.
      exists (S k). split; [lia|]. split.
      { rewrite Hrun. replace (callsIn log + 1 + k) with (callsIn log + S k)
          by lia. by rewrite <- app_assoc. }
      split.
      { intros [|j] Hj; [rewrite Nat.add_0_r; eauto|].
        destruct (Hbefore j) as [e' He']; [lia|]. exists e'.
        rewrite <- He'. f_equal. lia. }
      intros He'. replace (callsIn log + S k) with (callsIn log + 1 + k)
        in He' by lia.
      specialize (Hlast He'). lia.
    + exists 0. rewrite Nat.add_0_r, Hfn. split; [lia|]. split; [done|].
      split; [intros j Hj; lia|]. intros _. lia.
Qed.

Lemma retryAsync_outcome_witness :
  Z.to_nat 3 < 4
  /\ exists k,
       k <= Z.to_nat 3
       /\ retryAsync thirdTime 4 3 1000 []
          = Some (thirdTime (callsIn [] + k), [] ++ failures 1000 k ++ [Call])
       /\ (forall j, j < k -> exists e, thirdTime (callsIn [] + j) = Threw e)
       /\ ((exists e, thirdTime (callsIn [] + k) = Threw e) -> k = Z.to_nat 3).
Proof.
  assert (Z.to_nat 3 < 4) as Hfuel by (simpl; lia).
  split; [exact Hfuel|].
  exact (retryAsync_outcome thirdTime 3 1000 [] 4 Hfuel).
Defined.

End DbUtilsSpec.

Module GoogleStoreFacts.
Import GoogleStore.
Open Scope string_scope.

Lemma orNull_Some s : s <> "" -> orNull s = Some s.
Proof. unfold orNull. by destruct (String.eqb_spec s ""). Qed.

(** A listing that works finds the first store with the display name. *)
Lemma findStoreByName_found H name c store :
  listFails H (now c) = false ->
  firstNamed name c = Some store -> store_name store <> "" ->
  findStoreByName H name c = (Some (store_name store), tick c).
Proof.
  unfold findStoreByName, firstNamed. intros -> -> Hne.
  by rewrite orNull_Some.
Qed.

(** A listing that fails finds nothing. *)
Lemma findStoreByName_failed H name c :
  listFails H (now c) = true -> findStoreByName H name c = (None, tick c).
Proof. unfold findStoreByName. by intros ->. Qed.

End GoogleStoreFacts.

Module GoogleStoreSpec.
Import GoogleStore GoogleStoreFacts.
Open Scope string_scope.

(** X23.  A request for a store name under which the cloud lists a store,
    when the listing of the check works: without [force] the answer is
    409 and the cloud keeps its stores, nothing deleted and nothing
    created; with [force], and a service that works, the store found is
    deleted, a new store with the display name is created, the pooled
    object is linked to it, and the answer is the success. *)
Theorem existing_store_needs_force (H : Host) (body : Body) (s s1 : Server)
    (project name : string) (db : GoogleFileSearch) (store : Store) :
  Orchestrator.truthy (projectName body) = Some project ->
  Orchestrator.truthy (googleStoreName body) = Some name ->
  getDbInstance H (googleStoreName body) s = (Returned db, s1) ->
  targetDisplayName db = name ->
  firstNamed name (cloud s1) = Some store ->
  store_name store <> "" ->
  listFails H (now (cloud s1)) = false ->
  (force body = false ->
   POST H body s
   = (Conflict, {| pooled := pooled s1; cloud := tick (cloud s1) |}))
  /\ (force body = true ->
      listFails H (1 + now (cloud s1)) = false ->
      deleteError H (2 + now (cloud s1)) = None ->
      createError H (3 + now (cloud s1)) = None ->
      readdirError H (knowledgePath project) = None ->
      newName H (createdCount (cloud s1)) <> "" ->
      let newStore :=
        {| store_name := newName H (createdCount (cloud s1));
           store_displayName := name |} in
      POST H body s
      = (Success,
         {| pooled := Some {| targetDisplayName := name;
                              storeName := Some (store_name newStore) |};
            cloud :=
              {| stores :=
                   (List.filter
                      (fun other =>
                         negb (String.eqb (store_name other)
                                 (store_name store)))
                      (stores (cloud s1))
                    ++ [newStore])%list;
                 createdCount := S (createdCount (cloud s1));
                 now := 5 + now (cloud s1) |} |})).
Proof.
  intros Hp Hn Hdb Ht Hfirst Hne Hlist.
  pose proof (findStoreByName_found H name (cloud s1) store Hlist Hfirst Hne)
    as Hfound.
  split.
  - intros Hforce. unfold POST. rewrite Hp, Hn, Hdb.
    unfold checkStoreExists. rewrite Ht, Hfound, Hforce. reflexivity.
  - intros Hforce Hlist2 Hdel Hcre Hdir Hnew newStore.
    cbn [Nat.add] in Hlist2, Hdel, Hcre. unfold POST. rewrite Hp, Hn, Hdb.
    unfold checkStoreExists. rewrite Ht, Hfound, Hforce.
    cbn [fst snd andb negb].
    unfold migrate. rewrite Ht.
    assert (firstNamed name (tick (cloud s1)) = Some store) as Hfirst2
      by exact Hfirst.
    rewrite (findStoreByName_found H name (tick (cloud s1)) store Hlist2
               Hfirst2 Hne).
    cbn [fst snd]. unfold deleteStore. cbn [now tick]. rewrite Hdel.
    cbn [fst snd]. unfold createStore. cbn [now tick stores createdCount].
    rewrite Hcre. cbn [fst snd store_name]. rewrite (orNull_Some _ Hnew).
    unfold seed. cbn [storeName]. rewrite Hdir. reflexivity.
Qed.

Lemma existing_store_needs_force_witness :
  POST steady (kbRequest false) {| pooled := None; cloud := oneStore |}
  = (Conflict,
     {| pooled := Some {| targetDisplayName := "kb";
                          storeName := Some (store_name kbStore) |};
        cloud := {| stores := [kbStore]; createdCount := 1; now := 2 |} |}).
Proof.
  exact (proj1 (existing_store_needs_force steady (kbRequest false)
                  {| pooled := None; cloud := oneStore |}
                  {| pooled := Some {| targetDisplayName := "kb";
                                       storeName :=
                                         Some (store_name kbStore) |};
                     cloud := tick oneStore |}
                  "demo" "kb"
                  {| targetDisplayName := "kb";
                     storeName := Some (store_name kbStore) |}
                  kbStore eq_refl eq_refl eq_refl eq_refl eq_refl
                  ltac:(discriminate) eq_refl)
           eq_refl).
Defined.

(** X24.  The check takes a listing that fails for a store that is not
    there: when the listing of [checkStoreExists] fails, a request
    without [force] is not answered with 409 but goes on to [migrate],
    and when the listing of [migrate] then works, the store under the
    display name is deleted, whether or not the creation that follows
    succeeds. *)
Theorem failed_listing_passes_the_check (H : Host) (body : Body)
    (s s1 : Server) (project name : string) (db : GoogleFileSearch)
    (store : Store) :
  Orchestrator.truthy (projectName body) = Some project ->
  Orchestrator.truthy (googleStoreName body) = Some name ->
  getDbInstance H (googleStoreName body) s = (Returned db, s1) ->
  targetDisplayName db = name ->
  firstNamed name (cloud s1) = Some store ->
  store_name store <> "" ->
  force body = false ->
  listFails H (now (cloud s1)) = true ->
  listFails H (1 + now (cloud s1)) = false ->
  deleteError H (2 + now (cloud s1)) = None ->
  let after := POST H body s in
  after.1 <> Conflict
  /\ exists created,
       stores (cloud after.2)
       = (List.filter
            (fun other =>
               negb (String.eqb (store_name other) (store_name store)))
            (stores (cloud s1))
          ++ created)%list
       /\ length created <= 1
       /\ ~ In store
            (List.filter
               (fun other =>
                  negb (String.eqb (store_name other) (store_name store)))
               (stores (cloud s1))).
Proof.
  intros Hp Hn Hdb Ht Hfirst Hne Hforce Hfail Hlist2 Hdel after.
  cbn [Nat.add] in Hlist2, Hdel.
  assert (~ In store
            (List.filter
               (fun other =>
                  negb (String.eqb (store_name other) (store_name store)))
               (stores (cloud s1)))) as Hgone.
  { intros [_ Hin]%filter_In. by rewrite String.eqb_refl in Hin. }
  unfold after, POST. rewrite Hp, Hn, Hdb.
  unfold checkStoreExists. rewrite Ht, (findStoreByName_failed _ _ _ Hfail).
  cbn [fst snd andb].
  unfold migrate. rewrite Ht.
  assert (firstNamed name (tick (cloud s1)) = Some store) as Hfirst2
    by exact Hfirst.
  rewrite (findStoreByName_found H name (tick (cloud s1)) store Hlist2
             Hfirst2 Hne).
  cbn [fst snd]. unfold deleteStore. cbn [now tick]. rewrite Hdel.
  cbn [fst snd]. unfold createStore. cbn [now tick stores createdCount].
  destruct (createError H (S (S (S (now (cloud s1)))))) as [e|].
  - cbn [fst snd]. split; [done|]. exists []. rewrite app_nil_r.
    split; [done|]. split; [simpl; lia|done].
  - cbn [fst snd]. unfold seed.
    destruct (orNull _) as [linked|]; cbn [storeName];
      [destruct (readdirError H (knowledgePath project))|];
      (split; [done|]); eexists [_]; (split; [reflexivity|]);
      (split; [simpl; lia|done]).
Qed.

Lemma failed_listing_passes_the_check_witness :
  let start := {| pooled := None; cloud := oneStore |} in
  let after := POST hiccup (kbRequest false) start in
  after.1 <> Conflict
  /\ exists created,
       stores (cloud after.2)
       = (List.filter
            (fun other =>
               negb (String.eqb (store_name other) (store_name kbStore)))
            (stores oneStore)
          ++ created)%list
       /\ length created <= 1
       /\ ~ In kbStore
            (List.filter
               (fun other =>
                  negb (String.eqb (store_name other) (store_name kbStore)))
               (stores oneStore)).
Proof.
  exact (failed_listing_passes_the_check hiccup (kbRequest false)
           {| pooled := None; cloud := oneStore |}
           {| pooled := Some {| targetDisplayName := "kb";
                                storeName := Some (store_name kbStore) |};
              cloud := tick oneStore |}
           "demo" "kb"
           {| targetDisplayName := "kb";
              storeName := Some (store_name kbStore) |}
           kbStore eq_refl eq_refl eq_refl eq_refl eq_refl
           ltac:(discriminate) eq_refl eq_refl eq_refl eq_refl).
Defined.

End GoogleStoreSpec.

Module TimestampFacts.
Import Timestamp.
Open Scope string_scope.

Lemma forallb_numbersFrom (f : N -> bool) first count x :
  forallb f (numbersFrom first count) = true ->
  (first <= x < first + N.of_nat count)%N -> f x = true.
Proof.
  intros Hall Hx. rewrite forallb_forall in Hall. apply Hall.
  unfold numbersFrom. apply in_map_iff. exists (N.to_nat (x - first)).
  split; [lia|]. apply in_seq. lia.
Qed.

Lemma pad_two n : (n < 100)%N -> pad n = two n.
Proof.
  intros Hn.
  assert (forallb (fun k => String.eqb (pad k) (two k))
            (numbersFrom 0 (N.to_nat 100)) = true)
    as Hall by (vm_compute; reflexivity).
  apply String.eqb_eq, (forallb_numbersFrom _ _ _ n Hall). lia.
Qed.

Lemma year_two y :
  (1000 <= y <= 9999)%N -> lastTwo (pretty y) = two (y mod 100).
Proof.
  intros Hy.
  assert (forallb (fun k => String.eqb (lastTwo (pretty k)) (two (k mod 100)))
            (numbersFrom 1000 (N.to_nat 9000)) = true)
    as Hall by (vm_compute; reflexivity).
  apply String.eqb_eq, (forallb_numbersFrom _ _ _ y Hall). lia.
Qed.

Lemma two_inj a b : (a < 100)%N -> (b < 100)%N -> two a = two b -> a = b.
Proof.
  intros Ha Hb. unfold two. intros [= H1 H2].
  apply (f_equal N_of_ascii) in H1, H2.
  assert (a / 10 < 10)%N by (apply N.Div0.div_lt_upper_bound; lia).
  assert (b / 10 < 10)%N by (apply N.Div0.div_lt_upper_bound; lia).
  pose proof (N.mod_upper_bound a 10). pose proof (N.mod_upper_bound b 10).
  rewrite !N_ascii_embedding in H1, H2 by lia.
  rewrite (N.div_mod a 10), (N.div_mod b 10) by lia. lia.
Qed.

(** The timestamp of a date: six pairs of digits and the underscore. *)
Lemma getTimestamp_two d :
  valid d ->
  getTimestamp d
  = two (fullYear d mod 100) +:+ two (month d + 1) +:+ two (date d) +:+ "_"
    +:+ two (hours d) +:+ two (minutes d) +:+ two (seconds d).
Proof.
  intros (Hy & Hm & Hd & Hh & Hmin & Hs). unfold getTimestamp. cbv zeta.
  rewrite (year_two _ Hy), !pad_two by lia. reflexivity.
Qed.

End TimestampFacts.

Module TimestampSpec.
Import Timestamp TimestampFacts.
Open Scope string_scope.

(** X25.  For the dates of the years 1000 to 9999, the name
    [getTimestamp] gives has 13 characters, and two dates get the same
    name exactly when they agree on the last two digits of the year and
    on month, day, hour, minute and second: two runs started within the
    same second of local time share their result directory, and so do
    runs a century apart. *)
Theorem timestamp_names_the_second (d1 d2 : Date) :
  valid d1 -> valid d2 ->
  String.length (getTimestamp d1) = 13
  /\ (getTimestamp d1 = getTimestamp d2
      <-> (fullYear d1 mod 100 = fullYear d2 mod 100)%N
          /\ month d1 = month d2 /\ date d1 = date d2
          /\ hours d1 = hours d2 /\ minutes d1 = minutes d2
          /\ seconds d1 = seconds d2).
Proof.
  intros V1 V2. rewrite (getTimestamp_two d1 V1), (getTimestamp_two d2 V2).
  split; [reflexivity|].
  destruct V1 as (Hy1 & Hm1 & Hd1 & Hh1 & Hmin1 & Hs1).
  destruct V2 as (Hy2 & Hm2 & Hd2 & Hh2 & Hmin2 & Hs2).
  split.
  - unfold two at 1 2 3 4 5 6 7 8 9 10 11 12. cbn [String.append].
    intros [= Y1 Y2 M1 M2 D1 D2 h1 h2 m1 m2 s1 s2].
    assert (forall a b, (a < 100)%N -> (b < 100)%N ->
              ascii_of_N (48 + a / 10) = ascii_of_N (48 + b / 10) ->
              ascii_of_N (48 + a mod 10) = ascii_of_N (48 + b mod 10) ->
              a = b) as Hinj.
    { intros a b Ha Hb E1 E2. apply two_inj; [done|done|].
      unfold two. by rewrite E1, E2. }
    pose proof (N.mod_upper_bound (fullYear d1) 100).
    pose proof (N.mod_upper_bound (fullYear d2) 100).
    repeat split.
    + apply Hinj; [lia|lia|done|done].
    + assert (month d1 + 1 = month d2 + 1)%N; [|lia].
      apply Hinj; [lia|lia|done|done].
    + apply Hinj; [lia|lia|done|done].
    + apply Hinj; [lia|lia|done|done].
    + apply Hinj; [lia|lia|done|done].
    + apply Hinj; [lia|lia|done|done].
  - by intros (-> & -> & -> & -> & -> & ->).
Qed.

Lemma timestamp_names_the_second_witness :
  valid (newYear 1925) /\ valid (newYear 2025)
  /\ getTimestamp (newYear 1925) = "250101_000000"
  /\ getTimestamp (newYear 1925) = getTimestamp (newYear 2025).
Proof.
  assert (valid (newYear 1925)) as V1 by (unfold valid; simpl; lia).
  assert (valid (newYear 2025)) as V2 by (unfold valid; simpl; lia).
  split; [exact V1|]. split; [exact V2|]. split; [reflexivity|].
  apply (timestamp_names_the_second (newYear 1925) (newYear 2025) V1 V2).
  repeat split; reflexivity.
Defined.

End TimestampSpec.

Module PgMigrateFacts.
Import PgMigrate.

(** [runAll] sends the statements in their order and stops at the first
    that fails, with its error; it returns when none fails. *)
Lemma runAll_stops H statements :
  match (runAll H statements).1 with
  | Returned _ =>
      (runAll H statements).2 = map Query statements
      /\ Forall (fun s => queryError H s = None) statements
  | Threw e =>
      exists before failing after,
        statements = before ++ failing :: after
        /\ Forall (fun s => queryError H s = None) before
        /\ queryError H failing = Some e
        /\ (runAll H statements).2 = map Query (before ++ [failing])
  end.
Proof.
  induction statements as [|s rest IH]; simpl; [done|].
  destruct (queryError H s) as [e|] eqn:Hs; simpl.
  { by exists [], s, rest. }
  destruct (runAll H rest).1 as [[]|e].
  - destruct IH as [-> Hall]. split; [done|]. by constructor.
  - destruct IH as (before & failing & after & -> & Hall & Hfail & ->).
    exists (s :: before), failing, after. split; [done|].
    split; [by constructor|]. by split.
Qed.

Lemma releases_app a b : releases (a ++ b) = releases a + releases b.
Proof. unfold releases. by rewrite List.filter_app, length_app. Qed.

Lemma releases_queries statements : releases (map Query statements) = 0.
Proof. by induction statements. Qed.

End PgMigrateFacts.

Module PgMigrateSpec.
Import PgMigrate PgMigrateFacts.

(** X26.  Once the pool has given a client, [migrate] releases it exactly
    once, as its last step, whether it returns or throws.  It returns
    exactly when every statement succeeded, and has then sent them all in
    their order, [COMMIT] last.  Otherwise it stops at the first
    statement that fails: it has sent the statements before it, which
    succeeded, and that statement, none of those behind it, then
    [ROLLBACK], and it throws the error of that statement, or the error of
    the [ROLLBACK] if that fails too.  The index is asked for only for at
    most 2000 dimensions. *)
Theorem migrate_releases_the_client (H : Host) (embeddingDimensions : Z) :
  connectError H = None ->
  let outcome := migrate H embeddingDimensions in
  releases outcome.2 = 1
  /\ last outcome.2 = Some Release
  /\ (outcome.1 = Returned tt
      <-> Forall (fun s => queryError H s = None) (body embeddingDimensions))
  /\ (outcome.1 = Returned tt ->
      outcome.2
      = Connect :: map Query (body embeddingDimensions) ++ [Release])
  /\ (forall e, outcome.1 = Threw e ->
        exists before failing after error,
          body embeddingDimensions = before ++ failing :: after
          /\ Forall (fun s => queryError H s = None) before
          /\ queryError H failing = Some error
          /\ outcome.2
             = Connect :: map Query (before ++ [failing])
               ++ [Query ROLLBACK; Release]
          /\ e = match queryError H ROLLBACK with
                 | Some rollbackError => rollbackError
                 | None => error
                 end)
  /\ (In (Query CREATE_INDEX) outcome.2 -> (embeddingDimensions <= 2000)%Z).
Proof.
  intros Hc outcome. unfold outcome, migrate. rewrite Hc.
  pose proof (runAll_stops H (body embeddingDimensions)) as Hrun.
  assert (forall sent more,
            body embeddingDimensions = sent ++ more ->
            In CREATE_INDEX sent -> (embeddingDimensions <= 2000)%Z)
    as Hindex.
  { intros sent more Hbody Hin.
    assert (In CREATE_INDEX (body embeddingDimensions)) as Hb.
    { rewrite Hbody. apply in_app_iff. by left. }
    unfold body in Hb. destruct (Z.leb_spec embeddingDimensions 2000);
      [done|].
    simpl in Hb. intuition discriminate. }
  destruct (runAll H (body embeddingDimensions)).1 as [[]|error];
    cbn [fst snd].
  - destruct Hrun as [Hops Hall]. rewrite Hops.
    split. { change (releases (_ :: ?l)) with (releases l).
             rewrite releases_app, releases_queries. reflexivity. }
    split. { by rewrite app_comm_cons, last_snoc. }
    split; [done|]. split; [done|]. split; [done|].
    intros [[=]|Hin]. apply in_app_iff in Hin as [Hin|[[=]|[]]].
    apply in_map_iff in Hin as (s & [= ->] & Hin).
    apply (Hindex (body embeddingDimensions) []); [|done].
    by rewrite app_nil_r.
  - destruct Hrun as (before & failing & after & Hbody & Hall & Hfail & Hops).
    rewrite Hops.
    split. { change (releases (_ :: ?l)) with (releases l).
             rewrite releases_app, releases_queries. reflexivity. }
    split. { change [Query ROLLBACK; Release]
               with ([Query ROLLBACK] ++ [Release]).
             by rewrite app_comm_cons, app_assoc, last_snoc. }
    split.
    { split; [by destruct (queryError H ROLLBACK)|].
      intros Hok. rewrite Hbody in Hok. apply Forall_app in Hok as [_ Hok].
      apply Forall_inv in Hok. congruence. }
    split; [by destruct (queryError H ROLLBACK)|].
    split.
    { intros e He. exists before, failing, after, error.
      split; [done|]. split; [done|]. split; [done|]. split; [done|].
      destruct (queryError H ROLLBACK); by injection He as <-. }
    intros [[=]|Hin]. apply in_app_iff in Hin as [Hin|[[=]|[[=]|[]]]].
    apply in_map_iff in Hin as (s & [= ->] & Hin).
    apply (Hindex (before ++ [failing]) after); [|done].
    by rewrite <- app_assoc.
Qed.

Lemma migrate_releases_the_client_witness :
  migrate noIndex 1024
  = (Threw "column cannot have more than 2000 dimensions"%string,
     [Connect; Query BEGIN; Query DROP_FILES; Query DROP_CHUNKS;
      Query CREATE_EXTENSION; Query REGISTER_TYPE; Query CREATE_FILES;
      Query (CREATE_CHUNKS 1024); Query CREATE_INDEX; Query ROLLBACK;
      Release])
  /\ releases (migrate noIndex 1024).2 = 1.
Proof.
  split; [reflexivity|].
  exact (proj1 (migrate_releases_the_client noIndex 1024 eq_refl)).
Defined.

End PgMigrateSpec.
